(** * comfyui-graph-utils: the workflow graph, its structural diff and its
    validators, embedded from [ComfyWorkflow.ts], [types.ts] and
    [validators.ts], with two of their callers: the example
    [examples/sdxl-workflow.ts] and the builder [SDXLWorkflowBuilder.ts].

    Modelling conventions.
    - A JavaScript object used as a map is the list of its entries in the
      order [Object.entries] enumerates them; its keys are pairwise distinct
      (the predicates [wf_inputs], [wf_nodes] and [wf_workflow] say so where a
      proof needs it).
    - A read [o[k]] of JavaScript also finds the members of
      [Object.prototype] ([constructor], [toString], [__proto__] and the
      others of [objectPrototypeNames]), and a write under [__proto__] calls
      a setter.  The methods of [ComfyWorkflow] are embedded twice.  The
      module [Js] follows the methods with these reads and writes, and with
      the [TypeError]s they lead to; the theorems on the structural diff,
      on [removeNode] and on the edge and input methods are about [Js].
      The definitions outside [Js] read own entries only: they are the
      methods on workflows whose node ids, class types and input names are
      none of these names, which the lemmas of the last part of the file
      prove ([js_getStructuralDiff_plainNames], [js_removeNode_plain],
      [js_addEdge_plain] and the like).
    - A JavaScript [Set] is the list of its members in insertion order.
    - [undefined] is [None]; in [Js], where a read has three outcomes, it
      is [Js.Undefined].
    - Numbers are integers ([Z]): the numbers a JSON workflow carries for
      ports, counts and integer literals.  [NaN] and the infinities, which
      JSON cannot represent, are not part of the model. *)

From stdpp Require Import base option list strings sorting pretty.

(** ** Data model ([types.ts]) *)

(** [InputValue = string | number | boolean | NodeConnection | null], where
    [NodeConnection = [string, number]]. *)
Inductive InputValue :=
  | VString (s : string)
  | VNumber (n : Z)
  | VBool (b : bool)
  | VNull
  | VConnection (nodeId : string) (port : Z).

#[global] Instance InputValue_eq_dec : EqDecision InputValue.
Proof. solve_decision. Defined.

Record NodeMeta := { title : option string }.

Record ComfyNode := {
  inputs : list (string * InputValue);
  class_type : string;
  _meta : option NodeMeta
}.

#[global] Instance NodeMeta_eq_dec : EqDecision NodeMeta.
Proof. solve_decision. Defined.

#[global] Instance ComfyNode_eq_dec : EqDecision ComfyNode.
Proof. solve_decision. Defined.

(** [ComfyWorkflowJson]: node id to node. *)
Abbreviation ComfyWorkflowJson := (list (string * ComfyNode)).

Inductive StructuralDiffType :=
  | class_type_count_mismatch
  | missing_node_type
  | extra_node_type
  | input_mismatch
  | connection_mismatch.

#[global] Instance StructuralDiffType_eq_dec : EqDecision StructuralDiffType.
Proof. solve_decision. Defined.

(** [expected] and [actual] are [unknown] in the source; the values stored
    there are input values, counts (numbers), normalized connections
    (strings) or [undefined]. *)
Record StructuralDiff := {
  type : StructuralDiffType;
  classType : option string;
  inputName : option string;
  expected : option InputValue;
  actual : option InputValue;
  details : string
}.

#[global] Instance StructuralDiff_eq_dec : EqDecision StructuralDiff.
Proof. solve_decision. Defined.

Record Edge := {
  sourceNodeId : string;
  sourcePort : Z;
  targetNodeId : string;
  targetInputName : string
}.

(** ** Objects and sets *)

(** [o[k]] *)
Fixpoint obj_get {V} (o : list (string * V)) (k : string) : option V :=
  match o with
  | [] => None
  | e :: o' => if decide (e.1 = k) then Some e.2 else obj_get o' k
  end.

(** [Object.keys(o)] *)
Definition obj_keys {V} (o : list (string * V)) : list string := o.*1.

(** [delete o[k]] *)
Definition obj_delete {V} (k : string) (o : list (string * V)) : list (string * V) :=
  filter (λ e, e.1 ≠ k) o.

(** [o[k] = v]: an existing key keeps its place, a new one goes last. *)
Fixpoint obj_set {V} (k : string) (v : V) (o : list (string * V)) : list (string * V) :=
  match o with
  | [] => [(k, v)]
  | e :: o' => if decide (e.1 = k) then (k, v) :: o' else e :: obj_set k v o'
  end.

(** [s.has(x)] *)
Definition Set_has {A} `{EqDecision A} (x : A) (s : list A) : bool :=
  bool_decide (x ∈ s).

(** [s.add(x)] *)
Definition Set_add {A} `{EqDecision A} (x : A) (s : list A) : list A :=
  if decide (x ∈ s) then s else s ++ [x].

(** [s.delete(x)] *)
Definition Set_delete {A} `{EqDecision A} (x : A) (s : list A) : list A :=
  filter (λ y, y ≠ x) s.

(** [new Set(l)] *)
Definition Set_of {A} `{EqDecision A} (l : list A) : list A :=
  foldl (λ s x, Set_add x s) [] l.

(** The names of the members of [Object.prototype]: what a read [o[k]] of a
    plain object finds under them when [o] has no own entry of that name. *)
Definition objectPrototypeNames : list string :=
  [ "constructor"; "__defineGetter__"; "__defineSetter__"; "hasOwnProperty";
    "__lookupGetter__"; "__lookupSetter__"; "isPrototypeOf"; "propertyIsEnumerable";
    "toString"; "valueOf"; "__proto__"; "toLocaleString" ].

(** How a call ends: it returns, it throws, or it gives an [inputs] object
    another prototype (a write of an array or of [null] under the name
    [__proto__]).  Past that point the object is no longer one over
    [Object.prototype], and the embedding follows it no further. *)
Inductive Outcome (A : Type) :=
  | Returns (a : A)
  | Throws
  | NewPrototype.
Arguments Returns {A} _.
Arguments Throws {A}.
Arguments NewPrototype {A}.

#[global] Instance Outcome_bind : MBind Outcome := λ A B f m,
  match m with
  | Returns a => f a
  | Throws => Throws
  | NewPrototype => NewPrototype
  end.

(** Keys unique, as in every JavaScript object. *)
Definition wf_inputs (ins : list (string * InputValue)) : Prop := NoDup (obj_keys ins).
Definition wf_nodes (nodes : ComfyWorkflowJson) : Prop := NoDup (obj_keys nodes).
Definition wf_workflow (nodes : ComfyWorkflowJson) : Prop :=
  wf_nodes nodes ∧ Forall (λ e, wf_inputs (inputs e.2)) nodes.

(** ** Strings *)

Definition dq : string := String (Ascii.ascii_of_nat 34) EmptyString.

(** [l.join(sep)] *)
Fixpoint join (sep : string) (l : list string) : string :=
  match l with
  | [] => EmptyString
  | [x] => x
  | x :: l' => x +:+ sep +:+ join sep l'
  end.

(** Template interpolation of a number. *)
Definition num_to_string (n : Z) : string := pretty n.

Definition hex_digit (n : N) : Ascii.ascii :=
  Ascii.ascii_of_N (if decide (n < 10)%N then 48 + n else 87 + n).

(** The escape [JSON.stringify] writes for one character of a string. *)
Definition json_escape (c : Ascii.ascii) : string :=
  let n := Ascii.N_of_ascii c in
  if decide (n = 34)%N then "\" +:+ dq
  else if decide (n = 92)%N then "\\"
  else if decide (n = 8)%N then "\b"
  else if decide (n = 9)%N then "\t"
  else if decide (n = 10)%N then "\n"
  else if decide (n = 12)%N then "\f"
  else if decide (n = 13)%N then "\r"
  else if decide (n < 32)%N then
    "\u00" +:+ String (hex_digit (n / 16)) (String (hex_digit (n mod 16)) EmptyString)
  else String c EmptyString.

Fixpoint json_escape_string (s : string) : string :=
  match s with
  | EmptyString => EmptyString
  | String c s' => json_escape c +:+ json_escape_string s'
  end.

Definition json_quote (s : string) : string := dq +:+ json_escape_string s +:+ dq.

(** [JSON.stringify(value)] *)
Definition JSON_stringify (value : InputValue) : string :=
  match value with
  | VString s => json_quote s
  | VNumber n => num_to_string n
  | VBool true => "true"
  | VBool false => "false"
  | VNull => "null"
  | VConnection nodeId port => "[" +:+ json_quote nodeId +:+ "," +:+ num_to_string port +:+ "]"
  end.

(** [JSON.stringify(value)] inside a template, where [undefined] prints as
    itself. *)
Definition JSON_stringify_opt (value : option InputValue) : string :=
  from_option JSON_stringify "undefined" value.

(** ** [types.ts]: [isNodeConnection] *)

(** The connection a value is, when it is one. *)
Definition asConnection (value : option InputValue) : option (string * Z) :=
  match value with
  | Some (VConnection nodeId port) => Some (nodeId, port)
  | _ => None
  end.

Definition isNodeConnection (value : option InputValue) : bool :=
  bool_decide (is_Some (asConnection value)).

(** ** [ComfyWorkflow.ts]: node and input operations

    The private field [this.nodes] is the state; a method that mutates it
    returns the new state, a method that throws returns [None].  The reads
    of this part and of the next find own entries only; the module [Js]
    below has the methods with the reads of JavaScript. *)

(** [removeNode]: the inner loop runs over a snapshot of the entries of
    [node.inputs] and deletes from the live object. *)
Definition detachInputs (nodeId : string) (ins : list (string * InputValue))
    : list (string * InputValue) :=
  foldl (λ live e,
           match asConnection (Some e.2) with
           | Some (src, _) => if decide (src = nodeId) then obj_delete e.1 live else live
           | None => live
           end) ins ins.

Definition detachNode (nodeId : string) (node : ComfyNode) : ComfyNode :=
  {| inputs := detachInputs nodeId (inputs node);
     class_type := class_type node;
     _meta := _meta node |}.

Definition removeNode (nodeId : string) (nodes : ComfyWorkflowJson) : ComfyWorkflowJson :=
  match obj_get nodes nodeId with
  | None => nodes
  | Some _ => obj_delete nodeId ((λ e, (e.1, detachNode nodeId e.2)) <$> nodes)
  end.

Definition getNodeCount (nodes : ComfyWorkflowJson) : nat := length (obj_keys nodes).

(** [findNodesByType]; the copies it returns are values here. *)
Definition findNodesByType (classType : string) (nodes : ComfyWorkflowJson)
    : list (string * ComfyNode) :=
  filter (λ e, class_type e.2 = classType) nodes.

Definition addEdge (src : string) (srcPort : Z) (tgt : string) (tgtInput : string)
    (nodes : ComfyWorkflowJson) : option ComfyWorkflowJson :=
  match obj_get nodes src, obj_get nodes tgt with
  | Some _, Some node =>
      Some (obj_set tgt {| inputs := obj_set tgtInput (VConnection src srcPort) (inputs node);
                           class_type := class_type node;
                           _meta := _meta node |} nodes)
  | _, _ => None
  end.

Definition getEdges (nodes : ComfyWorkflowJson) : list Edge :=
  e ← nodes;
  i ← inputs e.2;
  match asConnection (Some i.2) with
  | Some (src, port) =>
      [ {| sourceNodeId := src; sourcePort := port;
           targetNodeId := e.1; targetInputName := i.1 |} ]
  | None => []
  end.

(** ** [ComfyWorkflow.ts]: the structural diff *)

(** [groupNodesByType] *)
Definition groupNodesByType (nodes : ComfyWorkflowJson)
    : list (string * list (string * ComfyNode)) :=
  foldl (λ grouped e,
           let grouped' :=
             match obj_get grouped (class_type e.2) with
             | None => obj_set (class_type e.2) [] grouped
             | Some _ => grouped
             end in
           obj_set (class_type e.2)
                   (default [] (obj_get grouped' (class_type e.2)) ++ [e]) grouped')
        [] nodes.

(** [normalizeConnection] *)
Definition normalizeConnection (nodes : ComfyWorkflowJson) (connection : string * Z) : string :=
  let '(nodeId, port) := connection in
  match obj_get nodes nodeId with
  | None => "UNKNOWN:" +:+ num_to_string port
  | Some node => class_type node +:+ ":" +:+ num_to_string port
  end.

(** The value [hashNodeInputs] stores under a key of [normalized]: the body
    of its loop. *)
Definition normalizeValue (nodes : ComfyWorkflowJson) (value : InputValue) : string :=
  match asConnection (Some value) with
  | Some connection => normalizeConnection nodes connection
  | None => JSON_stringify value
  end.

(** [hashNodeInputs] *)
Definition hashNodeInputs (nodes : ComfyWorkflowJson) (node : ComfyNode) : string :=
  let normalized := (λ e, (e.1, normalizeValue nodes e.2)) <$> inputs node in
  let sortedKeys := merge_sort String.le (obj_keys normalized) in
  join "|" ((λ k, k +:+ ":" +:+ default "undefined" (obj_get normalized k)) <$> sortedKeys).

(** The body of the loop of [compareNodeInputs], for one input name.  The
    three cases of the [match] are the three branches of the source: both
    values pass the guard [isNodeConnection]; exactly one does; neither
    does. *)
Definition compareInput (this : ComfyWorkflowJson) (thisNode : ComfyNode)
    (other : ComfyWorkflowJson) (otherNode : ComfyNode) (name : string)
    : list StructuralDiff :=
  let thisValue := obj_get (inputs thisNode) name in
  let otherValue := obj_get (inputs otherNode) name in
  match asConnection thisValue, asConnection otherValue with
  | Some thisConn, Some otherConn =>
      let thisNormalized := normalizeConnection this thisConn in
      let otherNormalized := normalizeConnection other otherConn in
      if decide (thisNormalized ≠ otherNormalized) then
        [ {| type := connection_mismatch; classType := None; inputName := Some name;
             expected := Some (VString otherNormalized);
             actual := Some (VString thisNormalized);
             details := "Input " +:+ dq +:+ name +:+ dq
                        +:+ ": connection mismatch - expected " +:+ otherNormalized
                        +:+ ", got " +:+ thisNormalized |} ]
      else []
  | Some _, None | None, Some _ =>
      [ {| type := input_mismatch; classType := None; inputName := Some name;
           expected := otherValue; actual := thisValue;
           details := "Input " +:+ dq +:+ name +:+ dq
                      +:+ ": type mismatch - one is connection, other is value" |} ]
  | None, None =>
      if decide (thisValue ≠ otherValue) then
        match thisValue, otherValue with
        | None, _ =>
            [ {| type := input_mismatch; classType := None; inputName := Some name;
                 expected := otherValue; actual := None;
                 details := "Input " +:+ dq +:+ name +:+ dq
                            +:+ ": missing in this workflow" |} ]
        | _, None =>
            [ {| type := input_mismatch; classType := None; inputName := Some name;
                 expected := None; actual := thisValue;
                 details := "Input " +:+ dq +:+ name +:+ dq
                            +:+ ": extra in this workflow" |} ]
        | _, _ =>
            [ {| type := input_mismatch; classType := None; inputName := Some name;
                 expected := otherValue; actual := thisValue;
                 details := "Input " +:+ dq +:+ name +:+ dq +:+ ": expected "
                            +:+ JSON_stringify_opt otherValue +:+ ", got "
                            +:+ JSON_stringify_opt thisValue |} ]
        end
      else []
  end.

(** [compareNodeInputs] *)
Definition compareNodeInputs (this : ComfyWorkflowJson) (thisNode : ComfyNode)
    (other : ComfyWorkflowJson) (otherNode : ComfyNode) : list StructuralDiff :=
  let allInputNames :=
    Set_of (obj_keys (inputs thisNode) ++ obj_keys (inputs otherNode)) in
  name ← allInputNames; compareInput this thisNode other otherNode name.

(** One round of the outer loop of [findBestNodeMatching]: the state is
    [(unmatchedThis, unmatchedOther)]. *)
Definition matchStep (thisHashes otherHashes : list string)
    (st : list nat * list nat) (i : nat) : list nat * list nat :=
  match list_find (λ j, thisHashes !! i = otherHashes !! j) st.2 with
  | Some (_, j) => (st.1, Set_delete j st.2)
  | None => (st.1 ++ [i], st.2)
  end.

(** The two index collections after the matching loop. *)
Definition matchLoop (thisHashes otherHashes : list string) : list nat * list nat :=
  foldl (matchStep thisHashes otherHashes)
        ([], Set_of (seq 0 (length otherHashes)))
        (seq 0 (length thisHashes)).

(** [findBestNodeMatching] *)
Definition findBestNodeMatching (this : ComfyWorkflowJson)
    (thisNodes : list (string * ComfyNode))
    (other : ComfyWorkflowJson) (otherNodes : list (string * ComfyNode))
    : list StructuralDiff :=
  let thisHashes := (λ n, hashNodeInputs this n.2) <$> thisNodes in
  let otherHashes := (λ n, hashNodeInputs other n.2) <$> otherNodes in
  let '(unmatchedThis, unmatchedOther) := matchLoop thisHashes otherHashes in
  match unmatchedThis, unmatchedOther with
  | thisIdx :: _, otherIdx :: _ =>
      match thisNodes !! thisIdx, otherNodes !! otherIdx with
      | Some a, Some b => compareNodeInputs this a.2 other b.2
      | _, _ => []
      end
  | _, _ => []
  end.

(** [{ ...d, classType }] *)
Definition withClassType (ct : string) (d : StructuralDiff) : StructuralDiff :=
  {| type := type d; classType := Some ct; inputName := inputName d;
     expected := expected d; actual := actual d; details := details d |}.

(** The body of the loop of [getStructuralDiff], for one class type. *)
Definition classDiffs (this other : ComfyWorkflowJson) (ct : string) : list StructuralDiff :=
  let thisNodes := default [] (obj_get (groupNodesByType this) ct) in
  let otherNodes := default [] (obj_get (groupNodesByType other) ct) in
  if decide (length thisNodes ≠ length otherNodes) then
    [ {| type := class_type_count_mismatch; classType := Some ct; inputName := None;
         expected := Some (VNumber (Z.of_nat (length otherNodes)));
         actual := Some (VNumber (Z.of_nat (length thisNodes)));
         details := ct +:+ ": expected " +:+ num_to_string (Z.of_nat (length otherNodes))
                    +:+ " nodes, got " +:+ num_to_string (Z.of_nat (length thisNodes)) |} ]
  else if decide (length thisNodes = 1) then
    match thisNodes !! 0, otherNodes !! 0 with
    | Some a, Some b => withClassType ct <$> compareNodeInputs this a.2 other b.2
    | _, _ => []
    end
  else if decide (1 < length thisNodes) then
    withClassType ct <$> findBestNodeMatching this thisNodes other otherNodes
  else [].

(** [getStructuralDiff]: [this] is the subject, [other] the reference. *)
Definition allClassTypes (this other : ComfyWorkflowJson) : list string :=
  Set_of (obj_keys (groupNodesByType this) ++ obj_keys (groupNodesByType other)).

Definition getStructuralDiff (this other : ComfyWorkflowJson) : list StructuralDiff :=
  ct ← allClassTypes this other; classDiffs this other ct.

(** [isStructurallyEquivalentTo] *)
Definition isStructurallyEquivalentTo (this other : ComfyWorkflowJson) : bool :=
  bool_decide (length (getStructuralDiff this other) = 0).

(** ** Sample workflows from the test suite *)

Definition mkNode (ct : string) (ins : list (string * InputValue)) : ComfyNode :=
  {| inputs := ins; class_type := ct; _meta := None |}.

Definition wfA : ComfyWorkflowJson :=
  [ ("1", mkNode "VAELoader" []); ("2", mkNode "KSampler" []);
    ("3", mkNode "VAEEncode" [("vae", VConnection "1" 0)]) ].
Definition wfB : ComfyWorkflowJson :=
  [ ("1", mkNode "VAELoader" []); ("2", mkNode "KSampler" []);
    ("3", mkNode "VAEEncode" [("vae", VConnection "2" 0)]) ].
Definition wfImgs1 : ComfyWorkflowJson :=
  [ ("1", mkNode "LoadImage" [("image", VString "a.png")]);
    ("2", mkNode "LoadImage" [("image", VString "b.png")]) ].
Definition wfImgs2 : ComfyWorkflowJson :=
  [ ("10", mkNode "LoadImage" [("image", VString "b.png")]);
    ("20", mkNode "LoadImage" [("image", VString "a.png")]) ].
Definition wfImgs3 : ComfyWorkflowJson :=
  [ ("10", mkNode "LoadImage" [("image", VString "b.png")]);
    ("20", mkNode "LoadImage" [("image", VString "c.png"); ("w", VNumber 5)]) ].

(** ** [validators.ts] *)

Module Validators.

Inductive Severity := error | warning.

Record ValidationError := {
  nodeId : option string;
  inputName : option string;
  message : string;
  severity : Severity
}.

Record ValidationResult := {
  valid : bool;
  errors : list ValidationError;
  warnings : list ValidationError
}.

(** One input of one node in the first loop of [validateConnections]; the
    state is [(errors, referencedNodeIds)]. *)
Definition checkInput (nodeIds : list string) (nodeId : string)
    (st : list ValidationError * list string) (i : string * InputValue)
    : list ValidationError * list string :=
  match asConnection (Some i.2) with
  | Some (sourceNodeId, _) =>
      let referencedNodeIds := Set_add nodeId (Set_add sourceNodeId st.2) in
      if Set_has sourceNodeId nodeIds then (st.1, referencedNodeIds)
      else
        (st.1 ++ [ {| nodeId := Some nodeId; inputName := Some i.1;
                      message := "Node " +:+ dq +:+ nodeId +:+ dq
                                 +:+ " references non-existent node " +:+ dq
                                 +:+ sourceNodeId +:+ dq +:+ " in input " +:+ dq
                                 +:+ i.1 +:+ dq;
                      severity := error |} ],
         referencedNodeIds)
  | None => st
  end.

Definition checkNodes (nodeIds : list string) (json : ComfyWorkflowJson)
    : list ValidationError * list string :=
  foldl (λ st e, foldl (checkInput nodeIds e.1) st (inputs e.2)) ([], []) json.

Definition isolatedWarning (nodeId : string) : ValidationError :=
  {| nodeId := Some nodeId; inputName := None;
     message := "Node " +:+ dq +:+ nodeId +:+ dq
                +:+ " is isolated (no incoming or outgoing connections)";
     severity := warning |}.

(** [validateConnections] *)
Definition validateConnections (json : ComfyWorkflowJson) : ValidationResult :=
  let nodeIds := Set_of (obj_keys json) in
  let '(errors, referencedNodeIds) := checkNodes nodeIds json in
  let warnings :=
    nodeId ← nodeIds;
    if Set_has nodeId referencedNodeIds then [] else [isolatedWarning nodeId] in
  {| valid := bool_decide (length errors = 0); errors := errors; warnings := warnings |}.

End Validators.

(** ** The matching of step 4 in the words of the specification

    A's nodes are taken in their original order; each is paired with the
    first remaining node of B whose content hash is equal; a node of A with
    no such partner stays unmatched, and so does what remains of B. *)

(** The first member of [bs] that satisfies [P], and [bs] without it. *)
Fixpoint takeFirst {B} (P : B → Prop) `{∀ b, Decision (P b)} (bs : list B)
    : option (B * list B) :=
  match bs with
  | [] => None
  | b :: bs' =>
      if decide (P b) then Some (b, bs')
      else match takeFirst P bs' with
           | Some (x, rest) => Some (x, b :: rest)
           | None => None
           end
  end.

Record Pairing (A B : Type) := {
  paired : list (A * B);
  unmatchedA : list A;
  unmatchedB : list B
}.
Arguments paired {A B} _.
Arguments unmatchedA {A B} _.
Arguments unmatchedB {A B} _.

Fixpoint greedyPairing {A B} (hashA : A → string) (hashB : B → string)
    (nodesA : list A) (nodesB : list B) : Pairing A B :=
  match nodesA with
  | [] => {| paired := []; unmatchedA := []; unmatchedB := nodesB |}
  | a :: nodesA' =>
      match takeFirst (λ b, hashA a = hashB b) nodesB with
      | Some (b, nodesB') =>
          let r := greedyPairing hashA hashB nodesA' nodesB' in
          {| paired := (a, b) :: paired r;
             unmatchedA := unmatchedA r; unmatchedB := unmatchedB r |}
      | None =>
          let r := greedyPairing hashA hashB nodesA' nodesB in
          {| paired := paired r;
             unmatchedA := a :: unmatchedA r; unmatchedB := unmatchedB r |}
      end
  end.

(** The records step 4 reports for one class: the node-input-diff of the
    first unmatched node of A against the first unmatched node of B, when
    both exist. *)
Definition greedyDiffs (A : ComfyWorkflowJson) (nodesA : list (string * ComfyNode))
    (B : ComfyWorkflowJson) (nodesB : list (string * ComfyNode)) : list StructuralDiff :=
  let r := greedyPairing (λ n, hashNodeInputs A n.2) (λ n, hashNodeInputs B n.2)
                         nodesA nodesB in
  match unmatchedA r, unmatchedB r with
  | a :: _, b :: _ => compareNodeInputs A a.2 B b.2
  | _, _ => []
  end.

(** ** Renaming of node ids *)

Definition remapValue (r : string → string) (value : InputValue) : InputValue :=
  match value with
  | VConnection nodeId port => VConnection (r nodeId) port
  | _ => value
  end.

Definition remapNode (r : string → string) (node : ComfyNode) : ComfyNode :=
  {| inputs := (λ e, (e.1, remapValue r e.2)) <$> inputs node;
     class_type := class_type node;
     _meta := _meta node |}.

Definition remapIds (r : string → string) (nodes : ComfyWorkflowJson) : ComfyWorkflowJson :=
  (λ e, (r e.1, remapNode r e.2)) <$> nodes.

(** ** When one input name raises no record

    The two values are both connections with equal normalized strings, or
    neither is a connection and they are strictly equal ([undefined]
    included). *)
Definition valuesAgree (this : ComfyWorkflowJson) (thisValue : option InputValue)
    (other : ComfyWorkflowJson) (otherValue : option InputValue) : Prop :=
  match asConnection thisValue, asConnection otherValue with
  | Some thisConn, Some otherConn =>
      normalizeConnection this thisConn = normalizeConnection other otherConn
  | None, None => thisValue = otherValue
  | _, _ => False
  end.

(** ** Connections to a given node *)

(** The value is a connection whose source is [nodeId]. *)
Definition refersTo (nodeId : string) (value : InputValue) : Prop :=
  match value with
  | VConnection src _ => src = nodeId
  | _ => False
  end.

#[global] Instance refersTo_dec nodeId value : Decision (refersTo nodeId value).
Proof. destruct value; simpl; apply _. Defined.

(** A node with the inputs that refer to [nodeId] left out. *)
Definition withoutInputsFrom (nodeId : string) (node : ComfyNode) : ComfyNode :=
  {| inputs := filter (λ i, ¬ refersTo nodeId i.2) (inputs node);
     class_type := class_type node;
     _meta := _meta node |}.

(** ** Connections in either direction *)

(** Some node of [json] has an input that is a connection from [id]. *)
Definition isConnectionSource (json : ComfyWorkflowJson) (id : string) : Prop :=
  ∃ e name port, e ∈ json ∧ (name, VConnection id port) ∈ inputs e.2.

(** A node stored under [id] has an input that is a connection. *)
Definition holdsConnection (json : ComfyWorkflowJson) (id : string) : Prop :=
  ∃ node name src port, (id, node) ∈ json ∧ (name, VConnection src port) ∈ inputs node.

(** ** Shared connection arrays

    A connection is a JavaScript array, a mutable object: what a getter
    returns may be the very array the workflow holds.  Here the arrays live
    in a store, a value is a primitive or the address of an array, and the
    world is the store together with the [nodes] field of one workflow.  The
    node objects and the [inputs] objects never leave the class (every method
    that hands one out builds a new object), so they stay values. *)

Module Shared.

Inductive Primitive :=
  | PString (s : string)
  | PNumber (n : Z)
  | PBool (b : bool)
  | PNull.

Inductive Value :=
  | VPrim (p : Primitive)
  | VArray (l : nat).

Record Node := {
  inputs : list (string * Value);
  class_type : string;
  _meta : option NodeMeta
}.

Record World := {
  store : list (string * Z);
  nodes : list (string * Node)
}.

(** [new ComfyWorkflow()] *)
Definition empty : World := {| store := []; nodes := [] |}.

(** [addNode(classType, inputs, { id })]; [{ ...inputs }] is a new object
    with the caller's values.  The guard [this.nodes[nodeId]] also finds the
    members of [Object.prototype]. *)
Definition addNode (classType : string) (ins : list (string * Value)) (id : string)
    (w : World) : option World :=
  match obj_get (nodes w) id with
  | Some _ => None
  | None =>
      if decide (id ∈ objectPrototypeNames) then None
      else
        Some {| store := store w;
                nodes := obj_set id {| inputs := ins; class_type := classType;
                                       _meta := None |} (nodes w) |}
  end.

(** [addEdge]: the literal [[sourceNodeId, sourcePort]] is a new array. *)
Definition addEdge (src : string) (srcPort : Z) (tgt : string) (tgtInput : string)
    (w : World) : option World :=
  match obj_get (nodes w) src, obj_get (nodes w) tgt with
  | Some _, Some node =>
      Some {| store := store w ++ [(src, srcPort)];
              nodes := obj_set tgt
                         {| inputs := obj_set tgtInput (VArray (length (store w)))
                                              (inputs node);
                            class_type := class_type node;
                            _meta := _meta node |} (nodes w) |}
  | _, _ => None
  end.

(** [getInput]: [return node.inputs[name]]. *)
Definition getInput (nodeId name : string) (w : World) : option Value :=
  match obj_get (nodes w) nodeId with
  | None => None
  | Some node => obj_get (inputs node) name
  end.

(** [getInputs]: [return { ...node.inputs }]. *)
Definition getInputs (nodeId : string) (w : World) : option (list (string * Value)) :=
  match obj_get (nodes w) nodeId with
  | None => None
  | Some node => Some (inputs node)
  end.

(** [JSON.parse(JSON.stringify(value))] of one input value: an array comes
    back as a new array with the same contents. *)
Definition cloneValue (st : list (string * Z)) (v : Value) : list (string * Z) * Value :=
  match v with
  | VPrim p => (st, VPrim p)
  | VArray l =>
      match st !! l with
      | Some a => (st ++ [a], VArray (length st))
      | None => (st, VPrim PNull)
      end
  end.

Fixpoint cloneInputs (st : list (string * Z)) (ins : list (string * Value))
    : list (string * Z) * list (string * Value) :=
  match ins with
  | [] => (st, [])
  | i :: ins' =>
      let c := cloneValue st i.2 in
      let r := cloneInputs c.1 ins' in
      (r.1, (i.1, c.2) :: r.2)
  end.

(** [getNode]: [return JSON.parse(JSON.stringify(node))]. *)
Definition getNode (nodeId : string) (w : World) : World * option Node :=
  match obj_get (nodes w) nodeId with
  | None => (w, None)
  | Some node =>
      let r := cloneInputs (store w) (inputs node) in
      ({| store := r.1; nodes := nodes w |},
       Some {| inputs := r.2; class_type := class_type node; _meta := _meta node |})
  end.

(** What a caller does with an array it holds: [arr[0] = s]. *)
Definition writeSource (l : nat) (s : string) (w : World) : World :=
  {| store := alter (λ a, (s, a.2)) l (store w); nodes := nodes w |}.

(** The value an input holds, read through the store. *)
Definition readValue (st : list (string * Z)) (v : Value) : InputValue :=
  match v with
  | VPrim (PString s) => VString s
  | VPrim (PNumber n) => VNumber n
  | VPrim (PBool b) => VBool b
  | VPrim PNull => VNull
  | VArray l =>
      match st !! l with
      | Some a => VConnection a.1 a.2
      | None => VNull
      end
  end.

Definition readNode (st : list (string * Z)) (node : Node) : ComfyNode :=
  Build_ComfyNode ((λ i, (i.1, readValue st i.2)) <$> inputs node)
                  (class_type node) (_meta node).

(** [toJson]: the workflow as plain data. *)
Definition toJson (w : World) : ComfyWorkflowJson :=
  (λ e, (e.1, readNode (store w) e.2)) <$> nodes w.

(** The addresses a value, a list of inputs holds. *)
Definition addresses (ins : list (string * Value)) : list nat :=
  i ← ins; match i.2 with VArray l => [l] | VPrim _ => [] end.

(** Every address the workflow holds is allocated. *)
Definition wf (w : World) : Prop :=
  Forall (λ e, Forall (λ l, l < length (store w)) (addresses (inputs e.2))) (nodes w).

(** Two nodes and an edge, built through the public methods. *)
Definition linked : option World :=
  w1 ← addNode "VAELoader" [] "1" empty;
  w2 ← addNode "VAEEncode" [] "2" w1;
  addEdge "1" 0 "2" "vae" w2.

(** [setInput]: [node.inputs[name] = value] stores the value it is given,
    an array included.  Under the name [__proto__], when the node has no own
    input of that name, the write reaches the setter of [Object.prototype]:
    an array or [null] becomes the prototype of [inputs], any other value is
    dropped. *)
Definition setInput (nodeId name : string) (value : Value) (w : World) : Outcome World :=
  match obj_get (nodes w) nodeId with
  | None => Throws
  | Some node =>
      if decide (name = "__proto__" ∧ obj_get (inputs node) name = None) then
        match value with
        | VArray _ | VPrim PNull => NewPrototype
        | VPrim _ => Returns w
        end
      else
        Returns {| store := store w;
                   nodes := obj_set nodeId
                              {| inputs := obj_set name value (inputs node);
                                 class_type := class_type node;
                                 _meta := _meta node |} (nodes w) |}
  end.

(** [JSON.parse(JSON.stringify(...))] of a list of nodes. *)
Fixpoint cloneNodes (st : list (string * Z)) (ns : list (string * Node))
    : list (string * Z) * list (string * Node) :=
  match ns with
  | [] => (st, [])
  | e :: ns' =>
      let c := cloneInputs st (inputs e.2) in
      let r := cloneNodes c.1 ns' in
      (r.1, (e.1, {| inputs := c.2; class_type := class_type e.2;
                     _meta := _meta e.2 |}) :: r.2)
  end.

(** [getNodes]: [return JSON.parse(JSON.stringify(this.nodes))]. *)
Definition getNodes (w : World) : World * list (string * Node) :=
  let r := cloneNodes (store w) (nodes w) in
  ({| store := r.1; nodes := nodes w |}, r.2).

(** [findNodesByType]: a copy of every node of the class type. *)
Definition findNodesByType (classType : string) (w : World)
    : World * list (string * Node) :=
  let r := cloneNodes (store w) (filter (λ e, class_type e.2 = classType) (nodes w)) in
  ({| store := r.1; nodes := nodes w |}, r.2).

End Shared.

(** ** [ComfyWorkflow.ts]: the other node, edge and input operations

    A character of a string is a UTF-16 code unit below 256. *)

(** [parseInt(string)] with no radix: leading white space is skipped, a sign
    is read, the prefix [0x] or [0X] selects base 16, and the longest run of
    digits is the value; [NaN] ([None]) when there is no digit. *)
Definition isStrWhiteSpaceChar (c : Ascii.ascii) : bool :=
  bool_decide (Ascii.N_of_ascii c ∈ [9; 10; 11; 12; 13; 32; 160]%N).

Fixpoint trimStart (s : string) : string :=
  match s with
  | String c s' => if isStrWhiteSpaceChar c then trimStart s' else s
  | EmptyString => s
  end.

Definition digitValue (radix : N) (c : Ascii.ascii) : option N :=
  let n := Ascii.N_of_ascii c in
  let d := if bool_decide (48 ≤ n ≤ 57)%N then Some (n - 48)%N
           else if bool_decide (97 ≤ n ≤ 122)%N then Some (n - 87)%N
           else if bool_decide (65 ≤ n ≤ 90)%N then Some (n - 55)%N
           else None in
  match d with
  | Some v => if bool_decide (v < radix)%N then Some v else None
  | None => None
  end.

(** The value of the longest run of digits [s] starts with; [acc] is the
    value read so far, [None] before the first digit. *)
Fixpoint parseDigits (radix : N) (acc : option N) (s : string) : option N :=
  match s with
  | String c s' =>
      match digitValue radix c with
      | Some d => parseDigits radix (Some (radix * default 0 acc + d)%N) s'
      | None => acc
      end
  | EmptyString => acc
  end.

(** The part of [parseInt] after the sign. *)
Definition parseUnsigned (s : string) : option N :=
  let '(radix, digits) :=
    match s with
    | String c0 (String c1 rest) =>
        if bool_decide (Ascii.N_of_ascii c0 = 48%N)
           && bool_decide (Ascii.N_of_ascii c1 = 120%N ∨ Ascii.N_of_ascii c1 = 88%N)
        then (16%N, rest) else (10%N, s)
    | _ => (10%N, s)
    end in
  parseDigits radix None digits.

Definition parseInt (s : string) : option Z :=
  let trimmed := trimStart s in
  let '(sign, unsigned) :=
    match trimmed with
    | String c rest =>
        if bool_decide (Ascii.N_of_ascii c = 45%N) then ((-1)%Z, rest)
        else if bool_decide (Ascii.N_of_ascii c = 43%N) then (1%Z, rest)
        else (1%Z, trimmed)
    | EmptyString => (1%Z, trimmed)
    end in
  (λ n, (sign * Z.of_N n)%Z) <$> parseUnsigned unsigned.

(** The ids [generateNodeId] takes the maximum of. *)
Definition numericIds (nodes : ComfyWorkflowJson) : list Z :=
  omap parseInt (obj_keys nodes).

(** [generateNodeId] *)
Definition generateNodeId (nodes : ComfyWorkflowJson) : string :=
  let ids := numericIds nodes in
  let maxId := match ids with
               | [] => 0%Z
               | n :: ids' => foldl Z.max n ids'
               end in
  num_to_string (maxId + 1).

(** In this range the integers of the model are the numbers of the source:
    [Number.MAX_SAFE_INTEGER] is [2^53 - 1]. *)
Definition safeIds (nodes : ComfyWorkflowJson) : Prop :=
  Forall (λ n, (- (2 ^ 53 - 1) ≤ n ≤ 2 ^ 53 - 1)%Z) (numericIds nodes).

(** [addNode(classType, inputs, { id, meta })]: the id of the new node and
    the new state, or [None] when it throws. *)
Definition addNode (classType : string) (ins : list (string * InputValue))
    (id : option string) (meta : option NodeMeta) (nodes : ComfyWorkflowJson)
    : option (string * ComfyWorkflowJson) :=
  let nodeId := default (generateNodeId nodes) id in
  match obj_get nodes nodeId with
  | Some _ => None
  | None =>
      Some (nodeId,
            obj_set nodeId {| inputs := ins; class_type := classType; _meta := meta |} nodes)
  end.

(** [getNode]; the copy it returns is a value here. *)
Definition getNode (nodeId : string) (nodes : ComfyWorkflowJson) : option ComfyNode :=
  obj_get nodes nodeId.

(** [removeEdge] *)
Definition removeEdge (targetNodeId inputName : string) (nodes : ComfyWorkflowJson)
    : ComfyWorkflowJson :=
  match obj_get nodes targetNodeId with
  | None => nodes
  | Some node =>
      if isNodeConnection (obj_get (inputs node) inputName) then
        obj_set targetNodeId
                {| inputs := obj_delete inputName (inputs node);
                   class_type := class_type node; _meta := _meta node |} nodes
      else nodes
  end.

(** [getEdgesFrom] *)
Definition getEdgesFrom (src : string) (nodes : ComfyWorkflowJson) : list Edge :=
  filter (λ edge, sourceNodeId edge = src) (getEdges nodes).

(** [getEdgesTo] *)
Definition getEdgesTo (tgt : string) (nodes : ComfyWorkflowJson) : list Edge :=
  filter (λ edge, targetNodeId edge = tgt) (getEdges nodes).

(** [hasConnection] *)
Definition hasConnection (src tgt : string) (nodes : ComfyWorkflowJson) : bool :=
  bool_decide (Exists (λ edge, sourceNodeId edge = src ∧ targetNodeId edge = tgt)
                      (getEdges nodes)).

(** [setInput]; [None] when it throws. *)
Definition setInput (nodeId name : string) (value : InputValue) (nodes : ComfyWorkflowJson)
    : option ComfyWorkflowJson :=
  match obj_get nodes nodeId with
  | None => None
  | Some node =>
      Some (obj_set nodeId {| inputs := obj_set name value (inputs node);
                              class_type := class_type node; _meta := _meta node |} nodes)
  end.

(** [getInput] on values. *)
Definition getInput (nodeId name : string) (nodes : ComfyWorkflowJson) : option InputValue :=
  match obj_get nodes nodeId with
  | None => None
  | Some node => obj_get (inputs node) name
  end.

(** [Object.assign(target, source)] *)
Definition Object_assign {V} (target source : list (string * V)) : list (string * V) :=
  foldl (λ t e, obj_set e.1 e.2 t) target source.

(** The error [validateConnections] pushes for a connection whose source is
    not a node. *)
Definition danglingError (edge : Edge) : Validators.ValidationError :=
  {| Validators.nodeId := Some (targetNodeId edge);
     Validators.inputName := Some (targetInputName edge);
     Validators.message := "Node " +:+ dq +:+ targetNodeId edge +:+ dq
                           +:+ " references non-existent node " +:+ dq
                           +:+ sourceNodeId edge +:+ dq +:+ " in input " +:+ dq
                           +:+ targetInputName edge +:+ dq;
     Validators.severity := Validators.error |}.

(** ** [types.ts] and [validators.ts] on values of type [unknown]

    The type guards and [validateWorkflow] take any value.  The values here
    are those of JSON: [null], booleans, numbers, strings, arrays and
    objects; a number is an integer as everywhere in this file. *)

Module Untyped.

#[warnings="-register-all"]
Inductive Unknown :=
  | UNull
  | UBool (b : bool)
  | UNumber (n : Z)
  | UString (s : string)
  | UArray (l : list Unknown)
  | UObject (o : list (string * Unknown)).

(** [typeof value === 'object' && value !== null] *)
Definition isObject (value : Unknown) : bool :=
  match value with
  | UArray _ | UObject _ => true
  | _ => false
  end.

(** [value.name] for a name that is neither an index nor [length], on a
    value that is not [null]; [None] is [undefined]. *)
Definition getProperty (value : Unknown) (name : string) : option Unknown :=
  match value with
  | UObject o => obj_get o name
  | _ => None
  end.

(** [Object.entries(value)]; the argument [None] is [undefined], the result
    [None] is a thrown [TypeError]. *)
Definition Object_entries (value : option Unknown) : option (list (string * Unknown)) :=
  match value with
  | None | Some UNull => None
  | Some (UObject o) => Some o
  | Some (UArray l) => Some (imap (λ i x, (pretty i, x)) l)
  | Some (UString s) =>
      Some (imap (λ i c, (pretty i, UString (String c EmptyString)))
                 (String.list_ascii_of_string s))
  | Some (UBool _) | Some (UNumber _) => Some []
  end.

(** [Object.values(value)] of an object or array. *)
Definition Object_values (value : Unknown) : list Unknown :=
  (default [] (Object_entries (Some value))).*2.

(** [isNodeConnection], with the connection it recognises. *)
Definition asConnection (value : Unknown) : option (string * Z) :=
  match value with
  | UArray [UString nodeId; UNumber port] => Some (nodeId, port)
  | _ => None
  end.

Definition isNodeConnection (value : Unknown) : bool :=
  bool_decide (is_Some (asConnection value)).

(** [isComfyNode] *)
Definition isComfyNode (value : Unknown) : bool :=
  if negb (isObject value) then false
  else
    match getProperty value "class_type" with Some (UString _) => true | _ => false end
    && match getProperty value "inputs" with Some ins => isObject ins | None => false end.

(** [isComfyWorkflowJson] *)
Definition isComfyWorkflowJson (value : Unknown) : bool :=
  if negb (isObject value) then false
  else forallb isComfyNode (Object_values value).

(** [validateWorkflowStructure] *)
Definition validateWorkflowStructure (json : Unknown) : Validators.ValidationResult :=
  if negb (isComfyWorkflowJson json) then
    {| Validators.valid := false;
       Validators.errors :=
         [ {| Validators.nodeId := None; Validators.inputName := None;
              Validators.message :=
                "Invalid workflow structure: not a valid ComfyWorkflowJson";
              Validators.severity := Validators.error |} ];
       Validators.warnings := [] |}
  else
    {| Validators.valid := true; Validators.errors := []; Validators.warnings := [] |}.

(** One input in the first loop of [validateConnections]: what is done with
    a connection is what [Validators.checkInput] does. *)
Definition checkInput (nodeIds : list string) (nodeId : string)
    (st : list Validators.ValidationError * list string) (i : string * Unknown)
    : list Validators.ValidationError * list string :=
  match asConnection i.2 with
  | Some (sourceNodeId, port) =>
      Validators.checkInput nodeIds nodeId st (i.1, VConnection sourceNodeId port)
  | None => st
  end.

(** The first loop; reading [node.inputs] of [null] throws, and so does
    [Object.entries] of [undefined] and of [null]. *)
Fixpoint checkNodes (nodeIds : list string)
    (st : list Validators.ValidationError * list string)
    (entries : list (string * Unknown))
    : option (list Validators.ValidationError * list string) :=
  match entries with
  | [] => Some st
  | e :: entries' =>
      match e.2 with
      | UNull => None
      | node =>
          ins ← Object_entries (getProperty node "inputs");
          checkNodes nodeIds (foldl (checkInput nodeIds e.1) st ins) entries'
      end
  end.

(** [validateConnections] applied to any value; [None] when it throws. *)
Definition validateConnections (json : Unknown) : option Validators.ValidationResult :=
  entries ← Object_entries (Some json);
  let nodeIds := Set_of entries.*1 in
  st ← checkNodes nodeIds ([], []) entries;
  let warnings :=
    nodeId ← nodeIds;
    if Set_has nodeId st.2 then [] else [Validators.isolatedWarning nodeId] in
  Some {| Validators.valid := bool_decide (length st.1 = 0);
          Validators.errors := st.1; Validators.warnings := warnings |}.

(** [validateWorkflow]; [None] when it throws. *)
Definition validateWorkflow (json : Unknown) : option Validators.ValidationResult :=
  let structureResult := validateWorkflowStructure json in
  if negb (Validators.valid structureResult) then Some structureResult
  else
    connectionResult ← validateConnections json;
    Some {| Validators.valid := Validators.valid connectionResult;
            Validators.errors := Validators.errors structureResult
                                 ++ Validators.errors connectionResult;
            Validators.warnings := Validators.warnings structureResult
                                   ++ Validators.warnings connectionResult |}.

(** A workflow of the typed model as a value. *)
Definition ofInputValue (value : InputValue) : Unknown :=
  match value with
  | VString s => UString s
  | VNumber n => UNumber n
  | VBool b => UBool b
  | VNull => UNull
  | VConnection nodeId port => UArray [UString nodeId; UNumber port]
  end.

Definition ofNodeMeta (meta : NodeMeta) : Unknown :=
  UObject (match title meta with Some t => [("title", UString t)] | None => [] end).

Definition ofComfyNode (node : ComfyNode) : Unknown :=
  UObject ([ ("inputs", UObject ((λ i, (i.1, ofInputValue i.2)) <$> inputs node));
             ("class_type", UString (class_type node)) ]
           ++ match _meta node with Some m => [("_meta", ofNodeMeta m)] | None => [] end).

Definition ofComfyWorkflowJson (nodes : ComfyWorkflowJson) : Unknown :=
  UObject ((λ e, (e.1, ofComfyNode e.2)) <$> nodes).

End Untyped.

(** ** [examples/sdxl-workflow.ts] *)

Module SdxlWorkflow.

(** The argument of [createSDXLWorkflow]; an absent option is [None]. *)
Record Options := {
  checkpointName : option string;
  positivePrompt : option string;
  negativePrompt : option string;
  width : option Z;
  height : option Z;
  seed : option Z;
  steps : option Z;
  cfg : option Z;
  samplerName : option string;
  scheduler : option string;
  filenamePrefix : option string
}.

Definition titled (t : string) : option NodeMeta := Some {| title := Some t |}.

(** [createSDXLWorkflow(options)]; [random] is the value of
    [Math.floor(Math.random() * 1000000000000)], and [None] is a thrown
    error. *)
Definition createSDXLWorkflow (options : Options) (random : Z) : option ComfyWorkflowJson :=
  let checkpointName := default "sd_xl_base_1.0.safetensors" (checkpointName options) in
  let positivePrompt :=
    default "a beautiful landscape, masterpiece, best quality, 8k" (positivePrompt options) in
  let negativePrompt :=
    default "ugly, blurry, low quality, worst quality" (negativePrompt options) in
  let width := default 1024%Z (width options) in
  let height := default 1024%Z (height options) in
  let seed := default random (seed options) in
  let steps := default 25%Z (steps options) in
  let cfg := default 7%Z (cfg options) in
  let samplerName := default "euler" (samplerName options) in
  let scheduler := default "normal" (scheduler options) in
  let filenamePrefix := default "SDXL" (filenamePrefix options) in
  let workflow : ComfyWorkflowJson := [] in
  '(checkpointId, workflow) ←
    addNode "CheckpointLoaderSimple" [("ckpt_name", VString checkpointName)]
            None (titled "Load SDXL Checkpoint") workflow;
  '(positiveId, workflow) ←
    addNode "CLIPTextEncode" [("text", VString positivePrompt)]
            None (titled "Positive Prompt") workflow;
  '(negativeId, workflow) ←
    addNode "CLIPTextEncode" [("text", VString negativePrompt)]
            None (titled "Negative Prompt") workflow;
  '(latentId, workflow) ←
    addNode "EmptyLatentImage"
            [("width", VNumber width); ("height", VNumber height); ("batch_size", VNumber 1)]
            None (titled "Empty Latent (SDXL)") workflow;
  '(samplerId, workflow) ←
    addNode "KSampler"
            [("seed", VNumber seed); ("steps", VNumber steps); ("cfg", VNumber cfg);
             ("sampler_name", VString samplerName); ("scheduler", VString scheduler);
             ("denoise", VNumber 1)]
            None (titled "KSampler") workflow;
  '(decodeId, workflow) ← addNode "VAEDecode" [] None (titled "VAE Decode") workflow;
  '(saveId, workflow) ←
    addNode "SaveImage" [("filename_prefix", VString filenamePrefix)]
            None (titled "Save Image") workflow;
  workflow ← addEdge checkpointId 0 samplerId "model" workflow;
  workflow ← addEdge checkpointId 1 positiveId "clip" workflow;
  workflow ← addEdge checkpointId 1 negativeId "clip" workflow;
  workflow ← addEdge positiveId 0 samplerId "positive" workflow;
  workflow ← addEdge negativeId 0 samplerId "negative" workflow;
  workflow ← addEdge latentId 0 samplerId "latent_image" workflow;
  workflow ← addEdge samplerId 0 decodeId "samples" workflow;
  workflow ← addEdge checkpointId 2 decodeId "vae" workflow;
  addEdge decodeId 0 saveId "images" workflow.

End SdxlWorkflow.

(** ** [ComfyWorkflow.fromJson] and [toJson] on plain data *)

(** [fromJson(json)] with an object as argument: the type guard, then a deep
    copy, which for plain data is the data; [None] when it throws. *)
Definition fromJson (json : ComfyWorkflowJson) : option ComfyWorkflowJson :=
  if negb (Untyped.isComfyWorkflowJson (Untyped.ofComfyWorkflowJson json)) then None
  else Some json.

(** [toJson()] *)
Definition toJson (nodes : ComfyWorkflowJson) : ComfyWorkflowJson := nodes.

(** [for (const x of xs) { ... }] with a body that may throw. *)
Fixpoint forEach {X S} (body : X → S → option S) (xs : list X) (s : S) : option S :=
  match xs with
  | [] => Some s
  | x :: xs' => s' ← body x s; forEach body xs' s'
  end.

(** ** [SDXLWorkflowBuilder.ts] *)

Module SDXLWorkflowBuilder.

Record Builder := {
  workflow : ComfyWorkflowJson;
  loraNodeId : option string
}.

Definition titled (t : string) : option NodeMeta := Some {| title := Some t |}.

(** [new SDXLWorkflowBuilder(baseWorkflow)] *)
Definition new (baseWorkflow : ComfyWorkflowJson) : option Builder :=
  w ← fromJson baseWorkflow;
  Some {| workflow := w; loraNodeId := None |}.

(** [setCheckpoint] *)
Definition setCheckpoint (ckptName : string) (this : Builder) : option Builder :=
  let checkpoints := findNodesByType "CheckpointLoaderSimple" (workflow this) in
  w ← forEach (λ e w, setInput e.1 "ckpt_name" (VString ckptName) w)
              checkpoints (workflow this);
  Some {| workflow := w; loraNodeId := loraNodeId this |}.

(** [addLora] *)
Definition addLora (name : string) (strengthModel strengthClip : Z) (this : Builder)
    : option Builder :=
  match findNodesByType "CheckpointLoaderSimple" (workflow this) with
  | [] => Some this
  | checkpoint :: _ =>
      match findNodesByType "KSampler" (workflow this) with
      | [] => Some this
      | sampler :: _ =>
          let clipEncoders := findNodesByType "CLIPTextEncode" (workflow this) in
          '(loraNodeId, w) ←
            addNode "LoraLoader"
                    [("lora_name", VString name); ("strength_model", VNumber strengthModel);
                     ("strength_clip", VNumber strengthClip)]
                    None (titled "LoRA Loader") (workflow this);
          w ← addEdge checkpoint.1 0 loraNodeId "model" w;
          w ← addEdge checkpoint.1 1 loraNodeId "clip" w;
          w ← addEdge loraNodeId 0 sampler.1 "model" w;
          w ← forEach (λ e w, addEdge loraNodeId 1 e.1 "clip" w) clipEncoders w;
          Some {| workflow := w; loraNodeId := Some loraNodeId |}
      end
  end.

(** [setImg2ImgMode]; the nodes are removed before the early returns. *)
Definition setImg2ImgMode (imageName : string) (denoise : Z) (this : Builder)
    : option Builder :=
  let emptyLatents := findNodesByType "EmptyLatentImage" (workflow this) in
  let w := foldl (λ w e, removeNode e.1 w) (workflow this) emptyLatents in
  match findNodesByType "CheckpointLoaderSimple" w with
  | [] => Some {| workflow := w; loraNodeId := loraNodeId this |}
  | checkpoint :: _ =>
      match findNodesByType "KSampler" w with
      | [] => Some {| workflow := w; loraNodeId := loraNodeId this |}
      | sampler :: _ =>
          '(loadImageId, w) ←
            addNode "LoadImage" [("image", VString imageName); ("upload", VString "image")]
                    None (titled "Input Image") w;
          '(vaeEncodeId, w) ← addNode "VAEEncode" [] None (titled "VAE Encode") w;
          w ← addEdge loadImageId 0 vaeEncodeId "pixels" w;
          w ← addEdge checkpoint.1 2 vaeEncodeId "vae" w;
          w ← addEdge vaeEncodeId 0 sampler.1 "latent_image" w;
          w ← setInput sampler.1 "denoise" (VNumber denoise) w;
          Some {| workflow := w; loraNodeId := loraNodeId this |}
      end
  end.

(** [node._meta?.title || ''] *)
Definition titleOf (node : ComfyNode) : string :=
  match _meta node with
  | Some m => default EmptyString (title m)
  | None => EmptyString
  end.

(** [setPrompt] *)
Definition setPrompt (positive negative : string) (this : Builder) : option Builder :=
  let clipEncoders := findNodesByType "CLIPTextEncode" (workflow this) in
  w ← forEach (λ e w,
                 if decide (titleOf e.2 = "Positive Prompt") then
                   setInput e.1 "text" (VString positive) w
                 else if decide (titleOf e.2 = "Negative Prompt") then
                   setInput e.1 "text" (VString negative) w
                 else Some w)
              clipEncoders (workflow this);
  Some {| workflow := w; loraNodeId := loraNodeId this |}.

(** [setSize] *)
Definition setSize (width height : Z) (this : Builder) : option Builder :=
  let emptyLatents := findNodesByType "EmptyLatentImage" (workflow this) in
  w ← forEach (λ e w,
                 w ← setInput e.1 "width" (VNumber width) w;
                 setInput e.1 "height" (VNumber height) w)
              emptyLatents (workflow this);
  Some {| workflow := w; loraNodeId := loraNodeId this |}.

(** [setSeed] *)
Definition setSeed (seed : Z) (this : Builder) : option Builder :=
  let samplers := findNodesByType "KSampler" (workflow this) in
  w ← forEach (λ e w, setInput e.1 "seed" (VNumber seed) w) samplers (workflow this);
  Some {| workflow := w; loraNodeId := loraNodeId this |}.

(** [setSteps] *)
Definition setSteps (steps : Z) (this : Builder) : option Builder :=
  let samplers := findNodesByType "KSampler" (workflow this) in
  w ← forEach (λ e w, setInput e.1 "steps" (VNumber steps) w) samplers (workflow this);
  Some {| workflow := w; loraNodeId := loraNodeId this |}.

(** [setCfg] *)
Definition setCfg (cfg : Z) (this : Builder) : option Builder :=
  let samplers := findNodesByType "KSampler" (workflow this) in
  w ← forEach (λ e w, setInput e.1 "cfg" (VNumber cfg) w) samplers (workflow this);
  Some {| workflow := w; loraNodeId := loraNodeId this |}.

(** [setSampler] *)
Definition setSampler (samplerName scheduler : string) (this : Builder) : option Builder :=
  let samplers := findNodesByType "KSampler" (workflow this) in
  w ← forEach (λ e w,
                 w ← setInput e.1 "sampler_name" (VString samplerName) w;
                 setInput e.1 "scheduler" (VString scheduler) w)
              samplers (workflow this);
  Some {| workflow := w; loraNodeId := loraNodeId this |}.

(** [build] *)
Definition build (this : Builder) : ComfyWorkflowJson := toJson (workflow this).

End SDXLWorkflowBuilder.

(** The nodes of a class type with inputs assigned: each node of the class
    type has its inputs updated as by [Object.assign] with [assign node],
    every other node is as it was. *)
Definition withInputs (ins : list (string * InputValue)) (node : ComfyNode) : ComfyNode :=
  {| inputs := Object_assign (inputs node) ins;
     class_type := class_type node; _meta := _meta node |}.

Definition assignInputs (classType : string)
    (assign : ComfyNode → list (string * InputValue)) (nodes : ComfyWorkflowJson)
    : ComfyWorkflowJson :=
  (λ e, (e.1, if decide (class_type e.2 = classType)
              then withInputs (assign e.2) e.2 else e.2)) <$> nodes.

(** What is left of a node after some removals: its class type and metadata,
    and some of its inputs. *)
Definition remainder (G : ComfyNode → ComfyNode) : Prop :=
  ∀ n, class_type (G n) = class_type n ∧ _meta (G n) = _meta n
       ∧ ∀ i, i ∈ inputs (G n) → i ∈ inputs n.

(** ** The methods with JavaScript's property lookup

    The objects of the program are object literals, results of [JSON.parse]
    and of object spread: their prototype is [Object.prototype].
    [Object.keys], [Object.entries], [delete], object spread and
    [JSON.stringify] deal with the own entries of an object.  A read [o[k]]
    goes further: when [o] has no own entry under [k] it finds the member of
    [Object.prototype] of that name, if there is one.  A write [o[k] = v]
    stores an own entry, except under the name [__proto__] when [o] has no
    own entry of that name: there it calls a setter, which gives [o] the
    prototype [v] when [v] is an object or [null] and does nothing
    otherwise.

    The definitions of this module follow the methods with these reads and
    writes.  An own entry written for the first time takes the place
    [Object.entries] gives it: among the array indices in ascending order
    when its key is one, after every other entry when it is not. *)

Module Js.

(** What a read [o[k]] finds: an own entry, the member of [Object.prototype]
    of the name read (a function; for [__proto__], [Object.prototype]
    itself), or [undefined]. *)
Inductive Read (V : Type) :=
  | Own (v : V)
  | Inherited (name : string)
  | Undefined.
Arguments Own {V} _.
Arguments Inherited {V} _.
Arguments Undefined {V}.

#[global] Instance Read_eq_dec {V} `{EqDecision V} : EqDecision (Read V).
Proof. solve_decision. Defined.

(** What a read finds when only own entries count. *)
Definition ofOption {V} (entry : option V) : Read V :=
  match entry with
  | Some v => Own v
  | None => Undefined
  end.

(** [o[k]] *)
Definition get {V} (o : list (string * V)) (k : string) : Read V :=
  match obj_get o k with
  | Some v => Own v
  | None => if decide (k ∈ objectPrototypeNames) then Inherited k else Undefined
  end.

(** A read as a condition, for objects whose own values are objects: these
    and the members of [Object.prototype] are truthy. *)
Definition truthy {V} (r : Read V) : bool :=
  match r with
  | Undefined => false
  | _ => true
  end.

(** The array index a key is: a canonical numeric string below [2^32 - 1]. *)
Definition arrayIndex (k : string) : option N :=
  match parseDigits 10 None k with
  | Some n => if decide (pretty n = k ∧ (n < 4294967295)%N) then Some n else None
  | None => None
  end.

(** The place of a new entry whose key is the array index [i]. *)
Fixpoint insertIndex {V} (i : N) (k : string) (v : V) (o : list (string * V))
    : list (string * V) :=
  match o with
  | [] => [(k, v)]
  | e :: o' =>
      match arrayIndex e.1 with
      | Some j => if decide (j < i)%N then e :: insertIndex i k v o' else (k, v) :: o
      | None => (k, v) :: o
      end
  end.

(** [o[k] = v] where an own entry is stored. *)
Definition set {V} (k : string) (v : V) (o : list (string * V)) : list (string * V) :=
  match obj_get o k with
  | Some _ => obj_set k v o
  | None =>
      match arrayIndex k with
      | Some i => insertIndex i k v o
      | None => o ++ [(k, v)]
      end
  end.

(** [inputs[name] = value] on the [inputs] object of a node. *)
Definition assignInput (name : string) (value : InputValue) (ins : list (string * InputValue))
    : Outcome (list (string * InputValue)) :=
  if decide (name = "__proto__" ∧ obj_get ins name = None) then
    match value with
    | VConnection _ _ | VNull => NewPrototype
    | _ => Returns ins
    end
  else Returns (set name value ins).

(** *** Nodes, edges and inputs *)

(** [addNode(classType, inputs, { id, meta })] *)
Definition addNode (classType : string) (ins : list (string * InputValue))
    (id : option string) (meta : option NodeMeta) (nodes : ComfyWorkflowJson)
    : Outcome (string * ComfyWorkflowJson) :=
  let nodeId := default (generateNodeId nodes) id in
  if truthy (get nodes nodeId) then Throws
  else
    Returns (nodeId,
             set nodeId {| inputs := ins; class_type := classType; _meta := meta |} nodes).

(** [removeNode] *)
Definition removeNode (nodeId : string) (nodes : ComfyWorkflowJson) : ComfyWorkflowJson :=
  if truthy (get nodes nodeId) then
    obj_delete nodeId ((λ e, (e.1, detachNode nodeId e.2)) <$> nodes)
  else nodes.

(** [addEdge]: past the two guards, [this.nodes[targetNodeId].inputs] of a
    member of [Object.prototype] is [undefined], and the write throws. *)
Definition addEdge (src : string) (srcPort : Z) (tgt : string) (tgtInput : string)
    (nodes : ComfyWorkflowJson) : Outcome ComfyWorkflowJson :=
  if truthy (get nodes src) then
    match get nodes tgt with
    | Own node =>
        ins ← assignInput tgtInput (VConnection src srcPort) (inputs node);
        Returns (set tgt {| inputs := ins; class_type := class_type node;
                            _meta := _meta node |} nodes)
    | Inherited _ => Throws
    | Undefined => Throws
    end
  else Throws.

(** [isNodeConnection] of what a read found. *)
Definition asConnection (value : Read InputValue) : option (string * Z) :=
  match value with
  | Own (VConnection nodeId port) => Some (nodeId, port)
  | _ => None
  end.

Definition isNodeConnection (value : Read InputValue) : bool :=
  bool_decide (is_Some (asConnection value)).

(** [removeEdge] *)
Definition removeEdge (targetNodeId inputName : string) (nodes : ComfyWorkflowJson)
    : Outcome ComfyWorkflowJson :=
  match get nodes targetNodeId with
  | Undefined => Returns nodes
  | Inherited _ => Throws
  | Own node =>
      if isNodeConnection (get (inputs node) inputName) then
        Returns (set targetNodeId
                     {| inputs := obj_delete inputName (inputs node);
                        class_type := class_type node; _meta := _meta node |} nodes)
      else Returns nodes
  end.

(** [setInput] *)
Definition setInput (nodeId name : string) (value : InputValue) (nodes : ComfyWorkflowJson)
    : Outcome ComfyWorkflowJson :=
  match get nodes nodeId with
  | Own node =>
      ins ← assignInput name value (inputs node);
      Returns (set nodeId {| inputs := ins; class_type := class_type node;
                             _meta := _meta node |} nodes)
  | Inherited _ => Throws
  | Undefined => Throws
  end.

(** [getInput] *)
Definition getInput (nodeId name : string) (nodes : ComfyWorkflowJson)
    : Outcome (Read InputValue) :=
  match get nodes nodeId with
  | Undefined => Returns Undefined
  | Inherited _ => Throws
  | Own node => Returns (get (inputs node) name)
  end.

(** [Object.assign(target, source)]: one write for each own entry of the
    source, in order. *)
Definition Object_assign (target source : list (string * InputValue))
    : Outcome (list (string * InputValue)) :=
  foldl (λ t e, t ← t; assignInput e.1 e.2 t) (Returns target) source.

(** [updateInputs] *)
Definition updateInputs (nodeId : string) (ins : list (string * InputValue))
    (nodes : ComfyWorkflowJson) : Outcome ComfyWorkflowJson :=
  match get nodes nodeId with
  | Own node =>
      ins' ← Object_assign (inputs node) ins;
      Returns (set nodeId {| inputs := ins'; class_type := class_type node;
                             _meta := _meta node |} nodes)
  | Inherited _ => Throws
  | Undefined => Throws
  end.

(** [clearInput] *)
Definition clearInput (nodeId name : string) (nodes : ComfyWorkflowJson)
    : Outcome ComfyWorkflowJson :=
  match get nodes nodeId with
  | Undefined => Returns nodes
  | Inherited _ => Throws
  | Own node =>
      Returns (set nodeId {| inputs := obj_delete name (inputs node);
                             class_type := class_type node; _meta := _meta node |} nodes)
  end.

(** *** The structural diff *)

(** [expected] and [actual] hold what a read found, a count or a normalized
    connection. *)
Record StructuralDiff := {
  type : StructuralDiffType;
  classType : option string;
  inputName : option string;
  expected : Read InputValue;
  actual : Read InputValue;
  details : string
}.

#[global] Instance StructuralDiff_eq_dec : EqDecision StructuralDiff.
Proof. solve_decision. Defined.

(** [groupNodesByType]: [push] is not a function on a member of
    [Object.prototype]. *)
Definition groupNodesByType (nodes : ComfyWorkflowJson)
    : Outcome (list (string * list (string * ComfyNode))) :=
  foldl (λ grouped e,
           grouped ← grouped;
           let grouped' :=
             if truthy (get grouped (class_type e.2)) then grouped
             else set (class_type e.2) [] grouped in
           match get grouped' (class_type e.2) with
           | Own l => Returns (set (class_type e.2) (l ++ [e]) grouped')
           | Inherited _ => Throws
           | Undefined => Throws
           end)
        (Returns []) nodes.

(** [normalizeConnection]: [class_type] of a member of [Object.prototype] is
    [undefined]. *)
Definition normalizeConnection (nodes : ComfyWorkflowJson) (connection : string * Z) : string :=
  let '(nodeId, port) := connection in
  match get nodes nodeId with
  | Undefined => "UNKNOWN:" +:+ num_to_string port
  | Own node => class_type node +:+ ":" +:+ num_to_string port
  | Inherited _ => "undefined:" +:+ num_to_string port
  end.

(** The value [hashNodeInputs] writes under a key of [normalized]. *)
Definition normalizeValue (nodes : ComfyWorkflowJson) (value : InputValue) : string :=
  match value with
  | VConnection nodeId port => normalizeConnection nodes (nodeId, port)
  | _ => JSON_stringify value
  end.

(** [hashNodeInputs]: the write [normalized[key] = ...] of a string under
    the key [__proto__] stores nothing. *)
Definition hashNodeInputs (nodes : ComfyWorkflowJson) (node : ComfyNode) : string :=
  let normalized :=
    (λ e, (e.1, normalizeValue nodes e.2)) <$> filter (λ e, e.1 ≠ "__proto__") (inputs node) in
  let sortedKeys := merge_sort String.le (obj_keys normalized) in
  join "|" ((λ k, k +:+ ":" +:+ default "undefined" (obj_get normalized k)) <$> sortedKeys).

(** [JSON.stringify(value)] inside a template: [undefined] for a function,
    and [Object.prototype] has no own entry. *)
Definition JSON_stringify_read (value : Read InputValue) : string :=
  match value with
  | Own v => JSON_stringify v
  | Inherited name => if decide (name = "__proto__") then "{}" else "undefined"
  | Undefined => "undefined"
  end.

(** The body of the loop of [compareNodeInputs], for one input name. *)
Definition compareInput (this : ComfyWorkflowJson) (thisNode : ComfyNode)
    (other : ComfyWorkflowJson) (otherNode : ComfyNode) (name : string)
    : list StructuralDiff :=
  let thisValue := get (inputs thisNode) name in
  let otherValue := get (inputs otherNode) name in
  match asConnection thisValue, asConnection otherValue with
  | Some thisConn, Some otherConn =>
      let thisNormalized := normalizeConnection this thisConn in
      let otherNormalized := normalizeConnection other otherConn in
      if decide (thisNormalized ≠ otherNormalized) then
        [ {| type := connection_mismatch; classType := None; inputName := Some name;
             expected := Own (VString otherNormalized);
             actual := Own (VString thisNormalized);
             details := "Input " +:+ dq +:+ name +:+ dq
                        +:+ ": connection mismatch - expected " +:+ otherNormalized
                        +:+ ", got " +:+ thisNormalized |} ]
      else []
  | Some _, None | None, Some _ =>
      [ {| type := input_mismatch; classType := None; inputName := Some name;
           expected := otherValue; actual := thisValue;
           details := "Input " +:+ dq +:+ name +:+ dq
                      +:+ ": type mismatch - one is connection, other is value" |} ]
  | None, None =>
      if decide (thisValue ≠ otherValue) then
        match thisValue, otherValue with
        | Undefined, _ =>
            [ {| type := input_mismatch; classType := None; inputName := Some name;
                 expected := otherValue; actual := Undefined;
                 details := "Input " +:+ dq +:+ name +:+ dq
                            +:+ ": missing in this workflow" |} ]
        | _, Undefined =>
            [ {| type := input_mismatch; classType := None; inputName := Some name;
                 expected := Undefined; actual := thisValue;
                 details := "Input " +:+ dq +:+ name +:+ dq
                            +:+ ": extra in this workflow" |} ]
        | _, _ =>
            [ {| type := input_mismatch; classType := None; inputName := Some name;
                 expected := otherValue; actual := thisValue;
                 details := "Input " +:+ dq +:+ name +:+ dq +:+ ": expected "
                            +:+ JSON_stringify_read otherValue +:+ ", got "
                            +:+ JSON_stringify_read thisValue |} ]
        end
      else []
  end.

(** [compareNodeInputs] *)
Definition compareNodeInputs (this : ComfyWorkflowJson) (thisNode : ComfyNode)
    (other : ComfyWorkflowJson) (otherNode : ComfyNode) : list StructuralDiff :=
  let allInputNames :=
    Set_of (obj_keys (inputs thisNode) ++ obj_keys (inputs otherNode)) in
  name ← allInputNames; compareInput this thisNode other otherNode name.

(** When one input name raises no record: the two reads are both
    connections with equal normalized strings, or neither is a connection
    and they are strictly equal. *)
Definition valuesAgree (this : ComfyWorkflowJson) (thisValue : Read InputValue)
    (other : ComfyWorkflowJson) (otherValue : Read InputValue) : Prop :=
  match asConnection thisValue, asConnection otherValue with
  | Some thisConn, Some otherConn =>
      normalizeConnection this thisConn = normalizeConnection other otherConn
  | None, None => thisValue = otherValue
  | _, _ => False
  end.

(** [findBestNodeMatching] *)
Definition findBestNodeMatching (this : ComfyWorkflowJson)
    (thisNodes : list (string * ComfyNode))
    (other : ComfyWorkflowJson) (otherNodes : list (string * ComfyNode))
    : list StructuralDiff :=
  let thisHashes := (λ n, hashNodeInputs this n.2) <$> thisNodes in
  let otherHashes := (λ n, hashNodeInputs other n.2) <$> otherNodes in
  let '(unmatchedThis, unmatchedOther) := matchLoop thisHashes otherHashes in
  match unmatchedThis, unmatchedOther with
  | thisIdx :: _, otherIdx :: _ =>
      match thisNodes !! thisIdx, otherNodes !! otherIdx with
      | Some a, Some b => compareNodeInputs this a.2 other b.2
      | _, _ => []
      end
  | _, _ => []
  end.

(** [{ ...d, classType }] *)
Definition withClassType (ct : string) (d : StructuralDiff) : StructuralDiff :=
  {| type := type d; classType := Some ct; inputName := inputName d;
     expected := expected d; actual := actual d; details := details d |}.

(** [grouped[classType] || []], for a class type that is a key of one of
    the two groupings: no member of [Object.prototype] has such a name, and
    the read finds an own entry or [undefined]. *)
Definition nodesOf (grouped : list (string * list (string * ComfyNode))) (ct : string)
    : list (string * ComfyNode) :=
  match get grouped ct with
  | Own l => l
  | _ => []
  end.

(** The body of the loop of [getStructuralDiff], past the two reads. *)
Definition classDiffs (this : ComfyWorkflowJson) (thisNodes : list (string * ComfyNode))
    (other : ComfyWorkflowJson) (otherNodes : list (string * ComfyNode)) (ct : string)
    : list StructuralDiff :=
  if decide (length thisNodes ≠ length otherNodes) then
    [ {| type := class_type_count_mismatch; classType := Some ct; inputName := None;
         expected := Own (VNumber (Z.of_nat (length otherNodes)));
         actual := Own (VNumber (Z.of_nat (length thisNodes)));
         details := ct +:+ ": expected " +:+ num_to_string (Z.of_nat (length otherNodes))
                    +:+ " nodes, got " +:+ num_to_string (Z.of_nat (length thisNodes)) |} ]
  else if decide (length thisNodes = 1) then
    match thisNodes !! 0, otherNodes !! 0 with
    | Some a, Some b => withClassType ct <$> compareNodeInputs this a.2 other b.2
    | _, _ => []
    end
  else if decide (1 < length thisNodes) then
    withClassType ct <$> findBestNodeMatching this thisNodes other otherNodes
  else [].

(** [getStructuralDiff]: [this] is the subject, [other] the reference. *)
Definition getStructuralDiff (this other : ComfyWorkflowJson) : Outcome (list StructuralDiff) :=
  thisGrouped ← groupNodesByType this;
  otherGrouped ← groupNodesByType other;
  let allClassTypes := Set_of (obj_keys thisGrouped ++ obj_keys otherGrouped) in
  Returns (classType ← allClassTypes;
           classDiffs this (nodesOf thisGrouped classType)
                      other (nodesOf otherGrouped classType) classType).

(** [isStructurallyEquivalentTo] *)
Definition isStructurallyEquivalentTo (this other : ComfyWorkflowJson) : Outcome bool :=
  diffs ← getStructuralDiff this other;
  Returns (bool_decide (length diffs = 0)).

End Js.

(** No class type names a member of [Object.prototype]. *)
Definition plainClassTypes (nodes : ComfyWorkflowJson) : Prop :=
  Forall (λ e, class_type e.2 ∉ objectPrototypeNames) nodes.

(** The ids the connections of a workflow name as their sources. *)
Definition sourceIds (nodes : ComfyWorkflowJson) : list string :=
  sourceNodeId <$> getEdges nodes.

(** No class type, no input name and no source id that is not a node names
    a member of [Object.prototype].  On such workflows a read finds what the
    own entries hold. *)
Definition plainNames (nodes : ComfyWorkflowJson) : Prop :=
  plainClassTypes nodes
  ∧ Forall (λ e, Forall (λ name, name ∉ objectPrototypeNames) (obj_keys (inputs e.2))) nodes
  ∧ Forall (λ s, s ∈ obj_keys nodes ∨ s ∉ objectPrototypeNames) (sourceIds nodes).

(** A record of the diff over own entries, as a record of [Js]. *)
Definition toJsDiff (d : StructuralDiff) : Js.StructuralDiff :=
  {| Js.type := type d; Js.classType := classType d; Js.inputName := inputName d;
     Js.expected := Js.ofOption (expected d); Js.actual := Js.ofOption (actual d);
     Js.details := details d |}.

(** The own entry under an input name of the node stored under an id. *)
Definition ownInput (nodeId name : string) (nodes : ComfyWorkflowJson) : option InputValue :=
  node ← obj_get nodes nodeId; obj_get (inputs node) name.

(** The renaming that exchanges two ids. *)
Definition swapIds (a b : string) (s : string) : string :=
  if decide (s = a) then b else if decide (s = b) then a else s.

(** * Properties *)

(** ** Cases of the test suite, evaluated *)

Example test_same_structure_other_ids :
  isStructurallyEquivalentTo
    [("1", mkNode "VAELoader" [("vae_name", VString "model.safetensors")])]
    [("99", mkNode "VAELoader" [("vae_name", VString "model.safetensors")])] = true.
Proof. reflexivity. Qed.

Example test_input_value_differs :
  getStructuralDiff [("1", mkNode "KSampler" [("steps", VNumber 20)])]
                    [("1", mkNode "KSampler" [("steps", VNumber 30)])]
  = [ {| type := input_mismatch; classType := Some "KSampler"; inputName := Some "steps";
         expected := Some (VNumber 30); actual := Some (VNumber 20);
         details := "Input " +:+ dq +:+ "steps" +:+ dq +:+ ": expected 30, got 20" |} ].
Proof. reflexivity. Qed.

Example test_connection_differs :
  type <$> getStructuralDiff wfA wfB = [connection_mismatch].
Proof. reflexivity. Qed.

Example test_missing_input :
  details <$> getStructuralDiff [("1", mkNode "KSampler" [])]
                                [("1", mkNode "KSampler" [("steps", VNumber 20)])]
  = ["Input " +:+ dq +:+ "steps" +:+ dq +:+ ": missing in this workflow"].
Proof. reflexivity. Qed.

Example test_extra_input :
  details <$> getStructuralDiff
                [("1", mkNode "KSampler" [("steps", VNumber 20); ("extra", VString "value")])]
                [("1", mkNode "KSampler" [("steps", VNumber 20)])]
  = ["Input " +:+ dq +:+ "extra" +:+ dq +:+ ": extra in this workflow"].
Proof. reflexivity. Qed.

Example test_same_class_nodes_any_order :
  isStructurallyEquivalentTo wfImgs1 wfImgs2 = true.
Proof. reflexivity. Qed.

Example test_isolated_node :
  Validators.nodeId <$> Validators.warnings (Validators.validateConnections
    [ ("1", mkNode "IsolatedNode" []);
      ("2", mkNode "ConnectedNode" [("input", VConnection "3" 0)]);
      ("3", mkNode "SourceNode" []) ])
  = [Some "1"].
Proof. reflexivity. Qed.

Example test_remove_node_removes_edges :
  getEdges wfA = [ {| sourceNodeId := "1"; sourcePort := 0;
                      targetNodeId := "3"; targetInputName := "vae" |} ]
  ∧ getEdges (removeNode "1" wfA) = [].
Proof. split; reflexivity. Qed.

Example test_hash :
  hashNodeInputs wfA (mkNode "X" [("b", VString "q"); ("a", VConnection "1" 3);
                                  ("c", VConnection "9" 3)])
  = "a:VAELoader:3|b:" +:+ dq +:+ "q" +:+ dq +:+ "|c:UNKNOWN:3".
Proof. reflexivity. Qed.


(** * Objects and sets *)

Section objects.
Context {V : Type}.
Implicit Types (o : list (string * V)) (k : string) (v : V).

Lemma obj_get_Some_elem o k v : obj_get o k = Some v → (k, v) ∈ o.
Proof.
  induction o as [|[k' v'] o IH]; simpl; [done|].
  case_decide; intros ?; simplify_eq/=; [left | right; auto].
Qed.

Lemma obj_get_None o k : obj_get o k = None ↔ k ∉ obj_keys o.
Proof.
  unfold obj_keys. induction o as [|[k' v'] o IH]; simpl.
  - split; [intros _; apply not_elem_of_nil | done].
  - rewrite not_elem_of_cons. case_decide; simplify_eq/=; naive_solver.
Qed.

Lemma obj_get_is_Some o k : is_Some (obj_get o k) ↔ k ∈ obj_keys o.
Proof.
  rewrite <-not_eq_None_Some, obj_get_None.
  destruct (decide (k ∈ obj_keys o)); naive_solver.
Qed.

Lemma obj_get_NoDup o k v : NoDup (obj_keys o) → (k, v) ∈ o → obj_get o k = Some v.
Proof.
  unfold obj_keys. induction o as [|[k' v'] o IH]; simpl.
  - intros _ ?%elem_of_nil. done.
  - intros [Hk Hnd]%NoDup_cons [?|Hin]%elem_of_cons; simplify_eq/=.
    + by rewrite decide_True.
    + rewrite decide_False; [by apply IH|].
      intros ->. apply Hk, list_elem_of_fmap. by exists (k, v).
Qed.

Lemma obj_get_set o k k' v :
  obj_get (obj_set k v o) k' = if decide (k = k') then Some v else obj_get o k'.
Proof.
  induction o as [|[k0 v0] o IH]; simpl.
  - repeat case_decide; simplify_eq/=; done.
  - repeat (case_decide; simplify_eq/=); try done;
      rewrite IH; by rewrite ?decide_True, ?decide_False.
Qed.

Lemma obj_keys_set o k v :
  obj_keys (obj_set k v o) = if decide (k ∈ obj_keys o) then obj_keys o else obj_keys o ++ [k].
Proof.
  unfold obj_keys. induction o as [|[k0 v0] o IH]; csimpl; [done|].
  destruct (decide (k0 = k)) as [->|Hne]; csimpl.
  - rewrite decide_True; [done | left].
  - rewrite IH. destruct (decide (k ∈ o.*1)).
    + rewrite decide_True; [done | by right].
    + rewrite decide_False; [done|]. rewrite not_elem_of_cons. done.
Qed.

Lemma obj_get_delete o k k' :
  obj_get (obj_delete k o) k' = if decide (k = k') then None else obj_get o k'.
Proof.
  unfold obj_delete. induction o as [|[k0 v0] o IH]; simpl.
  - by case_decide.
  - rewrite filter_cons. simpl.
    repeat (case_decide; simplify_eq/=); try done;
      rewrite IH; by rewrite ?decide_True, ?decide_False.
Qed.

Lemma obj_keys_delete o k : obj_keys (obj_delete k o) = filter (λ x, x ≠ k) (obj_keys o).
Proof.
  unfold obj_keys, obj_delete. induction o as [|[k0 v0] o IH]; csimpl; [done|].
  rewrite !filter_cons. csimpl. case_decide; csimpl; by rewrite IH.
Qed.

Lemma obj_get_fmap {W} (f : V → W) o k :
  obj_get ((λ e, (e.1, f e.2)) <$> o) k = f <$> obj_get o k.
Proof.
  induction o as [|[k0 v0] o IH]; simpl; [done|]. by case_decide.
Qed.

Lemma obj_keys_fmap {W} (f : V → W) o :
  obj_keys ((λ e, (e.1, f e.2)) <$> o) = obj_keys o.
Proof. unfold obj_keys. rewrite <-list_fmap_compose. done. Qed.
End objects.

Section sets.
Context {A : Type} `{EqDecision A}.
Implicit Types (l s : list A) (x : A).

Lemma Set_add_elem x y s : y ∈ Set_add x s ↔ y = x ∨ y ∈ s.
Proof.
  unfold Set_add. case_decide.
  - naive_solver.
  - rewrite elem_of_app, list_elem_of_singleton. naive_solver.
Qed.

Lemma Set_add_NoDup x s : NoDup s → NoDup (Set_add x s).
Proof.
  unfold Set_add. case_decide; [done|]. intros ?.
  apply NoDup_app. split_and!; [done | | apply NoDup_singleton].
  intros y ? ->%list_elem_of_singleton. done.
Qed.

Lemma Set_fold_elem l s y :
  y ∈ foldl (λ s x, Set_add x s) s l ↔ y ∈ s ∨ y ∈ l.
Proof.
  revert s. induction l as [|x l IH]; intros s; simpl.
  - rewrite elem_of_nil. naive_solver.
  - rewrite IH, Set_add_elem, elem_of_cons. naive_solver.
Qed.

Lemma Set_fold_NoDup l s : NoDup s → NoDup (foldl (λ s x, Set_add x s) s l).
Proof.
  revert s. induction l as [|x l IH]; intros s ?; simpl; [done|].
  by apply IH, Set_add_NoDup.
Qed.

Lemma Set_of_elem l y : y ∈ Set_of l ↔ y ∈ l.
Proof. unfold Set_of. rewrite Set_fold_elem, elem_of_nil. naive_solver. Qed.

Lemma Set_of_NoDup l : NoDup (Set_of l).
Proof. apply Set_fold_NoDup, NoDup_nil_2. Qed.

Lemma Set_fold_fresh l s :
  NoDup (s ++ l) → foldl (λ s x, Set_add x s) s l = s ++ l.
Proof.
  revert s. induction l as [|x l IH]; intros s Hnd; simpl.
  - by rewrite app_nil_r.
  - unfold Set_add at 2. rewrite decide_False.
    + rewrite IH; rewrite <-app_assoc; done.
    + apply NoDup_app in Hnd as (_ & Hd & _). intros ?. eapply Hd; [done | left].
Qed.

Lemma Set_of_id l : NoDup l → Set_of l = l.
Proof. intros ?. unfold Set_of. by rewrite Set_fold_fresh. Qed.

Lemma Set_delete_head x s : x ∉ s → Set_delete x (x :: s) = s.
Proof.
  intros Hx. unfold Set_delete. rewrite filter_cons, decide_False by naive_solver.
  induction s as [|y s IH]; [done|].
  apply not_elem_of_cons in Hx as [??].
  rewrite filter_cons, decide_True by done. f_equal. by apply IH.
Qed.

Lemma Set_delete_tail x y s : y ≠ x → Set_delete x (y :: s) = y :: Set_delete x s.
Proof. intros ?. unfold Set_delete. by rewrite filter_cons, decide_True. Qed.
End sets.

(** * Grouping by class type *)

Lemma findNodesByType_snoc ct nodes e :
  findNodesByType ct (nodes ++ [e])
  = findNodesByType ct nodes ++ (if decide (class_type e.2 = ct) then [e] else []).
Proof.
  unfold findNodesByType. rewrite filter_app, filter_cons, filter_nil.
  by case_decide.
Qed.

Lemma groupNodesByType_get nodes ct :
  obj_get (groupNodesByType nodes) ct
  = match findNodesByType ct nodes with [] => None | l => Some l end.
Proof.
  unfold groupNodesByType. induction nodes as [|e nodes IH] using rev_ind; [done|].
  rewrite foldl_app, findNodesByType_snoc. simpl.
  set (g := foldl _ [] nodes) in *.
  rewrite obj_get_set.
  destruct (decide (class_type e.2 = ct)) as [<-|Hne].
  - destruct (obj_get g (class_type e.2)) eqn:Hg.
    + rewrite Hg. simpl.
      destruct (findNodesByType _ nodes); simplify_eq/=; done.
    + rewrite obj_get_set, decide_True by done. simpl.
      destruct (findNodesByType _ nodes); simplify_eq/=; done.
  - rewrite app_nil_r, <-IH.
    destruct (obj_get g (class_type e.2)); [done|].
    by rewrite obj_get_set, decide_False.
Qed.

Lemma groupNodesByType_default nodes ct :
  default [] (obj_get (groupNodesByType nodes) ct) = findNodesByType ct nodes.
Proof. rewrite groupNodesByType_get. by destruct (findNodesByType ct nodes). Qed.

Lemma groupNodesByType_keys nodes ct :
  ct ∈ obj_keys (groupNodesByType nodes) ↔ findNodesByType ct nodes ≠ [].
Proof.
  rewrite <-obj_get_is_Some, groupNodesByType_get.
  destruct (findNodesByType ct nodes); split; try done.
Qed.

(** * The shape of [getStructuralDiff] *)

(** [classDiffs] read on the lists [findNodesByType] returns. *)
Lemma classDiffs_eq this other ct :
  classDiffs this other ct =
  let thisNodes := findNodesByType ct this in
  let otherNodes := findNodesByType ct other in
  if decide (length thisNodes ≠ length otherNodes) then
    [ {| type := class_type_count_mismatch; classType := Some ct; inputName := None;
         expected := Some (VNumber (Z.of_nat (length otherNodes)));
         actual := Some (VNumber (Z.of_nat (length thisNodes)));
         details := ct +:+ ": expected " +:+ num_to_string (Z.of_nat (length otherNodes))
                    +:+ " nodes, got " +:+ num_to_string (Z.of_nat (length thisNodes)) |} ]
  else if decide (length thisNodes = 1) then
    match thisNodes !! 0, otherNodes !! 0 with
    | Some a, Some b => withClassType ct <$> compareNodeInputs this a.2 other b.2
    | _, _ => []
    end
  else if decide (1 < length thisNodes) then
    withClassType ct <$> findBestNodeMatching this thisNodes other otherNodes
  else [].
Proof. unfold classDiffs. by rewrite !groupNodesByType_default. Qed.

Lemma classDiffs_classType this other ct d :
  d ∈ classDiffs this other ct → classType d = Some ct.
Proof.
  unfold classDiffs. repeat case_decide.
  - by intros ->%list_elem_of_singleton.
  - repeat case_match; try by intros ?%elem_of_nil.
    by intros (? & -> & _)%list_elem_of_fmap.
  - by intros (? & -> & _)%list_elem_of_fmap.
  - by intros ?%elem_of_nil.
Qed.

Lemma classDiffs_absent this other ct :
  findNodesByType ct this = [] → findNodesByType ct other = [] →
  classDiffs this other ct = [].
Proof.
  intros H1 H2. rewrite classDiffs_eq, H1, H2. simpl.
  repeat case_decide; done || lia.
Qed.

Lemma filter_all {A} (P : A → Prop) `{∀ x, Decision (P x)} (l : list A) :
  (∀ x, x ∈ l → P x) → filter P l = l.
Proof.
  induction l as [|x l IH]; intros HP; [done|].
  rewrite filter_cons_True by (apply HP; left). f_equal. apply IH.
  intros ??. apply HP. by right.
Qed.

Lemma filter_none {A} (P : A → Prop) `{∀ x, Decision (P x)} (l : list A) :
  (∀ x, x ∈ l → ¬ P x) → filter P l = [].
Proof.
  induction l as [|x l IH]; intros HP; [done|].
  rewrite filter_cons_False by (apply HP; left). apply IH.
  intros ??. apply HP. by right.
Qed.

Lemma bind_filter_key {A B} `{EqDecision A} (key : B → option A) (f : A → list B)
    (L : list A) (c : A) :
  NoDup L → (∀ a d, d ∈ f a → key d = Some a) →
  filter (λ d, key d = Some c) (L ≫= f) = if decide (c ∈ L) then f c else [].
Proof.
  intros Hnd Hkey. induction Hnd as [|a L Ha Hnd IH]; csimpl.
  - done.
  - rewrite filter_app, IH. destruct (decide (a = c)) as [->|Hne].
    + rewrite (decide_False (P := c ∈ L)) by done. rewrite decide_True by left.
      rewrite app_nil_r. apply filter_all. intros d Hd. by apply Hkey.
    + rewrite filter_none.
      * simpl. destruct (decide (c ∈ L)).
        -- rewrite decide_True; [done | by right].
        -- rewrite decide_False; [done|]. rewrite not_elem_of_cons. done.
      * intros d Hd Hc. apply Hkey in Hd. congruence.
Qed.

Lemma bind_nil {A B} (f : A → list B) (L : list A) :
  L ≫= f = [] ↔ ∀ a, a ∈ L → f a = [].
Proof.
  induction L as [|a L IH]; csimpl.
  - split; [intros _ ? ?%elem_of_nil; done | done].
  - split.
    + intros [? ?]%app_eq_nil b [->|?]%elem_of_cons; [done|]. by apply IH.
    + intros Hf. rewrite (Hf a) by left. simpl. apply IH. intros ??. apply Hf. by right.
Qed.

Lemma allClassTypes_elem this other ct :
  ct ∈ allClassTypes this other
  ↔ findNodesByType ct this ≠ [] ∨ findNodesByType ct other ≠ [].
Proof.
  unfold allClassTypes.
  by rewrite Set_of_elem, elem_of_app, !groupNodesByType_keys.
Qed.

(** The records [getStructuralDiff] tags with a class type are those the
    round of its loop for that class type pushed. *)
Lemma getStructuralDiff_class this other ct :
  filter (λ d, classType d = Some ct) (getStructuralDiff this other)
  = classDiffs this other ct.
Proof.
  unfold getStructuralDiff.
  rewrite (bind_filter_key classType).
  - case_decide as Hin; [done|]. symmetry.
    rewrite allClassTypes_elem in Hin.
    apply classDiffs_absent.
    + destruct (findNodesByType ct this); [done | naive_solver].
    + destruct (findNodesByType ct other); [done | naive_solver].
  - apply Set_of_NoDup.
  - intros a d. apply classDiffs_classType.
Qed.

Lemma getStructuralDiff_nil this other :
  getStructuralDiff this other = [] ↔ ∀ ct, classDiffs this other ct = [].
Proof.
  split.
  - intros Hnil ct. by rewrite <-getStructuralDiff_class, Hnil.
  - intros Hall. unfold getStructuralDiff. apply bind_nil. intros ct _. apply Hall.
Qed.

(** * The greedy pairing *)

Section pairing.
Context {A B : Type} (hashA : A → string) (hashB : B → string).

Lemma takeFirst_None (P : B → Prop) `{∀ b, Decision (P b)} bs :
  takeFirst P bs = None ↔ ∀ b, b ∈ bs → ¬ P b.
Proof.
  induction bs as [|b bs IH]; simpl.
  - split; [intros _ ? ?%elem_of_nil; done | done].
  - case_decide as HP.
    + split; [done|]. intros Hall. destruct (Hall b); [left | done].
    + destruct (takeFirst P bs) as [[x rest]|].
      * split; [done|]. intros Hall. destruct IH as [_ IH].
        discriminate IH. intros ??. apply Hall. by right.
      * split; [|done]. intros _ b' [->|?]%elem_of_cons; [done|]. by apply IH.
Qed.

Lemma takeFirst_Some (P : B → Prop) `{∀ b, Decision (P b)} bs b bs' :
  takeFirst P bs = Some (b, bs') →
  P b ∧ ∃ l1 l2, bs = l1 ++ b :: l2 ∧ bs' = l1 ++ l2 ∧ ∀ x, x ∈ l1 → ¬ P x.
Proof.
  revert bs'. induction bs as [|b0 bs IH]; intros bs'; simpl; [done|].
  case_decide as HP.
  - intros ?; simplify_eq. split; [done|]. exists [], bs'.
    split_and!; [done..|]. by intros ? ?%elem_of_nil.
  - destruct (takeFirst P bs) as [[x rest]|]; [|done].
    intros ?; simplify_eq. destruct (IH rest eq_refl) as (? & l1 & l2 & -> & -> & Hl1).
    split; [done|]. exists (b0 :: l1), l2. split_and!; [done..|].
    intros y [->|?]%elem_of_cons; auto.
Qed.

Lemma takeFirst_Permutation (P : B → Prop) `{∀ b, Decision (P b)} bs b bs' :
  takeFirst P bs = Some (b, bs') → bs ≡ₚ b :: bs'.
Proof.
  intros (_ & l1 & l2 & -> & -> & _)%takeFirst_Some.
  by rewrite Permutation_middle.
Qed.

(** Every node is either paired or left unmatched, on both sides, and the
    members of a pair have equal hashes. *)
Lemma greedyPairing_partition nodesA nodesB :
  let r := greedyPairing hashA hashB nodesA nodesB in
  nodesA ≡ₚ (paired r).*1 ++ unmatchedA r
  ∧ nodesB ≡ₚ (paired r).*2 ++ unmatchedB r
  ∧ Forall (λ p, hashA p.1 = hashB p.2) (paired r).
Proof.
  revert nodesB. induction nodesA as [|a nodesA IH]; intros nodesB; simpl; [done|].
  destruct (takeFirst _ nodesB) as [[b nodesB']|] eqn:Htake; simpl.
  - destruct (IH nodesB') as (HA & HB & HP).
    apply takeFirst_Some in Htake as Hb. destruct Hb as [Hb _].
    apply takeFirst_Permutation in Htake.
    split_and!; [by rewrite <-HA | by rewrite Htake, <-HB | by constructor].
  - destruct (IH nodesB) as (HA & HB & HP).
    split_and!; [|done..]. by rewrite <-Permutation_middle, <-HA.
Qed.

(** No node left unmatched in A has the hash of a node left unmatched in B. *)
Lemma greedyPairing_unmatched_distinct nodesA nodesB a b :
  let r := greedyPairing hashA hashB nodesA nodesB in
  a ∈ unmatchedA r → b ∈ unmatchedB r → hashA a ≠ hashB b.
Proof.
  revert nodesB. induction nodesA as [|a0 nodesA IH]; intros nodesB; simpl.
  - by intros ?%elem_of_nil.
  - destruct (takeFirst _ nodesB) as [[b0 nodesB']|] eqn:Htake; simpl.
    + apply IH.
    + intros [?|Ha]%elem_of_cons Hb; [subst a0|by eapply IH].
      eapply (takeFirst_None (λ b, hashA a = hashB b)); [done|].
      destruct (greedyPairing_partition nodesA nodesB) as (_ & HB & _).
      rewrite HB. apply elem_of_app. by right.
Qed.

Lemma greedyPairing_unmatched_length nodesA nodesB :
  let r := greedyPairing hashA hashB nodesA nodesB in
  length nodesA = length nodesB → length (unmatchedA r) = length (unmatchedB r).
Proof.
  intros r Hlen.
  destruct (greedyPairing_partition nodesA nodesB) as (HA & HB & _).
  apply Permutation_length in HA, HB. fold r in HA, HB.
  rewrite length_app, length_fmap in HA. rewrite length_app, length_fmap in HB. lia.
Qed.

(** When the two lists carry the same hashes with the same multiplicities,
    the pairing leaves nothing unmatched, and conversely. *)
Lemma greedyPairing_complete nodesA nodesB :
  let r := greedyPairing hashA hashB nodesA nodesB in
  hashA <$> nodesA ≡ₚ hashB <$> nodesB → unmatchedA r = [] ∧ unmatchedB r = [].
Proof.
  revert nodesB. induction nodesA as [|a nodesA IH]; intros nodesB; simpl.
  - intros Hp%Permutation_nil_l. symmetry in Hp. by apply fmap_nil_inv in Hp as ->.
  - intros Hp.
    destruct (takeFirst _ nodesB) as [[b nodesB']|] eqn:Htake; simpl.
    + apply IH.
      apply takeFirst_Some in Htake as Hb. destruct Hb as [Hb _].
      apply takeFirst_Permutation in Htake. rewrite Htake in Hp.
      rewrite fmap_cons, Hb in Hp. by apply Permutation_cons_inv in Hp.
    + exfalso. assert (hashA a ∈ hashB <$> nodesB) as Hin.
      { rewrite <-Hp. left. }
      apply list_elem_of_fmap in Hin as (b & Hab & Hb).
      by eapply (takeFirst_None (λ b, hashA a = hashB b)).
Qed.

Lemma greedyPairing_sound nodesA nodesB :
  let r := greedyPairing hashA hashB nodesA nodesB in
  unmatchedA r = [] → unmatchedB r = [] → hashA <$> nodesA ≡ₚ hashB <$> nodesB.
Proof.
  intros r HA0 HB0.
  destruct (greedyPairing_partition nodesA nodesB) as (HA & HB & HP).
  fold r in HA, HB, HP. rewrite HA0, app_nil_r in HA. rewrite HB0, app_nil_r in HB.
  rewrite HA, HB, <-!list_fmap_compose. clear HA HB.
  induction HP as [|p ps Hp _ IH]; csimpl; [done|]. simpl in Hp. by rewrite Hp, IH.
Qed.
End pairing.

(** * The matching loop computes the greedy pairing *)

Section matching.
Context {X Y : Type} (hashX : X → string) (hashY : Y → string).
Context (xs : list X) (ys : list Y).

(** The index collection [uo] stands for the members [bs] of [ys]. *)
Local Abbreviation stands_for l := (Forall2 (λ i x, l !! i = Some x)).

Lemma stands_for_seq {Z} (pre l : list Z) :
  stands_for (pre ++ l) (seq (length pre) (length l)) l.
Proof.
  revert pre. induction l as [|z l IH]; intros pre; simpl; [constructor|].
  constructor.
  - by rewrite list_lookup_middle.
  - specialize (IH (pre ++ [z])). rewrite length_app, <-app_assoc in IH. simpl in IH.
    by rewrite Nat.add_1_r in IH.
Qed.

Lemma matchStep_find (h : string) (uo : list nat) (bs : list Y) :
  stands_for ys uo bs → NoDup uo →
  match list_find (λ j, Some h = (hashY <$> ys) !! j) uo with
  | Some (_, j) =>
      ∃ y bs', takeFirst (λ b, h = hashY b) bs = Some (y, bs')
               ∧ stands_for ys (Set_delete j uo) bs'
  | None => takeFirst (λ b, h = hashY b) bs = None
  end.
Proof.
  induction 1 as [|j0 y0 uo bs Hj0 Hrel IH]; intros Hnd; simpl; [done|].
  apply NoDup_cons in Hnd as [Hj0' Hnd]. specialize (IH Hnd).
  rewrite list_lookup_fmap, Hj0. simpl.
  destruct (decide (h = hashY y0)) as [->|Hne].
  - rewrite decide_True by done. exists y0, bs. split; [done|].
    by rewrite Set_delete_head.
  - rewrite decide_False by congruence.
    destruct (list_find _ uo) as [[i j]|] eqn:Hfind; simpl.
    + destruct IH as (y & bs' & -> & Hrel'). exists y, (y0 :: bs'). split; [done|].
      apply list_find_Some in Hfind as (Hj & Hh & _).
      rewrite Set_delete_tail.
      * by constructor.
      * intros ->. apply list_elem_of_lookup_2 in Hj. done.
    + by rewrite IH.
Qed.

Lemma matchLoop_from (rest : list X) : ∀ (pre : list X) (ut uo : list nat) (bs : list Y),
  xs = pre ++ rest → stands_for ys uo bs → NoDup uo →
  ∃ iu ju,
    foldl (matchStep (hashX <$> xs) (hashY <$> ys)) (ut, uo)
          (seq (length pre) (length rest)) = (ut ++ iu, ju)
    ∧ stands_for xs iu (unmatchedA (greedyPairing hashX hashY rest bs))
    ∧ stands_for ys ju (unmatchedB (greedyPairing hashX hashY rest bs)).
Proof.
  induction rest as [|x rest IH]; intros pre ut uo bs Hxs Hrel Hnd; simpl.
  - exists [], uo. rewrite app_nil_r. split_and!; [done | constructor | done].
  - assert ((hashX <$> xs) !! length pre = Some (hashX x)) as Hx.
    { by rewrite list_lookup_fmap, Hxs, list_lookup_middle. }
    unfold matchStep at 2. simpl. rewrite Hx.
    pose proof (matchStep_find (hashX x) uo bs Hrel Hnd) as Hstep.
    destruct (list_find _ uo) as [[i j]|]; simpl.
    + destruct Hstep as (y & bs' & -> & Hrel').
      destruct (IH (pre ++ [x]) ut (Set_delete j uo) bs') as (iu & ju & Hfold & HA & HB).
      { by rewrite <-app_assoc. }
      { done. }
      { by apply NoDup_filter. }
      rewrite length_app, Nat.add_1_r in Hfold. simpl in Hfold.
      exists iu, ju. done.
    + rewrite Hstep.
      destruct (IH (pre ++ [x]) (ut ++ [length pre]) uo bs) as (iu & ju & Hfold & HA & HB).
      { by rewrite <-app_assoc. }
      { done. }
      { done. }
      rewrite length_app, Nat.add_1_r in Hfold. simpl in Hfold.
      exists (length pre :: iu), ju. rewrite Hfold, <-app_assoc. simpl.
      split_and!; [done | | done]. constructor; [|done].
      by rewrite Hxs, list_lookup_middle.
Qed.

Lemma matchLoop_greedy :
  ∃ iu ju,
    matchLoop (hashX <$> xs) (hashY <$> ys) = (iu, ju)
    ∧ stands_for xs iu (unmatchedA (greedyPairing hashX hashY xs ys))
    ∧ stands_for ys ju (unmatchedB (greedyPairing hashX hashY xs ys)).
Proof.
  unfold matchLoop. rewrite !length_fmap, Set_of_id by apply NoDup_seq.
  destruct (matchLoop_from xs [] [] (seq 0 (length ys)) ys) as (iu & ju & Hfold & HA & HB).
  - done.
  - apply (stands_for_seq []).
  - apply NoDup_seq.
  - exists iu, ju. done.
Qed.
End matching.

(** [findBestNodeMatching] reports what the greedy pairing of the
    specification reports. *)
Lemma findBestNodeMatching_greedy this thisNodes other otherNodes :
  findBestNodeMatching this thisNodes other otherNodes
  = greedyDiffs this thisNodes other otherNodes.
Proof.
  unfold findBestNodeMatching, greedyDiffs.
  destruct (matchLoop_greedy (λ n, hashNodeInputs this n.2) (λ n, hashNodeInputs other n.2)
              thisNodes otherNodes) as (iu & ju & -> & HA & HB).
  destruct HA as [|i a iu ua Hi HA]; [done|].
  destruct HB as [|j b ju ub Hj HB]; [done|].
  by rewrite Hi, Hj.
Qed.

(** * Node-input-diff *)

Lemma compareInput_nil this thisNode other otherNode name :
  compareInput this thisNode other otherNode name = []
  ↔ valuesAgree this (obj_get (inputs thisNode) name) other (obj_get (inputs otherNode) name).
Proof.
  unfold compareInput, valuesAgree.
  destruct (asConnection (obj_get (inputs thisNode) name)),
           (asConnection (obj_get (inputs otherNode) name)); try done.
  - case_decide as Hn; done.
  - case_decide as Hn; [|done].
    split; [|done]. repeat case_match; done.
Qed.

Lemma compareNodeInputs_nil this thisNode other otherNode :
  compareNodeInputs this thisNode other otherNode = []
  ↔ ∀ name, valuesAgree this (obj_get (inputs thisNode) name)
                        other (obj_get (inputs otherNode) name).
Proof.
  unfold compareNodeInputs. rewrite bind_nil. split.
  - intros Hall name.
    destruct (decide (name ∈ obj_keys (inputs thisNode) ++ obj_keys (inputs otherNode)))
      as [Hin|Hout].
    + apply compareInput_nil, Hall. by apply Set_of_elem.
    + apply not_elem_of_app in Hout as [H1 H2].
      apply obj_get_None in H1, H2. unfold valuesAgree. by rewrite H1, H2.
  - intros Hall name _. by apply compareInput_nil.
Qed.

Lemma valuesAgree_sym this v other w :
  valuesAgree this v other w → valuesAgree other w this v.
Proof.
  unfold valuesAgree. destruct (asConnection v), (asConnection w); done.
Qed.

Lemma compareNodeInputs_nil_sym this thisNode other otherNode :
  compareNodeInputs this thisNode other otherNode = []
  → compareNodeInputs other otherNode this thisNode = [].
Proof.
  rewrite !compareNodeInputs_nil. intros Hall name. apply valuesAgree_sym, Hall.
Qed.

Lemma valuesAgree_is_Some this v other w :
  valuesAgree this v other w → is_Some v ↔ is_Some w.
Proof.
  unfold valuesAgree. destruct v as [[]|], w as [[]|]; simpl; try done;
    intros _; split; intros _; by eexists.
Qed.

Lemma valuesAgree_normalizeValue this v other w :
  valuesAgree this (Some v) other (Some w) → normalizeValue this v = normalizeValue other w.
Proof.
  unfold valuesAgree, normalizeValue.
  destruct (asConnection (Some v)), (asConnection (Some w)); try done. congruence.
Qed.

(** Nodes whose inputs agree name by name have the same content hash. *)
Lemma hashNodeInputs_agree this thisNode other otherNode :
  wf_inputs (inputs thisNode) → wf_inputs (inputs otherNode) →
  (∀ name, valuesAgree this (obj_get (inputs thisNode) name)
                       other (obj_get (inputs otherNode) name)) →
  hashNodeInputs this thisNode = hashNodeInputs other otherNode.
Proof.
  intros Hwf1 Hwf2 Hagree. unfold hashNodeInputs. rewrite !obj_keys_fmap.
  assert (merge_sort String.le (obj_keys (inputs thisNode))
          = merge_sort String.le (obj_keys (inputs otherNode))) as ->.
  { apply (StronglySorted_unique String.le); [apply StronglySorted_merge_sort; apply _..|].
    rewrite !merge_sort_Permutation. apply NoDup_Permutation; [done..|].
    intros k. rewrite <-!obj_get_is_Some. by eapply valuesAgree_is_Some. }
  f_equal. apply list_fmap_ext. intros _ k _. f_equal.
  rewrite !obj_get_fmap. specialize (Hagree k).
  pose proof (valuesAgree_is_Some _ _ _ _ Hagree) as Hsome.
  destruct (obj_get (inputs thisNode) k) as [v|], (obj_get (inputs otherNode) k) as [w|];
    simpl; [|by destruct Hsome as [[? ?] _]|by destruct Hsome as [_ [? ?]]|done].
  by rewrite (valuesAgree_normalizeValue _ _ _ _ Hagree).
Qed.

(** * One class type: when the loop body pushes nothing *)

Lemma classDiffs_nil_intro this other ct :
  let thisNodes := findNodesByType ct this in
  let otherNodes := findNodesByType ct other in
  length thisNodes = length otherNodes →
  (∀ a b, thisNodes = [a] → otherNodes = [b] →
          compareNodeInputs this a.2 other b.2 = []) →
  (1 < length thisNodes →
   (λ n, hashNodeInputs this n.2) <$> thisNodes
   ≡ₚ (λ n, hashNodeInputs other n.2) <$> otherNodes) →
  classDiffs this other ct = [].
Proof.
  intros thisNodes otherNodes Hlen Hone Hmany. rewrite classDiffs_eq.
  fold thisNodes otherNodes. cbv zeta.
  rewrite decide_False by lia. case_decide as H1; [|case_decide as H2; [|done]].
  - destruct thisNodes as [|a [|??]], otherNodes as [|b [|??]]; simplify_eq/=.
    by rewrite (Hone a b).
  - rewrite findBestNodeMatching_greedy. unfold greedyDiffs.
    destruct (greedyPairing_complete (λ n, hashNodeInputs this n.2)
                (λ n, hashNodeInputs other n.2) thisNodes otherNodes (Hmany H2))
      as [-> _].
    done.
Qed.

Lemma findNodesByType_wf ct nodes e :
  wf_workflow nodes → e ∈ findNodesByType ct nodes → wf_inputs (inputs e.2).
Proof.
  intros [_ Hwf] [_ Hin]%list_elem_of_filter.
  rewrite Forall_forall in Hwf. by apply Hwf.
Qed.

Lemma classDiffs_nil_elim this other ct :
  wf_workflow this → wf_workflow other →
  let thisNodes := findNodesByType ct this in
  let otherNodes := findNodesByType ct other in
  classDiffs this other ct = [] →
  length thisNodes = length otherNodes
  ∧ (∀ a b, thisNodes = [a] → otherNodes = [b] →
            compareNodeInputs this a.2 other b.2 = [])
  ∧ (1 < length thisNodes →
     (λ n, hashNodeInputs this n.2) <$> thisNodes
     ≡ₚ (λ n, hashNodeInputs other n.2) <$> otherNodes).
Proof.
  intros Hwf1 Hwf2 thisNodes otherNodes. rewrite classDiffs_eq.
  fold thisNodes otherNodes. cbv zeta.
  case_decide as Hlen; [done|]. assert (length thisNodes = length otherNodes) as Hlen' by lia.
  intros Hnil. split; [done|]. split.
  - intros a b Ha Hb. rewrite Ha, Hb in Hnil. simpl in Hnil.
    by apply fmap_nil_inv in Hnil.
  - intros Hmany. rewrite decide_False, decide_True in Hnil by lia.
    apply fmap_nil_inv in Hnil. rewrite findBestNodeMatching_greedy in Hnil.
    unfold greedyDiffs in Hnil.
    set (hA := λ n : string * ComfyNode, hashNodeInputs this n.2) in *.
    set (hB := λ n : string * ComfyNode, hashNodeInputs other n.2) in *.
    pose proof (greedyPairing_unmatched_length hA hB thisNodes otherNodes Hlen') as Hul.
    pose proof (greedyPairing_unmatched_distinct hA hB thisNodes otherNodes) as Hud.
    pose proof (greedyPairing_partition hA hB thisNodes otherNodes) as (HpA & HpB & _).
    cbv zeta in Hul, Hud, HpA, HpB.
    apply greedyPairing_sound;
      destruct (unmatchedA (greedyPairing hA hB thisNodes otherNodes)) as [|a ua] eqn:HuA,
               (unmatchedB (greedyPairing hA hB thisNodes otherNodes)) as [|b ub] eqn:HuB;
      simplify_eq/=; try done.
    all: exfalso; apply (Hud a b); [left | left |].
    all: apply hashNodeInputs_agree; [ | | by apply compareNodeInputs_nil].
    all: try (apply (findNodesByType_wf ct this); [done|];
              fold thisNodes; rewrite HpA, elem_of_app; right; left).
    all: apply (findNodesByType_wf ct other); [done|];
         fold otherNodes; rewrite HpB, elem_of_app; right; left.
Qed.

(** * Renaming node ids *)

Lemma filter_fmap {A B} (f : A → B) (P : B → Prop) `{∀ y, Decision (P y)} (l : list A) :
  filter P (f <$> l) = f <$> filter (λ x, P (f x)) l.
Proof.
  induction l as [|x l IH]; csimpl; [done|].
  rewrite !filter_cons. case_decide; csimpl; by rewrite IH.
Qed.

Section remap.
Context (r : string → string) `{!Inj (=) (=) r}.
Context (G G' : ComfyWorkflowJson).
Hypothesis G_wf : wf_nodes G.
Hypothesis G'_perm : G' ≡ₚ remapIds r G.

Lemma remapIds_keys : obj_keys (remapIds r G) = r <$> obj_keys G.
Proof. unfold remapIds, obj_keys. by rewrite <-!list_fmap_compose. Qed.

Lemma remap_wf : wf_nodes G'.
Proof.
  unfold wf_nodes, obj_keys. rewrite G'_perm.
  fold (obj_keys (remapIds r G)). rewrite remapIds_keys. by apply NoDup_fmap_2.
Qed.

Lemma remap_get (s : string) : obj_get G' (r s) = remapNode r <$> obj_get G s.
Proof.
  destruct (obj_get G s) as [n|] eqn:Hs; simpl.
  - apply obj_get_NoDup; [apply remap_wf|]. rewrite G'_perm.
    apply obj_get_Some_elem in Hs. apply list_elem_of_fmap. by exists (s, n).
  - apply obj_get_None. apply obj_get_None in Hs.
    unfold obj_keys. rewrite G'_perm. fold (obj_keys (remapIds r G)).
    rewrite remapIds_keys. by rewrite (list_elem_of_fmap_inj r).
Qed.

Lemma remap_findNodesByType (ct : string) :
  findNodesByType ct G' ≡ₚ (λ e, (r e.1, remapNode r e.2)) <$> findNodesByType ct G.
Proof.
  unfold findNodesByType. rewrite G'_perm. unfold remapIds. by rewrite filter_fmap.
Qed.

End remap.

(** * Structural equivalence *)

(** C6 (symmetry of emptiness): the structural diff of A against B is empty
    exactly when the structural diff of B against A is empty. *)
Theorem C6_emptiness_symmetric (A B : ComfyWorkflowJson) :
  wf_workflow A → wf_workflow B →
  getStructuralDiff A B = [] ↔ getStructuralDiff B A = [].
Proof.
  assert (∀ A B, wf_workflow A → wf_workflow B →
                 getStructuralDiff A B = [] → getStructuralDiff B A = []) as Hdir.
  { clear A B. intros A B HA HB. rewrite !getStructuralDiff_nil. intros Hall ct.
    destruct (classDiffs_nil_elim A B ct HA HB (Hall ct)) as (Hlen & Hone & Hmany).
    apply classDiffs_nil_intro; [done| |].
    - intros b a Hb Ha. by apply compareNodeInputs_nil_sym, Hone.
    - intros Hlt. symmetry. apply Hmany. lia. }
  intros HA HB. split; by apply Hdir.
Qed.

Lemma C6_emptiness_symmetric_witness :
  getStructuralDiff wfImgs1 wfImgs2 = [] ↔ getStructuralDiff wfImgs2 wfImgs1 = [].
Proof.
  apply C6_emptiness_symmetric.
  - split; apply (bool_decide_unpack _); vm_compute; exact I.
  - split; apply (bool_decide_unpack _); vm_compute; exact I.
Defined.

(** * One node more of a class type *)

Lemma findNodesByType_extra (G1 G2 : ComfyWorkflowJson) (id : string) (node : ComfyNode) :
  length (findNodesByType (class_type node) (G1 ++ (id, node) :: G2))
  = S (length (findNodesByType (class_type node) (G1 ++ G2))).
Proof.
  unfold findNodesByType. rewrite !filter_app, filter_cons_True by done.
  rewrite !length_app. simpl. lia.
Qed.

(** * Removing a node *)

Lemma filter_ext_in {A} (P Q : A → Prop) `{∀ x, Decision (P x)} `{∀ x, Decision (Q x)}
    (l : list A) :
  (∀ x, x ∈ l → P x ↔ Q x) → filter P l = filter Q l.
Proof.
  induction l as [|x l IH]; intros Hext; [done|].
  rewrite !filter_cons. rewrite IH by (intros ??; apply Hext; by right).
  destruct (decide (P x)) as [HP|HP], (decide (Q x)) as [HQ|HQ]; try done;
    exfalso; apply (Hext x) in HP || apply HP, (Hext x); done || left.
Qed.

Lemma detachInputs_fold (nodeId : string) (es live : list (string * InputValue)) :
  foldl (λ live e,
           match asConnection (Some e.2) with
           | Some (src, _) => if decide (src = nodeId) then obj_delete e.1 live else live
           | None => live
           end) live es
  = filter (λ i, ¬ Exists (λ e, refersTo nodeId e.2 ∧ e.1 = i.1) es) live.
Proof.
  revert live. induction es as [|e es IH]; intros live; simpl.
  - symmetry. apply filter_all. intros i _ H%Exists_nil. done.
  - rewrite IH. clear IH. destruct e as [k v].
    assert (∀ i : string * InputValue,
              ¬ refersTo nodeId v →
              ¬ Exists (λ e, refersTo nodeId e.2 ∧ e.1 = i.1) es
              ↔ ¬ Exists (λ e, refersTo nodeId e.2 ∧ e.1 = i.1) ((k, v) :: es)) as Hskip.
    { intros i Hv. rewrite Exists_cons. simpl. naive_solver. }
    destruct v as [s|n|b| |src port]; simpl;
      try (apply list_filter_iff; intros i; apply (Hskip i); simpl; tauto).
    destruct (decide (src = nodeId)) as [->|Hne].
    + unfold obj_delete. rewrite list_filter_filter. apply list_filter_iff.
      intros i. rewrite Exists_cons. simpl. naive_solver.
    + apply list_filter_iff. intros i. apply (Hskip i). simpl. done.
Qed.

Lemma NoDup_keys_inj {V} (o : list (string * V)) (e1 e2 : string * V) :
  NoDup (obj_keys o) → e1 ∈ o → e2 ∈ o → e1.1 = e2.1 → e1 = e2.
Proof.
  intros Hnd H1 H2 Hk. destruct e1 as [k v1], e2 as [k' v2]. simpl in Hk. subst k'.
  f_equal. apply (obj_get_NoDup _ _ _ Hnd) in H1, H2. congruence.
Qed.

Lemma detachInputs_filter (nodeId : string) (ins : list (string * InputValue)) :
  wf_inputs ins →
  detachInputs nodeId ins = filter (λ i, ¬ refersTo nodeId i.2) ins.
Proof.
  intros Hwf. unfold detachInputs. rewrite detachInputs_fold.
  apply filter_ext_in. intros i Hi. rewrite Exists_exists. split.
  - intros Hno Hi'. apply Hno. by exists i.
  - intros Hi' (e & He & Hr & Hk).
    by rewrite <-(NoDup_keys_inj ins e i Hwf He Hi Hk) in Hi'.
Qed.

Lemma obj_get_filter_value {V} (P : V → Prop) `{∀ v, Decision (P v)}
    (o : list (string * V)) (k : string) :
  NoDup (obj_keys o) →
  obj_get (filter (λ e, P e.2) o) k
  = match obj_get o k with
    | Some v => if decide (P v) then Some v else None
    | None => None
    end.
Proof.
  unfold obj_keys. induction o as [|[k0 v0] o IH]; csimpl; [done|].
  intros [Hk0 Hnd]%NoDup_cons. rewrite filter_cons. simpl.
  destruct (decide (k0 = k)) as [->|Hne].
  - destruct (decide (P v0)); simpl; [by rewrite decide_True|].
    rewrite IH by done.
    assert (obj_get o k = None) as ->; [|done]. by apply obj_get_None.
  - destruct (decide (P v0)); simpl; [rewrite decide_False by done|]; by apply IH.
Qed.

(** * Isolation warnings *)

Lemma checkInput_referenced (nodeIds : list string) (nodeId : string)
    (ins : list (string * InputValue)) (st : list Validators.ValidationError * list string)
    (x : string) :
  x ∈ (foldl (Validators.checkInput nodeIds nodeId) st ins).2
  ↔ x ∈ st.2 ∨ ∃ name src port, (name, VConnection src port) ∈ ins ∧ (x = src ∨ x = nodeId).
Proof.
  revert st. induction ins as [|[name v] ins IH]; intros st; simpl.
  - split; [by left|]. intros [?|(? & ? & ? & ?%elem_of_nil & _)]; done.
  - rewrite IH. clear IH. unfold Validators.checkInput at 1.
    destruct v as [s|n|b| |src port]; simpl.
    1-4: split; (intros [?|(nm & s' & p' & Hin & Hx)]; [by left|right]);
         exists nm, s', p'; (split; [|done]);
         [by right | by apply elem_of_cons in Hin as [?|?]; simplify_eq..].
    destruct (Set_has src nodeIds); simpl; rewrite !Set_add_elem;
      setoid_rewrite elem_of_cons; naive_solver.
Qed.

Lemma checkNodes_referenced (nodeIds : list string) (json : ComfyWorkflowJson) (x : string) :
  x ∈ (Validators.checkNodes nodeIds json).2
  ↔ isConnectionSource json x ∨ holdsConnection json x.
Proof.
  unfold Validators.checkNodes.
  assert (∀ st, x ∈ (foldl (λ st e, foldl (Validators.checkInput nodeIds e.1) st (inputs e.2))
                           st json).2
                ↔ x ∈ st.2 ∨ ∃ e name src port,
                      e ∈ json ∧ (name, VConnection src port) ∈ inputs e.2
                      ∧ (x = src ∨ x = e.1)) as Hgen.
  { induction json as [|e json IH]; intros st; simpl.
    - split; [by left|]. intros [?|(? & ? & ? & ? & ?%elem_of_nil & _)]; done.
    - rewrite IH, checkInput_referenced. split.
      + intros [[?|(nm & s & p & Hin & Hx)]|(e' & nm & s & p & He' & Hin & Hx)].
        * by left.
        * right. exists e, nm, s, p. split; [left|done].
        * right. exists e', nm, s, p. split; [by right|done].
      + intros [?|(e' & nm & s & p & [->|He']%elem_of_cons & Hin & Hx)].
        * by left; left.
        * left; right. by exists nm, s, p.
        * right. by exists e', nm, s, p. }
  rewrite Hgen. simpl. unfold isConnectionSource, holdsConnection. split.
  - intros [?%elem_of_nil|(e & nm & s & p & He & Hin & [->| ->])]; [done| |].
    + left. by exists e, nm, p.
    + right. destruct e as [id node]. by exists node, nm, s, p.
  - intros [(e & nm & p & He & Hin)|(node & nm & s & p & He & Hin)]; right.
    + exists e, nm, x, p. auto.
    + exists (x, node), nm, s, p. auto.
Qed.

Lemma validateConnections_warnings (json : ComfyWorkflowJson) (id : string) :
  let named :=
    filter (λ w, Validators.nodeId w = Some id)
           (Validators.warnings (Validators.validateConnections json)) in
  (id ∈ obj_keys json ∧ ¬ (isConnectionSource json id ∨ holdsConnection json id)
   ∧ named = [Validators.isolatedWarning id])
  ∨ ((id ∉ obj_keys json ∨ isConnectionSource json id ∨ holdsConnection json id)
     ∧ named = []).
Proof.
  unfold Validators.validateConnections.
  pose proof (checkNodes_referenced (Set_of (obj_keys json)) json) as Href.
  destruct (Validators.checkNodes (Set_of (obj_keys json)) json) as [errs refd].
  simpl in *.
  rewrite (bind_filter_key Validators.nodeId).
  - destruct (decide (id ∈ Set_of (obj_keys json))) as [Hin|Hout].
    + rewrite Set_of_elem in Hin. unfold Set_has.
      destruct (decide (id ∈ refd)) as [Hr|Hr].
      * rewrite bool_decide_eq_true_2 by done. right. split; [|done].
        right. by apply Href.
      * rewrite bool_decide_eq_false_2 by done. left. by rewrite <-Href.
    + rewrite Set_of_elem in Hout. right. split; [by left | done].
  - apply Set_of_NoDup.
  - intros a d. case_match; [by intros ?%elem_of_nil|].
    by intros ->%list_elem_of_singleton.
Qed.

(** C9 (isolation detection): [validateConnections] emits one isolation
    warning naming a node id of the graph exactly when that id is the source
    of no connection in any node's inputs and its node has no
    connection-valued input; a node id with a connection in either direction
    is named by no warning. *)
Theorem C9_isolation_warning (json : ComfyWorkflowJson) (id : string) :
  let named :=
    filter (λ w, Validators.nodeId w = Some id)
           (Validators.warnings (Validators.validateConnections json)) in
  (named = [Validators.isolatedWarning id]
   ↔ id ∈ obj_keys json ∧ ¬ isConnectionSource json id ∧ ¬ holdsConnection json id)
  ∧ (isConnectionSource json id ∨ holdsConnection json id → named = [])
  ∧ (named = [Validators.isolatedWarning id] ∨ named = []).
Proof.
  intros named.
  destruct (validateConnections_warnings json id) as [(Hin & Hno & Hw)|[Hyes Hw]];
    fold named in Hw; rewrite Hw.
  - split_and!; [split; [tauto|done] | tauto | by left].
  - split_and!; [split; [done|tauto] | done | by right].
Qed.

Lemma C9_isolation_warning_witness :
  filter (λ w, Validators.nodeId w = Some "3")
         (Validators.warnings (Validators.validateConnections
            [ ("1", mkNode "IsolatedNode" []);
              ("2", mkNode "ConnectedNode" [("input", VConnection "3" 0)]);
              ("3", mkNode "SourceNode" []) ]))
  = [].
Proof.
  apply (proj1 (proj2 (C9_isolation_warning
           [ ("1", mkNode "IsolatedNode" []);
             ("2", mkNode "ConnectedNode" [("input", VConnection "3" 0)]);
             ("3", mkNode "SourceNode" []) ] "3"))).
  left. exists ("2", mkNode "ConnectedNode" [("input", VConnection "3" 0)]), "input", 0%Z.
  split; apply (bool_decide_unpack _); vm_compute; exact I.
Defined.

(** * Getters and the arrays they return *)

Section shared.
Import Shared.

Lemma readValue_app (st extra : list (string * Z)) (v : Value) :
  (∀ l, v = VArray l → l < length st) →
  readValue (st ++ extra) v = readValue st v.
Proof.
  destruct v as [p|l]; [done|]. intros Hl. simpl.
  by rewrite lookup_app_l by (by apply Hl).
Qed.

Lemma cloneValue_spec (st : list (string * Z)) (v : Value) :
  (∀ l, v = VArray l → l < length st) →
  ∃ extra, (cloneValue st v).1 = st ++ extra
           ∧ readValue (st ++ extra) (cloneValue st v).2 = readValue st v
           ∧ ∀ l, (cloneValue st v).2 = VArray l → length st ≤ l < length (st ++ extra).
Proof.
  destruct v as [p|l]; simpl; intros Hl.
  - exists []. rewrite app_nil_r. split_and!; [done..|]. intros ? [=].
  - destruct (st !! l) as [a|] eqn:Ha; simpl.
    + exists [a]. split_and!; [done| |].
      * by rewrite list_lookup_middle.
      * intros ? [= <-]. rewrite length_app. simpl. lia.
    + specialize (Hl l eq_refl). apply lookup_lt_is_Some in Hl as [? ?]. congruence.
Qed.

Lemma addresses_cons (i : string * Value) (ins : list (string * Value)) :
  addresses (i :: ins)
  = match i.2 with VArray l => [l] | VPrim _ => [] end ++ addresses ins.
Proof. done. Qed.

Lemma cloneInputs_spec (ins : list (string * Value)) : ∀ st : list (string * Z),
  Forall (λ l, l < length st) (addresses ins) →
  ∃ extra, (cloneInputs st ins).1 = st ++ extra
           ∧ (λ i, (i.1, readValue (st ++ extra) i.2)) <$> (cloneInputs st ins).2
             = (λ i, (i.1, readValue st i.2)) <$> ins
           ∧ Forall (λ l, length st ≤ l < length (st ++ extra))
                    (addresses (cloneInputs st ins).2).
Proof.
  induction ins as [|[k v] ins IH]; intros st Hwf.
  - exists []. rewrite app_nil_r. split_and!; [done..|]. constructor.
  - rewrite addresses_cons in Hwf. apply Forall_app in Hwf as [Hv Hins].
    destruct (cloneValue_spec st v) as (e1 & He1 & Hr1 & Hl1).
    { intros l ->. simpl in Hv. by inversion Hv. }
    destruct (IH (st ++ e1)) as (e2 & He2 & Hr2 & Hl2).
    { eapply Forall_impl; [exact Hins|]. intros l ?. rewrite length_app. simpl in *. lia. }
    cbn [cloneInputs fst snd]. rewrite He1.
    exists (e1 ++ e2). rewrite He2, <-!app_assoc. split_and!; [done| |].
    + rewrite !fmap_cons. cbn [fst snd]. rewrite app_assoc, Hr2. f_equal.
      * f_equal. rewrite <-Hr1, <-app_assoc.
        destruct (cloneValue st v).2 as [p|l] eqn:Hc; [done|].
        rewrite app_assoc.
        apply readValue_app. intros ? [= <-]. by apply Hl1.
      * apply list_fmap_ext. intros _ [k' v'] Hin%list_elem_of_lookup_2. simpl. f_equal.
        apply readValue_app. intros l ->. rewrite Forall_forall in Hins.
        apply Hins. unfold addresses. apply list_elem_of_bind.
        by exists (k', VArray l); split; [left|].
    + rewrite addresses_cons. cbn [fst snd]. apply Forall_app. split.
      * destruct (cloneValue st v).2 as [p|l] eqn:Hc; [constructor|].
        apply Forall_singleton. specialize (Hl1 l eq_refl).
        rewrite !length_app in *. lia.
      * eapply Forall_impl; [exact Hl2|]. intros l. simpl. rewrite !length_app. lia.
Qed.

Lemma readValue_alter (f : string * Z → string * Z) (l : nat) (st : list (string * Z))
    (v : Value) :
  v ≠ VArray l → readValue (alter f l st) v = readValue st v.
Proof.
  destruct v as [p|l']; [done|]. intros Hne. simpl.
  rewrite list_lookup_alter_ne; [done|]. congruence.
Qed.

(** A write to an address the workflow does not hold leaves it as it is. *)
Lemma toJson_writeSource_fresh (w : World) (l : nat) (s : string) :
  (∀ e, e ∈ nodes w → l ∉ addresses (inputs e.2)) →
  toJson (writeSource l s w) = toJson w.
Proof.
  intros Hfresh. unfold toJson, writeSource. simpl.
  apply list_fmap_ext. intros _ [id node] Hin%list_elem_of_lookup_2. simpl. f_equal.
  unfold readNode. f_equal.
  apply list_fmap_ext. intros _ [k v] Hk%list_elem_of_lookup_2. simpl. f_equal.
  apply readValue_alter. intros ->. apply (Hfresh (id, node) Hin).
  unfold addresses. apply list_elem_of_bind. exists (k, VArray l). split; [left | done].
Qed.

(** [getNode] returns a snapshot: the call leaves the workflow as it is, the
    node returned reads as the stored node, and no write to an array of the
    returned node reaches the workflow. *)
Lemma getNode_snapshot (w : World) (nodeId : string) :
  wf w →
  let r := getNode nodeId w in
  toJson r.1 = toJson w
  ∧ (∀ node, r.2 = Some node →
       obj_get (toJson w) nodeId = Some (readNode (store r.1) node)
       ∧ ∀ l s, l ∈ addresses (inputs node) →
                toJson (writeSource l s r.1) = toJson r.1).
Proof.
  intros Hwf. unfold getNode.
  destruct (obj_get (nodes w) nodeId) as [node|] eqn:Hnode; simpl; [|done].
  unfold wf in Hwf. rewrite Forall_forall in Hwf.
  destruct (cloneInputs_spec (inputs node) (store w)) as (extra & Hst & Hread & Haddr).
  { apply obj_get_Some_elem in Hnode. apply (Hwf _ Hnode). }
  assert (toJson {| store := (cloneInputs (store w) (inputs node)).1; nodes := nodes w |}
          = toJson w) as Hsame.
  { unfold toJson. simpl. rewrite Hst.
    apply list_fmap_ext. intros _ [id n] Hin%list_elem_of_lookup_2. simpl. f_equal.
    unfold readNode. f_equal.
    apply list_fmap_ext. intros _ [k v] Hk%list_elem_of_lookup_2. simpl. f_equal.
    apply readValue_app. intros l ->.
    specialize (Hwf _ Hin). simpl in Hwf. rewrite Forall_forall in Hwf. apply Hwf.
    unfold addresses. apply list_elem_of_bind. exists (k, VArray l). split; [left | done]. }
  split; [exact Hsame|]. intros node' [= <-]. split.
  - unfold toJson. rewrite obj_get_fmap, Hnode. simpl. f_equal.
    unfold readNode. simpl. f_equal. by rewrite Hst, Hread.
  - intros l s Hl. apply toJson_writeSource_fresh. simpl. intros e He Hle.
    rewrite Forall_forall in Haddr. apply Haddr in Hl.
    specialize (Hwf _ He). rewrite Forall_forall in Hwf. apply Hwf in Hle. lia.
Qed.
End shared.

(** A write through what [getInput] returned for a connection input changes
    what the workflow holds there. *)
Lemma getInput_aliases (w : Shared.World) (nodeId name s s0 : string) (l : nat) (p : Z) :
  Shared.getInput nodeId name w = Some (Shared.VArray l) →
  Shared.store w !! l = Some (s0, p) → s ≠ s0 →
  Shared.toJson (Shared.writeSource l s w) ≠ Shared.toJson w.
Proof.
  unfold Shared.getInput. intros Hget Hl Hne Heq.
  destruct (obj_get (Shared.nodes w) nodeId) as [node|] eqn:Hnode; [|done].
  apply (f_equal (λ j, n ← obj_get j nodeId; obj_get (inputs n) name)) in Heq.
  unfold Shared.toJson, Shared.writeSource in Heq. simpl in Heq.
  rewrite !obj_get_fmap, Hnode in Heq. simpl in Heq.
  rewrite !obj_get_fmap, Hget in Heq. simpl in Heq.
  rewrite list_lookup_alter, Hl in Heq. simpl in Heq.
  rewrite decide_True in Heq by done. simpl in Heq. congruence.
Qed.

(** C8 (snapshot semantics of the getters), evaluated on the workflow
    [Shared.linked]: [getInput] and [getInputs] return the connection array
    the workflow itself holds, so that assigning to its first element changes
    the stored input, with no mutation method called.  ([getNode] does
    return a snapshot: [getNode_snapshot].) *)
Theorem C8_getInput_shares_array :
  ∃ w,
    Shared.linked = Some w
    ∧ Shared.getInput "2" "vae" w = Some (Shared.VArray 0)
    ∧ Shared.getInputs "2" w = Some [("vae", Shared.VArray 0)]
    ∧ Shared.toJson w
      = [ ("1", mkNode "VAELoader" []);
          ("2", mkNode "VAEEncode" [("vae", VConnection "1" 0)]) ]
    ∧ Shared.toJson (Shared.writeSource 0 "99" w)
      = [ ("1", mkNode "VAELoader" []);
          ("2", mkNode "VAEEncode" [("vae", VConnection "99" 0)]) ].
Proof. eexists. split_and!; reflexivity. Qed.

(** * Edges *)

Lemma bind_ext_in {A B} (f g : A → list B) (l : list A) :
  (∀ x, x ∈ l → f x = g x) → l ≫= f = l ≫= g.
Proof.
  induction l as [|x l IH]; intros Hext; csimpl; [done|].
  rewrite (Hext x) by left. f_equal. apply IH. intros ??. apply Hext. by right.
Qed.

(** The edges into one node. *)
Lemma getEdges_cons (e : string * ComfyNode) (nodes : ComfyWorkflowJson) :
  getEdges (e :: nodes) = getEdges [e] ++ getEdges nodes.
Proof. unfold getEdges. csimpl. by rewrite app_nil_r. Qed.

Lemma elem_of_getEdges (nodes : ComfyWorkflowJson) (edge : Edge) :
  edge ∈ getEdges nodes
  ↔ ∃ node, (targetNodeId edge, node) ∈ nodes
            ∧ (targetInputName edge, VConnection (sourceNodeId edge) (sourcePort edge))
              ∈ inputs node.
Proof.
  unfold getEdges. rewrite list_elem_of_bind. split.
  - intros ([tgt node] & (i & Hedge & Hi)%list_elem_of_bind & Hnode). simpl in *.
    destruct i as [name [| | | |src port]]; simpl in Hedge;
      try (by apply elem_of_nil in Hedge).
    apply list_elem_of_singleton in Hedge as ->. simpl. by exists node.
  - intros (node & Hnode & Hi). exists (targetNodeId edge, node). split; [|done].
    apply list_elem_of_bind. eexists. split; [|exact Hi]. simpl.
    apply list_elem_of_singleton. by destruct edge.
Qed.

Lemma removeNode_present (nodes : ComfyWorkflowJson) (nodeId : string) :
  wf_workflow nodes → is_Some (obj_get nodes nodeId) →
  removeNode nodeId nodes
  = (λ e, (e.1, withoutInputsFrom nodeId e.2)) <$> filter (λ e, e.1 ≠ nodeId) nodes.
Proof.
  intros [_ Hins] [n Hn]. unfold removeNode. rewrite Hn. unfold obj_delete.
  rewrite filter_fmap. simpl.
  apply list_fmap_ext. intros _ e [_ He]%list_elem_of_lookup_2%list_elem_of_filter.
  f_equal. unfold detachNode, withoutInputsFrom. f_equal.
  apply detachInputs_filter. rewrite Forall_forall in Hins. by apply Hins.
Qed.

Lemma bind_filter_comm {A B} (P : A → Prop) `{∀ x, Decision (P x)}
    (Q : B → Prop) `{∀ y, Decision (Q y)} (f : A → list B) (l : list A) :
  (∀ x, P x → filter Q (f x) = f x) → (∀ x, ¬ P x → filter Q (f x) = []) →
  filter P l ≫= f = filter Q (l ≫= f).
Proof.
  intros Hkeep Hdrop. induction l as [|x l IH]; [done|].
  csimpl. rewrite filter_app, <-IH, filter_cons.
  destruct (decide (P x)) as [HP|HP]; csimpl.
  - by rewrite Hkeep.
  - by rewrite Hdrop.
Qed.

Lemma getEdges_withoutInputsFrom (nodeId : string) (e : string * ComfyNode) :
  e.1 ≠ nodeId →
  getEdges [(e.1, withoutInputsFrom nodeId e.2)]
  = filter (λ edge, sourceNodeId edge ≠ nodeId ∧ targetNodeId edge ≠ nodeId) (getEdges [e]).
Proof.
  intros Hne. unfold getEdges. csimpl. rewrite !app_nil_r.
  apply (bind_filter_comm (λ i : string * InputValue, ¬ refersTo nodeId i.2)).
  - intros [name v] Hv. destruct v as [s|n|b| |src port]; simpl in *; try done.
    by rewrite filter_cons, decide_True.
  - intros [name v] Hv. apply dec_stable in Hv.
    destruct v as [s|n|b| |src port]; simpl in *; try done.
    rewrite filter_cons, decide_False; [done|]. simpl. tauto.
Qed.

Lemma getEdges_removed_target (nodeId : string) (node : ComfyNode) :
  filter (λ edge, sourceNodeId edge ≠ nodeId ∧ targetNodeId edge ≠ nodeId)
         (getEdges [(nodeId, node)]) = [].
Proof.
  apply filter_none. intros edge (n & Hn & _)%elem_of_getEdges [_ Ht].
  apply list_elem_of_singleton in Hn. by simplify_eq.
Qed.

Lemma length_filter_key {V} (o : list (string * V)) (k : string) :
  NoDup (obj_keys o) → k ∈ obj_keys o →
  S (length (filter (λ e, e.1 ≠ k) o)) = length o.
Proof.
  unfold obj_keys. induction o as [|[k0 v0] o IH]; csimpl.
  - by intros _ ?%elem_of_nil.
  - intros [Hk0 Hnd]%NoDup_cons Hk. rewrite filter_cons. simpl.
    destruct (decide (k0 = k)) as [->|Hne].
    + rewrite decide_False by (by intros ?). f_equal. f_equal.
      apply filter_all. intros [k1 v1] Hin Heq. simpl in Heq. subst k1.
      apply Hk0. apply list_elem_of_fmap. by exists (k, v1).
    + rewrite decide_True by done. simpl. f_equal. apply IH; [done|].
      apply elem_of_cons in Hk as [?|?]; [congruence | done].
Qed.

Lemma getEdges_removeNode (nodes : ComfyWorkflowJson) (nodeId : string) :
  wf_workflow nodes → is_Some (obj_get nodes nodeId) →
  getEdges (removeNode nodeId nodes)
  = filter (λ edge, sourceNodeId edge ≠ nodeId ∧ targetNodeId edge ≠ nodeId)
           (getEdges nodes).
Proof.
  intros Hwf Hsome. rewrite removeNode_present by done.
  clear Hwf Hsome. induction nodes as [|e nodes IH]; [done|].
  rewrite (getEdges_cons e), filter_app, filter_cons.
  destruct (decide (e.1 ≠ nodeId)) as [Hne|Heq].
  - rewrite fmap_cons, getEdges_cons, IH. f_equal.
    by apply getEdges_withoutInputsFrom.
  - rewrite IH. apply dec_stable in Heq. destruct e as [k n]. simpl in Heq. subst k.
    by rewrite getEdges_removed_target.
Qed.

(** X3: after [removeNode] of a node of the workflow, the edges are exactly the
    edges that had the node neither as source nor as target, in their order,
    and there is one node less. *)
Theorem removeNode_edges (nodes : ComfyWorkflowJson) (nodeId : string) :
  wf_workflow nodes → is_Some (getNode nodeId nodes) →
  getEdges (removeNode nodeId nodes)
  = filter (λ edge, sourceNodeId edge ≠ nodeId ∧ targetNodeId edge ≠ nodeId)
           (getEdges nodes)
  ∧ S (getNodeCount (removeNode nodeId nodes)) = getNodeCount nodes.
Proof.
  intros Hwf Hsome. split; [by apply getEdges_removeNode|].
  rewrite removeNode_present by done.
  unfold getNodeCount, obj_keys. rewrite !length_fmap.
  apply length_filter_key; [apply Hwf|]. by apply obj_get_is_Some.
Qed.

Lemma removeNode_edges_witness :
  getEdges (removeNode "1" wfA) = [] ∧ S (getNodeCount (removeNode "1" wfA)) = 3.
Proof.
  refine (removeNode_edges wfA "1" _ _).
  - split; apply (bool_decide_unpack _); vm_compute; exact I.
  - eexists. reflexivity.
Defined.

Section objects_more.
Context {V : Type}.
Implicit Types (o : list (string * V)) (k : string) (v : V).

Lemma obj_set_set o k v1 v2 : obj_set k v2 (obj_set k v1 o) = obj_set k v2 o.
Proof.
  induction o as [|[k0 v0] o IH]; simpl.
  - by rewrite decide_True.
  - destruct (decide (k0 = k)) as [->|Hne]; simpl.
    + by rewrite decide_True.
    + rewrite decide_False by done. by rewrite IH.
Qed.

Lemma obj_set_id o k v : obj_get o k = Some v → obj_set k v o = o.
Proof.
  induction o as [|[k0 v0] o IH]; simpl; [done|].
  destruct (decide (k0 = k)) as [->|Hne]; [by intros [= ->]|].
  intros Hget. by rewrite IH.
Qed.

Lemma obj_delete_set_fresh o k v : obj_get o k = None → obj_delete k (obj_set k v o) = o.
Proof.
  unfold obj_delete. induction o as [|[k0 v0] o IH]; simpl.
  - intros _. by rewrite filter_cons, decide_False by (by intros ?).
  - destruct (decide (k0 = k)) as [->|Hne]; [done|].
    intros Hget. rewrite filter_cons, decide_True by done. by rewrite IH.
Qed.

End objects_more.

Lemma node_eta (node : ComfyNode) :
  {| inputs := inputs node; class_type := class_type node; _meta := _meta node |} = node.
Proof. by destruct node. Qed.



(** * Generated node ids *)

Lemma digitValue_pretty (d : N) :
  (d < 10)%N →
  digitValue 10 (pretty_N_char d) = Some d
  ∧ isStrWhiteSpaceChar (pretty_N_char d) = false
  ∧ Ascii.N_of_ascii (pretty_N_char d) ≠ 45%N
  ∧ Ascii.N_of_ascii (pretty_N_char d) ≠ 43%N
  ∧ Ascii.N_of_ascii (pretty_N_char d) ≠ 120%N
  ∧ Ascii.N_of_ascii (pretty_N_char d) ≠ 88%N.
Proof.
  intros Hd.
  assert (d ∈ [0; 1; 2; 3; 4; 5; 6; 7; 8; 9]%N) as Hin.
  { rewrite !elem_of_cons. lia. }
  repeat (apply elem_of_cons in Hin as [->|Hin]; [by vm_compute|]).
  by apply elem_of_nil in Hin.
Qed.

Lemma parseDigits_pretty (x : N) :
  (0 < x)%N →
  ∃ k : N, ∀ acc s,
    parseDigits 10 acc (pretty_N_go x s)
    = parseDigits 10 (Some (default 0 acc * 10 ^ k + x)%N) s.
Proof.
  induction (N.lt_wf_0 x) as [x _ IH]. intros Hx.
  destruct (decide (x `div` 10 = 0)%N) as [Hdiv|Hdiv].
  - exists 1%N. intros acc s. rewrite pretty_N_go_step, Hdiv, pretty_N_go_0 by done.
    simpl. destruct (digitValue_pretty (x `mod` 10)) as [-> _].
    { by apply N.mod_lt. }
    f_equal. f_equal. pose proof (N.div_mod x 10). lia.
  - destruct (IH (x `div` 10)%N) as [k Hk].
    { apply N.div_lt; lia. }
    { by apply N.neq_0_lt_0. }
    exists (k + 1)%N. intros acc s. rewrite pretty_N_go_step, Hk by done.
    simpl. destruct (digitValue_pretty (x `mod` 10)) as [-> _].
    { by apply N.mod_lt. }
    f_equal. f_equal. simpl. rewrite N.pow_add_r. pose proof (N.div_mod x 10). lia.
Qed.

Lemma pretty_N_go_head (x : N) (s : string) :
  (0 < x)%N →
  ∃ d t, (d < 10)%N ∧ pretty_N_go x s = String (pretty_N_char d) t
         ∧ (t = s ∨ ∃ d' t', (d' < 10)%N ∧ t = String (pretty_N_char d') t').
Proof.
  revert s. induction (N.lt_wf_0 x) as [x _ IH]. intros s Hx.
  rewrite pretty_N_go_step by done.
  destruct (decide (x `div` 10 = 0)%N) as [Hdiv|Hdiv].
  - rewrite Hdiv, pretty_N_go_0. exists (x `mod` 10)%N, s.
    split_and!; [by apply N.mod_lt | done | by left].
  - destruct (IH (x `div` 10)%N) with (s := String (pretty_N_char (x `mod` 10)) s)
      as (d & t & Hd & -> & Ht).
    { apply N.div_lt; lia. }
    { by apply N.neq_0_lt_0. }
    exists d, t. split_and!; [done..|]. right. destruct Ht as [->|Ht]; [|done].
    exists (x `mod` 10)%N, s. split; [by apply N.mod_lt | done].
Qed.

Lemma parseUnsigned_pretty (x : N) :
  (0 < x)%N → parseUnsigned (pretty_N_go x EmptyString) = Some x.
Proof.
  intros Hx.
  destruct (pretty_N_go_head x EmptyString Hx) as (d & t & Hd & Heq & Ht).
  destruct (parseDigits_pretty x Hx) as [k Hk].
  specialize (Hk None EmptyString). rewrite Heq in Hk. rewrite Heq.
  assert (parseDigits 10 None (String (pretty_N_char d) t) = Some x) as Hval.
  { rewrite Hk. simpl. done. }
  unfold parseUnsigned. destruct t as [|c1 t']; [done|].
  destruct Ht as [?|(d' & t'' & Hd' & [= -> ->])]; [done|].
  destruct (digitValue_pretty d' Hd') as (_ & _ & _ & _ & Hy1 & Hy2).
  rewrite (bool_decide_eq_false_2 (_ ∨ _)) by tauto.
  by rewrite andb_false_r.
Qed.

(** [parseInt] reads back what the number-to-string conversion writes. *)
Lemma parseInt_num_to_string (n : Z) : parseInt (num_to_string n) = Some n.
Proof.
  unfold num_to_string, pretty, pretty_Z. destruct n as [|p|p]; [done| |].
  - unfold pretty, pretty_positive, pretty, pretty_N. simpl.
    pose proof (parseUnsigned_pretty (N.pos p) eq_refl) as Hu.
    destruct (pretty_N_go_head (N.pos p) EmptyString eq_refl) as (d & t & Hd & Heq & _).
    destruct (digitValue_pretty d Hd) as (_ & Hws & Hminus & Hplus & _).
    unfold parseInt. rewrite Heq in *. simpl. rewrite Hws.
    rewrite !bool_decide_eq_false_2 by done. by rewrite Hu.
  - unfold pretty, pretty_positive, pretty, pretty_N. simpl.
    pose proof (parseUnsigned_pretty (N.pos p) eq_refl) as Hu.
    change (parseInt (String (Ascii.ascii_of_nat 45) (pretty_N_go (N.pos p) EmptyString))
            = Some (Z.neg p)).
    unfold parseInt. simpl. by rewrite Hu.
Qed.

Lemma foldl_max_init (n : Z) (l : list Z) : (n ≤ foldl Z.max n l)%Z.
Proof.
  revert n. induction l as [|y l IH]; intros n; simpl; [lia|].
  etrans; [|apply IH]. lia.
Qed.

Lemma foldl_max_ge (n : Z) (l : list Z) (x : Z) :
  x = n ∨ x ∈ l → (x ≤ foldl Z.max n l)%Z.
Proof.
  intros [->|Hx]; [apply foldl_max_init|].
  revert n. induction l as [|y l IH]; intros n; simpl.
  - by apply elem_of_nil in Hx.
  - apply elem_of_cons in Hx as [->|Hx]; [|by apply IH].
    etrans; [|apply foldl_max_init]. lia.
Qed.

Lemma generateNodeId_parse (nodes : ComfyWorkflowJson) (n : Z) :
  n ∈ numericIds nodes → ∃ m, parseInt (generateNodeId nodes) = Some m ∧ (n < m)%Z.
Proof.
  intros Hn. unfold generateNodeId. eexists. split; [apply parseInt_num_to_string|].
  destruct (numericIds nodes) as [|n0 ids]; [by apply elem_of_nil in Hn|].
  apply elem_of_cons in Hn.
  pose proof (foldl_max_ge n0 ids n Hn). lia.
Qed.

Lemma generateNodeId_fresh (nodes : ComfyWorkflowJson) :
  generateNodeId nodes ∉ obj_keys nodes.
Proof.
  intros Hin.
  assert (∃ m, parseInt (generateNodeId nodes) = Some m) as [m Hm].
  { eexists. apply parseInt_num_to_string. }
  assert (m ∈ numericIds nodes) as Hids.
  { unfold numericIds. apply list_elem_of_omap. by exists (generateNodeId nodes). }
  destruct (generateNodeId_parse nodes m Hids) as (m' & Hm' & Hlt).
  rewrite Hm in Hm'. simplify_eq. lia.
Qed.

Lemma addNode_Some (classType : string) (ins : list (string * InputValue))
    (id : option string) (meta : option NodeMeta) (nodes : ComfyWorkflowJson) :
  let nodeId := default (generateNodeId nodes) id in
  let node := {| inputs := ins; class_type := classType; _meta := meta |} in
  obj_get nodes nodeId = None →
  ∃ nodes',
    addNode classType ins id meta nodes = Some (nodeId, nodes')
    ∧ getNode nodeId nodes' = Some node
    ∧ (∀ other, other ≠ nodeId → getNode other nodes' = getNode other nodes)
    ∧ getNodeCount nodes' = S (getNodeCount nodes).
Proof.
  intros nodeId node Hfree. exists (obj_set nodeId node nodes).
  unfold addNode. fold nodeId. rewrite Hfree. unfold getNode, getNodeCount.
  split_and!; [done| | |].
  - by rewrite obj_get_set, decide_True.
  - intros other Hne. by rewrite obj_get_set, decide_False.
  - rewrite obj_keys_set, decide_False by (by apply obj_get_None).
    rewrite length_app. simpl. lia.
Qed.

Lemma foldl_max_elem (n : Z) (l : list Z) :
  foldl Z.max n l = n ∨ foldl Z.max n l ∈ l.
Proof.
  revert n. induction l as [|y l IH]; intros n; simpl; [by left|].
  destruct (IH (Z.max n y)) as [->|Hin]; [|right; by right].
  destruct (Z.max_spec n y) as [[_ ->]|[_ ->]]; [right; left | by left].
Qed.

(** X2: [addNode] without an id never throws: with all integer-like ids in the
    safe range, the generated id is not an existing key; it reads as the
    integer one above the greatest integer-like existing id, or as 1 when
    there is none; and the node is stored under it with every other node as
    before. *)
Theorem addNode_generated_id (classType : string) (ins : list (string * InputValue))
    (meta : option NodeMeta) (nodes : ComfyWorkflowJson) :
  safeIds nodes →
  let newId := generateNodeId nodes in
  (newId ∉ obj_keys nodes)
  ∧ (∃ m, parseInt newId = Some m
          ∧ (numericIds nodes = [] ∧ m = 1%Z ∨ (m - 1)%Z ∈ numericIds nodes)
          ∧ ∀ n, n ∈ numericIds nodes → (n < m)%Z)
  ∧ (∃ nodes',
      addNode classType ins None meta nodes = Some (newId, nodes')
      ∧ getNode newId nodes'
        = Some {| inputs := ins; class_type := classType; _meta := meta |}
      ∧ (∀ other, other ≠ newId → getNode other nodes' = getNode other nodes)
      ∧ getNodeCount nodes' = S (getNodeCount nodes)).
Proof.
  intros _ newId. pose proof (generateNodeId_fresh nodes) as Hfresh. fold newId in Hfresh.
  split; [done|]. split.
  - unfold newId, generateNodeId. eexists. split; [apply parseInt_num_to_string|].
    destruct (numericIds nodes) as [|n0 ids] eqn:Hids.
    + split; [by left|]. by intros ? ?%elem_of_nil.
    + split.
      * right. replace (foldl Z.max n0 ids + 1 - 1)%Z with (foldl Z.max n0 ids) by lia.
        destruct (foldl_max_elem n0 ids) as [->|?]; [left | by right].
      * intros n Hn%elem_of_cons. pose proof (foldl_max_ge n0 ids n Hn). lia.
  - apply (addNode_Some classType ins None meta nodes). by apply obj_get_None.
Qed.

Lemma addNode_generated_id_witness :
  generateNodeId wfA = "4" ∧ "4" ∉ obj_keys wfA.
Proof.
  split; [reflexivity|].
  refine (proj1 (addNode_generated_id "X" [] None wfA _)).
  apply (bool_decide_unpack _). vm_compute. exact I.
Defined.

(** * Reading a concatenation *)

Lemma obj_get_app {V} (o1 o2 : list (string * V)) (k : string) :
  obj_get (o1 ++ o2) k
  = match obj_get o1 k with Some v => Some v | None => obj_get o2 k end.
Proof.
  induction o1 as [|[k0 v0] o1 IH]; simpl; [done|]. by case_decide.
Qed.

(** * Dangling references *)

Lemma checkInput_errors (nodeIds : list string) (nodeId : string)
    (ins : list (string * InputValue)) (st : list Validators.ValidationError * list string) :
  (foldl (Validators.checkInput nodeIds nodeId) st ins).1
  = st.1 ++ (danglingError <$>
               filter (λ edge, sourceNodeId edge ∉ nodeIds)
                      (getEdges [(nodeId, mkNode EmptyString ins)])).
Proof.
  unfold getEdges. csimpl. rewrite app_nil_r.
  revert st. induction ins as [|[name v] ins IH]; intros st; csimpl.
  - by rewrite app_nil_r.
  - rewrite IH. clear IH. unfold Validators.checkInput.
    destruct v as [s|n|b| |src port]; simpl; try done.
    unfold Set_has. rewrite filter_cons. simpl.
    destruct (decide (src ∈ nodeIds)) as [Hin|Hout].
    + rewrite bool_decide_eq_true_2 by done. by rewrite decide_False by (by intros ?).
    + rewrite bool_decide_eq_false_2 by done. rewrite decide_True by done.
      simpl. by rewrite <-app_assoc.
Qed.

Lemma checkNodes_errors (nodeIds : list string) (json : ComfyWorkflowJson) :
  (Validators.checkNodes nodeIds json).1
  = danglingError <$> filter (λ edge, sourceNodeId edge ∉ nodeIds) (getEdges json).
Proof.
  unfold Validators.checkNodes.
  assert (∀ st, (foldl (λ st e, foldl (Validators.checkInput nodeIds e.1) st (inputs e.2))
                       st json).1
                = st.1 ++ (danglingError <$>
                             filter (λ edge, sourceNodeId edge ∉ nodeIds) (getEdges json)))
    as Hgen; [|by rewrite Hgen].
  induction json as [|e json IH]; intros st.
  - simpl. by rewrite app_nil_r.
  - rewrite (getEdges_cons e). cbn [foldl].
    rewrite IH, checkInput_errors, filter_app, fmap_app, app_assoc.
    do 3 f_equal.
Qed.

Lemma errors_of_validateConnections (json : ComfyWorkflowJson) :
  Validators.errors (Validators.validateConnections json)
  = danglingError <$> filter (λ edge, sourceNodeId edge ∉ obj_keys json) (getEdges json).
Proof.
  unfold Validators.validateConnections.
  pose proof (checkNodes_errors (Set_of (obj_keys json)) json) as Hc.
  destruct (Validators.checkNodes (Set_of (obj_keys json)) json) as [errs refd].
  simpl in *. rewrite Hc. f_equal. apply list_filter_iff. intros edge.
  by rewrite Set_of_elem.
Qed.

Lemma valid_iff (json : ComfyWorkflowJson) :
  Validators.valid (Validators.validateConnections json) = true
  ↔ ∀ edge, edge ∈ getEdges json → sourceNodeId edge ∈ obj_keys json.
Proof.
  assert (Validators.valid (Validators.validateConnections json)
          = bool_decide (length (Validators.errors (Validators.validateConnections json)) = 0))
    as ->.
  { unfold Validators.validateConnections.
    by destruct (Validators.checkNodes (Set_of (obj_keys json)) json). }
  rewrite bool_decide_eq_true, errors_of_validateConnections, length_fmap. split.
  - intros Hlen%nil_length_inv edge Hedge.
    destruct (decide (sourceNodeId edge ∈ obj_keys json)) as [|Hout]; [done|].
    exfalso. eapply filter_nil_not_elem_of; [exact Hlen|exact Hout|exact Hedge].
  - intros Hall. rewrite filter_none; [done|]. intros edge Hedge Hout. by apply Hout, Hall.
Qed.

(** X11: [validateConnections] reports one error for each edge whose source is
    not a node of the workflow, in the order of [getEdges], naming the
    target node and input; the result is valid exactly when every edge has
    its source in the workflow. *)
Theorem validateConnections_errors (json : ComfyWorkflowJson) :
  Validators.errors (Validators.validateConnections json)
  = danglingError <$> filter (λ edge, sourceNodeId edge ∉ obj_keys json) (getEdges json)
  ∧ (Validators.valid (Validators.validateConnections json) = true
     ↔ ∀ edge, edge ∈ getEdges json → sourceNodeId edge ∈ obj_keys json).
Proof. split; [apply errors_of_validateConnections | apply valid_iff]. Qed.

(** * Referential integrity under the mutators *)

Lemma elem_of_obj_set {V} (o : list (string * V)) (k : string) (v : V) (x : string * V) :
  x ∈ obj_set k v o → x = (k, v) ∨ x ∈ o.
Proof.
  induction o as [|[k0 v0] o IH]; simpl.
  - intros ->%list_elem_of_singleton. by left.
  - case_decide.
    + intros [->|?]%elem_of_cons; [by left | right; by right].
    + intros [->|Hx]%elem_of_cons; [right; left|].
      destruct (IH Hx) as [->|?]; [by left | right; by right].
Qed.

Lemma elem_of_obj_delete {V} (o : list (string * V)) (k : string) (x : string * V) :
  x ∈ obj_delete k o → x ∈ o.
Proof. unfold obj_delete. by intros [_ ?]%list_elem_of_filter. Qed.

(** Replacing the inputs of a node by inputs whose connections were there
    or come from nodes of the workflow keeps every edge's source in it. *)
Lemma integrity_obj_set (nodes : ComfyWorkflowJson) (k : string) (node' : ComfyNode) :
  (∀ edge, edge ∈ getEdges nodes → sourceNodeId edge ∈ obj_keys nodes) →
  (∀ name src port, (name, VConnection src port) ∈ inputs node' → src ∈ obj_keys nodes) →
  ∀ edge, edge ∈ getEdges (obj_set k node' nodes) →
          sourceNodeId edge ∈ obj_keys (obj_set k node' nodes).
Proof.
  intros Hold Hnew edge (node & Hnode & Hin)%elem_of_getEdges.
  assert (sourceNodeId edge ∈ obj_keys nodes) as Hsrc.
  { apply elem_of_obj_set in Hnode as [[= _ ->]|Hnode]; [by eapply Hnew|].
    apply Hold, elem_of_getEdges. by exists node. }
  rewrite obj_keys_set. case_decide; [done|]. apply elem_of_app. by left.
Qed.

(** * Structural equivalence as a relation *)

Lemma valuesAgree_trans A va B vb C vc :
  valuesAgree A va B vb → valuesAgree B vb C vc → valuesAgree A va C vc.
Proof.
  unfold valuesAgree.
  destruct (asConnection va), (asConnection vb), (asConnection vc); try done; congruence.
Qed.



Lemma count_Permutation {X} `{EqDecision X} (l1 l2 : list X) :
  (∀ x, length (filter (λ y, y = x) l1) = length (filter (λ y, y = x) l2)) → l1 ≡ₚ l2.
Proof.
  revert l2. induction l1 as [|x l1 IH]; intros l2 Hcount.
  - destruct l2 as [|y l2]; [done|]. specialize (Hcount y).
    rewrite filter_nil, filter_cons_True in Hcount by done. done.
  - assert (x ∈ l2) as Hx.
    { specialize (Hcount x). rewrite filter_cons_True in Hcount by done.
      destruct (filter (λ y, y = x) l2) as [|z l] eqn:Hf; [done|].
      assert (z ∈ filter (λ y, y = x) l2) as Hz by (rewrite Hf; left).
      by apply list_elem_of_filter in Hz as [-> ?]. }
    apply elem_of_Permutation in Hx as [l2' Hl2]. rewrite Hl2. f_equiv.
    apply IH. intros y. specialize (Hcount y). rewrite Hl2 in Hcount.
    rewrite !filter_cons in Hcount. case_decide; simpl in Hcount; lia.
Qed.

(** X18: equivalent workflows have the same class tags with the same
    multiplicities, hence the same number of nodes. *)
Theorem equivalent_same_classes (A B : ComfyWorkflowJson) :
  isStructurallyEquivalentTo A B = true →
  (∀ ct, length (findNodesByType ct A) = length (findNodesByType ct B))
  ∧ (λ e, class_type e.2) <$> A ≡ₚ (λ e, class_type e.2) <$> B
  ∧ getNodeCount A = getNodeCount B.
Proof.
  unfold isStructurallyEquivalentTo. rewrite bool_decide_eq_true.
  intros Hnil%nil_length_inv. rewrite getStructuralDiff_nil in Hnil.
  assert (∀ ct, length (findNodesByType ct A) = length (findNodesByType ct B)) as Hcount.
  { intros ct. specialize (Hnil ct). rewrite classDiffs_eq in Hnil. cbv zeta in Hnil.
    by case_decide. }
  assert ((λ e : string * ComfyNode, class_type e.2) <$> A
          ≡ₚ (λ e, class_type e.2) <$> B) as Hperm.
  { apply count_Permutation. intros ct. rewrite !filter_fmap, !length_fmap. apply Hcount. }
  split_and!; [done..|]. unfold getNodeCount, obj_keys.
  apply Permutation_length in Hperm. by rewrite !length_fmap in *.
Qed.

Lemma equivalent_same_classes_witness : getNodeCount wfImgs1 = getNodeCount wfImgs2.
Proof.
  exact (proj2 (proj2 (equivalent_same_classes wfImgs1 wfImgs2 eq_refl))).
Defined.

(** * The records of a structural diff *)

Lemma compareInput_shape this thisNode other otherNode name d :
  d ∈ compareInput this thisNode other otherNode name →
  (type d = input_mismatch ∨ type d = connection_mismatch)
  ∧ inputName d = Some name ∧ classType d = None.
Proof.
  unfold compareInput.
  repeat case_match; try (by intros ?%elem_of_nil);
    intros ->%list_elem_of_singleton; simpl; auto.
Qed.

Lemma compareNodeInputs_shape this thisNode other otherNode d :
  d ∈ compareNodeInputs this thisNode other otherNode →
  (type d = input_mismatch ∨ type d = connection_mismatch)
  ∧ (∃ name, inputName d = Some name
             ∧ name ∈ obj_keys (inputs thisNode) ++ obj_keys (inputs otherNode)).
Proof.
  unfold compareNodeInputs. intros (name & Hd & Hname)%list_elem_of_bind.
  apply compareInput_shape in Hd as (? & ? & _). split; [done|].
  exists name. split; [done|]. by apply Set_of_elem.
Qed.

Lemma findBestNodeMatching_shape this thisNodes other otherNodes d :
  d ∈ findBestNodeMatching this thisNodes other otherNodes →
  (type d = input_mismatch ∨ type d = connection_mismatch) ∧ is_Some (inputName d).
Proof.
  unfold findBestNodeMatching. destruct (matchLoop _ _) as [[|i ?] [|j ?]];
    try (by intros ?%elem_of_nil).
  destruct (thisNodes !! i), (otherNodes !! j); try (by intros ?%elem_of_nil).
  intros (? & name & -> & _)%compareNodeInputs_shape. split; [done | by eexists].
Qed.

(** X20: every record of a structural diff carries the class type of a node of
    one of the two workflows, and is a count mismatch without input name, or
    an input or connection mismatch with an input name; the types
    [missing_node_type] and [extra_node_type] are never produced. *)
Theorem getStructuralDiff_records (A B : ComfyWorkflowJson) (d : StructuralDiff) :
  d ∈ getStructuralDiff A B →
  (∃ ct, classType d = Some ct
         ∧ (findNodesByType ct A ≠ [] ∨ findNodesByType ct B ≠ []))
  ∧ (type d = class_type_count_mismatch ∧ inputName d = None
     ∨ (type d = input_mismatch ∨ type d = connection_mismatch) ∧ is_Some (inputName d))
  ∧ type d ≠ missing_node_type ∧ type d ≠ extra_node_type.
Proof.
  unfold getStructuralDiff. intros (ct & Hd & Hct)%list_elem_of_bind.
  apply allClassTypes_elem in Hct.
  assert (type d = class_type_count_mismatch ∧ inputName d = None
          ∨ (type d = input_mismatch ∨ type d = connection_mismatch)
            ∧ is_Some (inputName d)) as Hshape.
  { revert Hd. unfold classDiffs. repeat case_decide.
    - intros ->%list_elem_of_singleton. by left.
    - repeat case_match; try (by intros ?%elem_of_nil).
      intros (d' & -> & (? & name & ? & _)%compareNodeInputs_shape)%list_elem_of_fmap.
      right. simpl. split; [done | by eexists].
    - intros (d' & -> & ?%findBestNodeMatching_shape)%list_elem_of_fmap. by right.
    - by intros ?%elem_of_nil. }
  split_and!.
  - exists ct. split; [by eapply classDiffs_classType | done].
  - done.
  - destruct Hshape as [[-> _]|[[->| ->] _]]; done.
  - destruct Hshape as [[-> _]|[[->| ->] _]]; done.
Qed.

Lemma getStructuralDiff_records_witness :
  type {| type := input_mismatch; classType := Some "KSampler"; inputName := Some "steps";
          expected := Some (VNumber 30); actual := Some (VNumber 20);
          details := "Input " +:+ dq +:+ "steps" +:+ dq +:+ ": expected 30, got 20" |}
  ≠ missing_node_type.
Proof.
  refine (proj1 (proj2 (proj2 (getStructuralDiff_records
            [("1", mkNode "KSampler" [("steps", VNumber 20)])]
            [("1", mkNode "KSampler" [("steps", VNumber 30)])] _ _)))).
  vm_compute. left.
Defined.

(** * Copies and sharing, for the other methods *)

Section shared_more.
Import Shared.

(** The addresses the nodes of a list hold. *)
Lemma cloneNodes_spec (ns : list (string * Node)) : ∀ st : list (string * Z),
  Forall (λ e, Forall (λ l, l < length st) (addresses (inputs e.2))) ns →
  ∃ extra,
    (cloneNodes st ns).1 = st ++ extra
    ∧ (λ e, (e.1, readNode (st ++ extra) e.2)) <$> (cloneNodes st ns).2
      = (λ e, (e.1, readNode st e.2)) <$> ns
    ∧ Forall (λ e, Forall (λ l, length st ≤ l < length (st ++ extra))
                          (addresses (inputs e.2)))
             (cloneNodes st ns).2.
Proof.
  induction ns as [|[id node] ns IH]; intros st Hwf.
  - exists []. rewrite app_nil_r. split_and!; [done..|]. constructor.
  - apply Forall_cons in Hwf as [Hnode Hns]. simpl in Hnode.
    destruct (cloneInputs_spec (inputs node) st Hnode) as (e1 & He1 & Hr1 & Hl1).
    destruct (IH (st ++ e1)) as (e2 & He2 & Hr2 & Hl2).
    { eapply Forall_impl; [exact Hns|]. intros e He. simpl in *.
      eapply Forall_impl; [exact He|]. intros l ?. simpl in *. rewrite length_app. lia. }
    cbn [cloneNodes fst snd]. rewrite He1.
    exists (e1 ++ e2). rewrite He2, <-!app_assoc. split_and!; [done| |].
    + rewrite !fmap_cons. cbn [fst snd]. rewrite app_assoc, Hr2. f_equal.
      * f_equal. unfold readNode. simpl. f_equal. rewrite <-Hr1.
        apply list_fmap_ext. intros _ [k v] Hin%list_elem_of_lookup_2. simpl. f_equal.
        apply readValue_app. intros l ->. rewrite Forall_forall in Hl1.
        eapply Hl1. unfold addresses. apply list_elem_of_bind.
        exists (k, VArray l). split; [left | done].
      * apply list_fmap_ext. intros _ [k n] Hin%list_elem_of_lookup_2. simpl. f_equal.
        unfold readNode. f_equal.
        apply list_fmap_ext. intros _ [k' v] Hk%list_elem_of_lookup_2. simpl. f_equal.
        apply readValue_app. intros l ->. rewrite Forall_forall in Hns.
        specialize (Hns _ Hin). simpl in Hns. rewrite Forall_forall in Hns. apply Hns.
        unfold addresses. apply list_elem_of_bind. exists (k', VArray l). split; [left | done].
    + constructor.
      * simpl. eapply Forall_impl; [exact Hl1|]. intros l. simpl. rewrite !length_app. lia.
      * eapply Forall_impl; [exact Hl2|]. intros e He. simpl in *.
        eapply Forall_impl; [exact He|]. intros l. simpl. rewrite !length_app. lia.
Qed.

(** What a deep copy of some of the nodes gives: the workflow is as before,
    the copies read as the nodes copied, and no write to an array of a copy
    reaches the workflow. *)
Lemma deep_copy_snapshot (w : World) (ns : list (string * Node)) :
  wf w → (∀ e, e ∈ ns → e ∈ nodes w) →
  let r := cloneNodes (store w) ns in
  let w' := {| store := r.1; nodes := nodes w |} in
  toJson w' = toJson w
  ∧ (λ e, (e.1, readNode (store w') e.2)) <$> r.2 = (λ e, (e.1, readNode (store w) e.2)) <$> ns
  ∧ ∀ e l s, e ∈ r.2 → l ∈ addresses (inputs e.2) → toJson (writeSource l s w') = toJson w'.
Proof.
  intros Hwf Hsub r w'. unfold wf in Hwf. rewrite Forall_forall in Hwf.
  destruct (cloneNodes_spec ns (store w)) as (extra & Hst & Hread & Haddr).
  { apply Forall_forall. intros e He. by apply Hwf, Hsub. }
  fold r in Hst, Hread, Haddr.
  assert (toJson w' = toJson w) as Hsame.
  { unfold toJson, w'. simpl. rewrite Hst.
    apply list_fmap_ext. intros _ [id n] Hin%list_elem_of_lookup_2. simpl. f_equal.
    unfold readNode. f_equal.
    apply list_fmap_ext. intros _ [k v] Hk%list_elem_of_lookup_2. simpl. f_equal.
    apply readValue_app. intros l ->.
    specialize (Hwf _ Hin). simpl in Hwf. rewrite Forall_forall in Hwf. apply Hwf.
    unfold addresses. apply list_elem_of_bind. exists (k, VArray l). split; [left | done]. }
  split; [exact Hsame|]. split.
  - unfold w'. simpl. by rewrite Hst.
  - intros e l s He Hl. apply toJson_writeSource_fresh. simpl. intros e' He' Hl'.
    rewrite Forall_forall in Haddr. specialize (Haddr _ He).
    rewrite Forall_forall in Haddr. apply Haddr in Hl.
    specialize (Hwf _ He'). rewrite Forall_forall in Hwf. apply Hwf in Hl'. lia.
Qed.

End shared_more.

(** X22: [getNodes] and [findNodesByType] return snapshots: the call leaves the
    workflow as it is, what is returned reads as the nodes stored (all of
    them, or those of the class type, in order), and no write to an array
    of a returned node reaches the workflow. *)
Theorem getNodes_findNodesByType_snapshot (w : Shared.World) (classType : string) :
  Shared.wf w →
  (let r := Shared.getNodes w in
   Shared.toJson r.1 = Shared.toJson w
   ∧ (λ e, (e.1, Shared.readNode (Shared.store r.1) e.2)) <$> r.2 = Shared.toJson w
   ∧ ∀ e l s, e ∈ r.2 → l ∈ Shared.addresses (Shared.inputs e.2) →
              Shared.toJson (Shared.writeSource l s r.1) = Shared.toJson r.1)
  ∧ (let r := Shared.findNodesByType classType w in
     Shared.toJson r.1 = Shared.toJson w
     ∧ (λ e, (e.1, Shared.readNode (Shared.store r.1) e.2)) <$> r.2
       = findNodesByType classType (Shared.toJson w)
     ∧ ∀ e l s, e ∈ r.2 → l ∈ Shared.addresses (Shared.inputs e.2) →
                Shared.toJson (Shared.writeSource l s r.1) = Shared.toJson r.1).
Proof.
  intros Hwf. split.
  - destruct (deep_copy_snapshot w (Shared.nodes w) Hwf) as (H1 & H2 & H3); [done|].
    unfold Shared.getNodes. cbv zeta. simpl in *. by rewrite H2.
  - destruct (deep_copy_snapshot w
                (filter (λ e, Shared.class_type e.2 = classType) (Shared.nodes w)) Hwf)
      as (H1 & H2 & H3).
    { by intros e [_ ?]%list_elem_of_filter. }
    unfold Shared.findNodesByType. cbv zeta. simpl in *. split_and!; [done| |done].
    rewrite H2. unfold findNodesByType, Shared.toJson. by rewrite filter_fmap.
Qed.

Lemma getNodes_findNodesByType_snapshot_witness :
  Shared.toJson
    (Shared.getNodes
       {| Shared.store := [("1", 0%Z)];
          Shared.nodes :=
            [ ("1", {| Shared.inputs := []; Shared.class_type := "VAELoader";
                       Shared._meta := None |});
              ("2", {| Shared.inputs := [("vae", Shared.VArray 0)];
                       Shared.class_type := "VAEEncode"; Shared._meta := None |}) ] |}).1
  = [ ("1", mkNode "VAELoader" []);
      ("2", mkNode "VAEEncode" [("vae", VConnection "1" 0)]) ].
Proof.
  refine (proj1 (proj1 (getNodes_findNodesByType_snapshot
            {| Shared.store := [("1", 0%Z)];
               Shared.nodes :=
                 [ ("1", {| Shared.inputs := []; Shared.class_type := "VAELoader";
                            Shared._meta := None |});
                   ("2", {| Shared.inputs := [("vae", Shared.VArray 0)];
                            Shared.class_type := "VAEEncode"; Shared._meta := None |}) ] |}
            "VAEEncode" _))).
  apply (bool_decide_unpack _); vm_compute; exact I.
Defined.

(** X23: [setInput] and [addNode] store the array they are given: when the call
    returns, the input reads as that very array, and a later write by the
    caller to the array changes the workflow. *)
Theorem setInput_addNode_share_array (w w' : Shared.World) (nodeId name s s0 : string)
    (l : nat) (p : Z) :
  (Shared.setInput nodeId name (Shared.VArray l) w = Returns w'
   ∨ ∃ classType ins, Shared.addNode classType ins nodeId w = Some w'
                      ∧ obj_get ins name = Some (Shared.VArray l)) →
  Shared.store w' !! l = Some (s0, p) → s ≠ s0 →
  Shared.getInput nodeId name w' = Some (Shared.VArray l)
  ∧ Shared.toJson (Shared.writeSource l s w') ≠ Shared.toJson w'.
Proof.
  intros Hcall Hl Hne.
  assert (Shared.getInput nodeId name w' = Some (Shared.VArray l)) as Hget.
  { destruct Hcall as [Hset|(classType & ins & Hadd & Hins)].
    - unfold Shared.setInput in Hset.
      destruct (obj_get (Shared.nodes w) nodeId) as [node|]; [|done].
      case_decide; [done|].
      injection Hset as <-. unfold Shared.getInput. simpl.
      rewrite obj_get_set, decide_True by done. simpl. by rewrite obj_get_set, decide_True.
    - unfold Shared.addNode in Hadd.
      destruct (obj_get (Shared.nodes w) nodeId) as [node|]; [done|].
      case_decide; [done|].
      injection Hadd as <-. unfold Shared.getInput. simpl.
      by rewrite obj_get_set, decide_True. }
  split; [done|]. by eapply getInput_aliases.
Qed.

Lemma setInput_addNode_share_array_witness :
  Shared.toJson
    (Shared.writeSource 0 "99"
       {| Shared.store := [("1", 0%Z)];
          Shared.nodes :=
            [ ("1", {| Shared.inputs := []; Shared.class_type := "VAELoader";
                       Shared._meta := None |});
              ("2", {| Shared.inputs := [("vae", Shared.VArray 0)];
                       Shared.class_type := "VAEEncode"; Shared._meta := None |}) ] |})
  ≠ [ ("1", mkNode "VAELoader" []);
      ("2", mkNode "VAEEncode" [("vae", VConnection "1" 0)]) ].
Proof.
  refine (proj2 (setInput_addNode_share_array
            {| Shared.store := [("1", 0%Z)];
               Shared.nodes :=
                 [ ("1", {| Shared.inputs := []; Shared.class_type := "VAELoader";
                            Shared._meta := None |});
                   ("2", {| Shared.inputs := []; Shared.class_type := "VAEEncode";
                            Shared._meta := None |}) ] |}
            _ "2" "vae" "99" "1" 0 0 (or_introl eq_refl) eq_refl _)).
  intros [=].
Defined.

(** * The edge queries *)

Lemma getEdges_input (nodes : ComfyWorkflowJson) (edge : Edge) :
  wf_workflow nodes →
  edge ∈ getEdges nodes
  ↔ getInput (targetNodeId edge) (targetInputName edge) nodes
    = Some (VConnection (sourceNodeId edge) (sourcePort edge)).
Proof.
  intros [Hnodes Hins]. rewrite elem_of_getEdges. unfold getInput. split.
  - intros (node & Hnode & Hi). rewrite (obj_get_NoDup _ _ _ Hnodes Hnode).
    apply obj_get_NoDup; [|done]. rewrite Forall_forall in Hins. apply (Hins _ Hnode).
  - destruct (obj_get nodes (targetNodeId edge)) as [node|] eqn:Hnode; [|done].
    intros Hi. exists node. split; by apply obj_get_Some_elem.
Qed.

Lemma getEdges_target (nodes : ComfyWorkflowJson) (edge : Edge) :
  edge ∈ getEdges nodes → targetNodeId edge ∈ obj_keys nodes.
Proof.
  intros (node & Hnode & _)%elem_of_getEdges.
  unfold obj_keys. apply list_elem_of_fmap. by exists (targetNodeId edge, node).
Qed.

Lemma getEdges_by_target (nodes : ComfyWorkflowJson) :
  wf_nodes nodes → getEdges nodes = obj_keys nodes ≫= (λ tgt, getEdgesTo tgt nodes).
Proof.
  unfold wf_nodes, getEdgesTo.
  induction nodes as [|e nodes IH]; [done|]. unfold obj_keys. rewrite fmap_cons.
  intros [He Hnd]%NoDup_cons. rewrite bind_cons. fold (obj_keys nodes) in *.
  rewrite (getEdges_cons e) at 2. rewrite filter_app.
  rewrite (getEdges_cons e) at 1. rewrite <-app_assoc. f_equal.
  - apply eq_sym, filter_all. intros edge Hedge%getEdges_target.
    cbn in Hedge. by apply list_elem_of_singleton in Hedge.
  - rewrite (filter_none _ (getEdges nodes)); last first.
    { intros edge Hedge%getEdges_target Heq. apply He. by rewrite <-Heq. }
    rewrite app_nil_l. rewrite (IH Hnd) at 1. apply bind_ext_in. intros tgt Htgt.
    rewrite (getEdges_cons e), filter_app, (filter_none _ (getEdges [e])); [done|].
    intros edge Hedge%getEdges_target Heq. cbn in Hedge.
    apply list_elem_of_singleton in Hedge. apply He. congruence.
Qed.

Lemma getEdges_NoDup (nodes : ComfyWorkflowJson) : wf_workflow nodes → NoDup (getEdges nodes).
Proof.
  intros [Hnodes Hins]. unfold getEdges. apply NoDup_bind.
  - intros [k1 n1] [k2 n2] edge H1 H2 (i1 & He1 & _)%list_elem_of_bind
      (i2 & He2 & _)%list_elem_of_bind. simpl in *.
    destruct i1 as [name1 v1], i2 as [name2 v2]. simpl in *.
    destruct v1; simpl in He1; try (by apply elem_of_nil in He1).
    destruct v2; simpl in He2; try (by apply elem_of_nil in He2).
    apply list_elem_of_singleton in He1, He2. subst edge. injection He2 as _ _ -> _.
    f_equal. apply (obj_get_NoDup _ _ _ Hnodes) in H1, H2. congruence.
  - intros [k node] Hnode. simpl. rewrite Forall_forall in Hins.
    specialize (Hins _ Hnode). simpl in Hins. apply NoDup_bind.
    + intros i1 i2 edge H1 H2 He1 He2.
      destruct i1 as [name1 v1], i2 as [name2 v2]. simpl in *.
      destruct v1; simpl in He1; try (by apply elem_of_nil in He1).
      destruct v2; simpl in He2; try (by apply elem_of_nil in He2).
      apply list_elem_of_singleton in He1, He2. subst edge. by injection He2 as -> -> ->.
    + intros [name v] _. simpl. destruct v; simpl;
        first [apply NoDup_singleton | apply NoDup_nil_2].
    + by apply NoDup_fmap_1 in Hins.
  - by apply NoDup_fmap_1 in Hnodes.
Qed.



(** * Values of type [unknown] *)

Lemma Untyped_asConnection_of (value : InputValue) :
  Untyped.asConnection (Untyped.ofInputValue value) = asConnection (Some value).
Proof. by destruct value. Qed.

Lemma Untyped_checkInput_of (nodeIds : list string) (nodeId : string)
    (ins : list (string * InputValue)) (st : list Validators.ValidationError * list string) :
  foldl (Untyped.checkInput nodeIds nodeId) st ((λ i, (i.1, Untyped.ofInputValue i.2)) <$> ins)
  = foldl (Validators.checkInput nodeIds nodeId) st ins.
Proof.
  revert st. induction ins as [|[name v] ins IH]; intros st; csimpl; [done|].
  rewrite IH. f_equal. unfold Untyped.checkInput. simpl.
  rewrite Untyped_asConnection_of. unfold Validators.checkInput. simpl.
  by destruct v.
Qed.

Lemma Untyped_checkNodes_of (nodeIds : list string) (nodes : ComfyWorkflowJson)
    (st : list Validators.ValidationError * list string) :
  Untyped.checkNodes nodeIds st ((λ e, (e.1, Untyped.ofComfyNode e.2)) <$> nodes)
  = Some (foldl (λ st e, foldl (Validators.checkInput nodeIds e.1) st (inputs e.2)) st nodes).
Proof.
  revert st. induction nodes as [|[id node] nodes IH]; intros st; csimpl; [done|].
  rewrite Untyped_checkInput_of. apply IH.
Qed.

Lemma isComfyNode_of (node : ComfyNode) : Untyped.isComfyNode (Untyped.ofComfyNode node) = true.
Proof. done. Qed.

Lemma isComfyWorkflowJson_of (nodes : ComfyWorkflowJson) :
  Untyped.isComfyWorkflowJson (Untyped.ofComfyWorkflowJson nodes) = true.
Proof.
  unfold Untyped.isComfyWorkflowJson, Untyped.ofComfyWorkflowJson, Untyped.Object_values.
  simpl. apply forallb_forall. intros v Hv. apply list_elem_of_In in Hv.
  rewrite <-list_fmap_compose in Hv. apply list_elem_of_fmap in Hv as (e & -> & _).
  apply isComfyNode_of.
Qed.

(** X15: on a workflow of the types of [types.ts], [validateWorkflow] passes the
    structure check and returns what [validateConnections] returns. *)
Theorem validateWorkflow_typed (nodes : ComfyWorkflowJson) :
  Untyped.validateWorkflowStructure (Untyped.ofComfyWorkflowJson nodes)
  = {| Validators.valid := true; Validators.errors := []; Validators.warnings := [] |}
  ∧ Untyped.validateConnections (Untyped.ofComfyWorkflowJson nodes)
    = Some (Validators.validateConnections nodes)
  ∧ Untyped.validateWorkflow (Untyped.ofComfyWorkflowJson nodes)
    = Some (Validators.validateConnections nodes).
Proof.
  assert (Untyped.validateConnections (Untyped.ofComfyWorkflowJson nodes)
          = Some (Validators.validateConnections nodes)) as Hconn.
  { unfold Untyped.validateConnections, Untyped.ofComfyWorkflowJson. cbn [Untyped.Object_entries].
    cbn [mbind option_bind]. rewrite <-list_fmap_compose.
    change ((λ e : string * ComfyNode, (e.1, Untyped.ofComfyNode e.2)) <$> nodes)
      with ((λ e : string * ComfyNode, (e.1, Untyped.ofComfyNode e.2)) <$> nodes).
    rewrite Untyped_checkNodes_of. cbn [mbind option_bind].
    unfold Validators.validateConnections, Validators.checkNodes, obj_keys.
    replace (fst ∘ (λ e : string * ComfyNode, (e.1, Untyped.ofComfyNode e.2)) <$> nodes)
      with (nodes.*1) by (by apply list_fmap_ext).
    by destruct (foldl _ _ nodes). }
  unfold Untyped.validateWorkflow, Untyped.validateWorkflowStructure.
  rewrite isComfyWorkflowJson_of. simpl. split; [done|]. split; [done|].
  rewrite Hconn. simpl. by destruct (Validators.validateConnections nodes).
Qed.

Lemma checkNodes_guarded (nodeIds : list string) (entries : list (string * Untyped.Unknown))
    (st : list Validators.ValidationError * list string) :
  forallb Untyped.isComfyNode entries.*2 = true →
  is_Some (Untyped.checkNodes nodeIds st entries).
Proof.
  revert st. induction entries as [|[id node] entries IH]; intros st; csimpl; [done|].
  intros [Hnode Hrest]%andb_true_iff. unfold Untyped.isComfyNode in Hnode.
  destruct node as [| | | |l|o]; try done; simpl in Hnode.
  apply andb_true_iff in Hnode as [_ Hnode]. simpl.
  destruct (obj_get o "inputs") as [[| | | |l'|o']|]; try done; simpl; by apply IH.
Qed.

(** X16: [validateWorkflow] never throws.  When the structure check fails the
    result is invalid with one error and no warning; when it passes,
    [validateConnections] does not throw on the value, and the result is
    its result. *)
Theorem validateWorkflow_total (json : Untyped.Unknown) :
  ∃ result,
    Untyped.validateWorkflow json = Some result
    ∧ (Untyped.isComfyWorkflowJson json = false →
       Validators.valid result = false ∧ length (Validators.errors result) = 1
       ∧ Validators.warnings result = [])
    ∧ (Untyped.isComfyWorkflowJson json = true →
       Untyped.validateConnections json = Some result).
Proof.
  unfold Untyped.validateWorkflow, Untyped.validateWorkflowStructure.
  destruct (Untyped.isComfyWorkflowJson json) eqn:Hguard; simpl.
  - assert (is_Some (Untyped.validateConnections json)) as [result Hresult].
    { unfold Untyped.isComfyWorkflowJson, Untyped.Object_values in Hguard.
      unfold Untyped.validateConnections.
      destruct json as [| | | |l|o]; try done; simpl in *.
      - destruct (checkNodes_guarded (Set_of (imap (λ i x, (pretty i, x)) l).*1)
                    (imap (λ i x, (pretty i, x)) l) ([], []) Hguard) as [st ->]. done.
      - destruct (checkNodes_guarded (Set_of o.*1) o ([], []) Hguard) as [st ->]. done. }
    rewrite Hresult. simpl. exists result. destruct result. done.
  - eexists. split; [done|]. done.
Qed.

(** * The example workflow *)

(** X24: whatever the options, [createSDXLWorkflow] does not throw; it builds
    seven nodes with the ids 1 to 7 and nine edges, every edge between two
    of the nodes; [validateConnections] finds the workflow valid and warns
    of no isolated node; and the structure check of [validateWorkflow]
    accepts it. *)
Theorem createSDXLWorkflow_valid (options : SdxlWorkflow.Options) (random : Z) :
  ∃ nodes,
    SdxlWorkflow.createSDXLWorkflow options random = Some nodes
    ∧ obj_keys nodes = ["1"; "2"; "3"; "4"; "5"; "6"; "7"]
    ∧ (λ e, class_type e.2) <$> nodes
      = [ "CheckpointLoaderSimple"; "CLIPTextEncode"; "CLIPTextEncode"; "EmptyLatentImage";
          "KSampler"; "VAEDecode"; "SaveImage" ]
    ∧ (λ edge, (sourceNodeId edge, sourcePort edge, targetNodeId edge, targetInputName edge))
        <$> getEdges nodes
      = [ ("1", 1%Z, "2", "clip"); ("1", 1%Z, "3", "clip");
          ("1", 0%Z, "5", "model"); ("2", 0%Z, "5", "positive");
          ("3", 0%Z, "5", "negative"); ("4", 0%Z, "5", "latent_image");
          ("5", 0%Z, "6", "samples"); ("1", 2%Z, "6", "vae"); ("6", 0%Z, "7", "images") ]
    ∧ Validators.validateConnections nodes
      = {| Validators.valid := true; Validators.errors := []; Validators.warnings := [] |}
    ∧ Untyped.validateWorkflow (Untyped.ofComfyWorkflowJson nodes)
      = Some {| Validators.valid := true; Validators.errors := [];
                Validators.warnings := [] |}.
Proof.
  let r := eval vm_compute in (SdxlWorkflow.createSDXLWorkflow options random) in
  match r with
  | Some ?nodes => exists nodes
  end.
  split_and!; vm_compute; reflexivity.
Qed.

(** * Loops that assign inputs *)

Lemma forEach_ext {X S} (body body' : X → S → option S) (xs : list X) (s : S) :
  (∀ x s, body x s = body' x s) → forEach body xs s = forEach body' xs s.
Proof.
  intros Hext. revert s. induction xs as [|x xs IH]; intros s; simpl; [done|].
  rewrite Hext. destruct (body' x s); simpl; [apply IH | done].
Qed.

Lemma obj_ext {V} (a b : list (string * V)) :
  obj_keys a = obj_keys b → NoDup (obj_keys a) → (∀ k, obj_get a k = obj_get b k) → a = b.
Proof.
  unfold obj_keys. revert b. induction a as [|[k v] a IH]; intros [|[k' v'] b]; csimpl; try done.
  intros [= <- Hkeys] [Hk Hnd]%NoDup_cons Hget. f_equal.
  - f_equal. specialize (Hget k). simpl in Hget. rewrite !decide_True in Hget by done.
    by injection Hget.
  - apply IH; [done..|]. intros k0. specialize (Hget k0). simpl in Hget.
    destruct (decide (k = k0)) as [<-|Hne]; [|done].
    assert (obj_get a k = None) as -> by by apply obj_get_None.
    symmetry. apply obj_get_None. unfold obj_keys. by rewrite <-Hkeys.
Qed.

Lemma withInputs_nil (node : ComfyNode) : withInputs [] node = node.
Proof. by destruct node. Qed.

Lemma setInput_Some (id name : string) (value : InputValue) (w : ComfyWorkflowJson)
    (node : ComfyNode) :
  obj_get w id = Some node →
  setInput id name value w
  = Some (obj_set id {| inputs := obj_set name value (inputs node);
                        class_type := class_type node; _meta := _meta node |} w).
Proof. intros Hnode. unfold setInput. by rewrite Hnode. Qed.

(** The inner loop: the assignments to one node. *)
Lemma setInputs_node (id : string) (ins : list (string * InputValue))
    (w : ComfyWorkflowJson) (node : ComfyNode) :
  obj_get w id = Some node →
  ∃ w', forEach (λ a w, setInput id a.1 a.2 w) ins w = Some w'
        ∧ obj_keys w' = obj_keys w
        ∧ ∀ k, obj_get w' k = if decide (id = k) then Some (withInputs ins node)
                              else obj_get w k.
Proof.
  revert w node. induction ins as [|a ins IH]; intros w node Hnode; cbn [forEach].
  - exists w. split_and!; [done..|]. intros k. case_decide; [|done].
    subst k. by rewrite withInputs_nil.
  - rewrite (setInput_Some _ _ _ _ _ Hnode). cbn [mbind option_bind].
    set (node1 := {| inputs := obj_set a.1 a.2 (inputs node);
                     class_type := class_type node; _meta := _meta node |}).
    destruct (IH (obj_set id node1 w) node1) as (w' & Hrun & Hkeys & Hget).
    { by rewrite obj_get_set, decide_True. }
    exists w'. split_and!; [done| |].
    + rewrite Hkeys, obj_keys_set, decide_True; [done|].
      apply obj_get_is_Some. by rewrite Hnode.
    + intros k. rewrite Hget, obj_get_set. by case_decide.
Qed.

(** The outer loop over a snapshot of nodes. *)
Lemma forEach_assign (assign : string * ComfyNode → list (string * InputValue))
    (l : list (string * ComfyNode)) (w : ComfyWorkflowJson) :
  NoDup (obj_keys l) → (∀ e, e ∈ l → is_Some (obj_get w e.1)) →
  ∃ w', forEach (λ e w, forEach (λ a w, setInput e.1 a.1 a.2 w) (assign e) w) l w = Some w'
        ∧ obj_keys w' = obj_keys w
        ∧ ∀ k, obj_get w' k
               = (λ node, match obj_get l k with
                          | Some sn => withInputs (assign (k, sn)) node
                          | None => node
                          end) <$> obj_get w k.
Proof.
  unfold obj_keys at 1. revert w. induction l as [|[id sn] l IH]; intros w Hnd Hin; csimpl.
  - exists w. split_and!; [done..|]. intros k. by destruct (obj_get w k).
  - apply NoDup_cons in Hnd as [Hid Hnd].
    destruct (Hin (id, sn)) as [node Hnode]; [left|]. simpl in Hnode.
    destruct (setInputs_node id (assign (id, sn)) w node Hnode) as (w1 & -> & Hk1 & Hg1).
    simpl.
    destruct (IH w1 Hnd) as (w' & Hrun & Hkeys & Hget).
    { intros e He. apply obj_get_is_Some. rewrite Hk1. apply obj_get_is_Some, Hin. by right. }
    exists w'. split_and!; [done|congruence|].
    intros k. rewrite Hget, Hg1. destruct (decide (id = k)) as [<-|Hne].
    + rewrite Hnode. simpl. f_equal.
      assert (obj_get l id = None) as -> by by apply obj_get_None.
      done.
    + by destruct (obj_get w k).
Qed.

Lemma assignInputs_keys classType assign (w : ComfyWorkflowJson) :
  obj_keys (assignInputs classType assign w) = obj_keys w.
Proof.
  exact (obj_keys_fmap (λ n, if decide (class_type n = classType)
                             then withInputs (assign n) n else n) w).
Qed.

Lemma assignInputs_get classType assign (w : ComfyWorkflowJson) (k : string) :
  obj_get (assignInputs classType assign w) k
  = (λ n, if decide (class_type n = classType) then withInputs (assign n) n else n)
      <$> obj_get w k.
Proof.
  exact (obj_get_fmap (λ n, if decide (class_type n = classType)
                            then withInputs (assign n) n else n) w k).
Qed.

Lemma findNodesByType_get (classType : string) (w : ComfyWorkflowJson) (k : string) :
  wf_nodes w →
  obj_get (findNodesByType classType w) k
  = match obj_get w k with
    | Some n => if decide (class_type n = classType) then Some n else None
    | None => None
    end.
Proof.
  unfold wf_nodes, obj_keys, findNodesByType.
  induction w as [|[k0 n0] w IH]; csimpl; [done|].
  intros [Hk0 Hnd]%NoDup_cons. rewrite filter_cons. simpl.
  destruct (decide (k0 = k)) as [->|Hne].
  - destruct (decide (class_type n0 = classType)); simpl; [by rewrite decide_True|].
    rewrite IH by done.
    assert (obj_get w k = None) as -> by by apply obj_get_None.
    done.
  - destruct (decide (class_type n0 = classType)); simpl; [rewrite decide_False by done|];
      by apply IH.
Qed.

(** Over the nodes of a class type, the loop is a map. *)
Lemma forEach_assignInputs (classType : string)
    (assign : ComfyNode → list (string * InputValue)) (w : ComfyWorkflowJson)
    (body : string * ComfyNode → ComfyWorkflowJson → option ComfyWorkflowJson) :
  wf_nodes w →
  (∀ e w, body e w = forEach (λ a w, setInput e.1 a.1 a.2 w) (assign e.2) w) →
  forEach body (findNodesByType classType w) w = Some (assignInputs classType assign w).
Proof.
  intros Hwf Hbody. rewrite (forEach_ext _ _ _ _ Hbody).
  destruct (forEach_assign (λ e, assign e.2) (findNodesByType classType w) w)
    as (w' & -> & Hkeys & Hget).
  { unfold findNodesByType, obj_keys. apply (NoDup_fmap_2_strong fst).
    - intros e1 e2 [_ H1]%list_elem_of_filter [_ H2]%list_elem_of_filter.
      by apply (NoDup_keys_inj w).
    - apply NoDup_filter. by apply NoDup_fmap_1 in Hwf. }
  { intros e [_ He]%list_elem_of_filter. apply obj_get_is_Some.
    unfold obj_keys. apply list_elem_of_fmap. by exists e. }
  f_equal. apply obj_ext.
  - by rewrite Hkeys, assignInputs_keys.
  - by rewrite Hkeys.
  - intros k. rewrite Hget, assignInputs_get. destruct (obj_get w k) as [node|] eqn:Hk; [|done].
    simpl. f_equal.
    rewrite findNodesByType_get, Hk by done. by case_decide.
Qed.

Lemma elem_of_Object_assign {V} (target source : list (string * V)) (x : string * V) :
  x ∈ Object_assign target source → x ∈ source ∨ x ∈ target.
Proof.
  unfold Object_assign. revert target.
  induction source as [|a source IH]; intros target; simpl; [by right|].
  intros [Hin|Hin]%IH; [left; by right|].
  apply elem_of_obj_set in Hin as [->|?]; [|by right].
  left. destruct a. left.
Qed.

(** Assigning values that are not connections keeps every edge's source in
    the workflow. *)
Lemma valid_assignInputs (classType : string)
    (assign : ComfyNode → list (string * InputValue)) (w : ComfyWorkflowJson) :
  (∀ node a, a ∈ assign node → asConnection (Some a.2) = None) →
  Validators.valid (Validators.validateConnections w) = true →
  Validators.valid (Validators.validateConnections (assignInputs classType assign w)) = true.
Proof.
  intros Hlit. rewrite !valid_iff. intros Hvalid edge (node' & Hnode' & Hin)%elem_of_getEdges.
  rewrite assignInputs_keys. unfold assignInputs in Hnode'.
  apply list_elem_of_fmap in Hnode' as ([k node] & [= Hk ->] & Hnode). simpl in *.
  assert ((targetInputName edge, VConnection (sourceNodeId edge) (sourcePort edge))
          ∈ inputs node) as Hold.
  { destruct (decide (class_type node = classType)); [|done].
    simpl in Hin. apply elem_of_Object_assign in Hin as [Hin|Hin]; [|done].
    by specialize (Hlit _ _ Hin). }
  apply Hvalid. apply elem_of_getEdges. exists node. by rewrite Hk.
Qed.

(** X25: on a workflow with distinct node ids no setter of the builder
    throws, and each is a map over the nodes: the nodes of its class type
    get the inputs assigned (for [setPrompt], according to the title of the
    node), every other node and the order of the nodes are as before.  Such
    an assignment of literals keeps the node ids and keeps a valid workflow
    valid.  The constructor accepts every workflow and [build] returns it. *)
Theorem builder_setters (this : SDXLWorkflowBuilder.Builder) :
  wf_nodes (SDXLWorkflowBuilder.workflow this) →
  let w := SDXLWorkflowBuilder.workflow this in
  let updated w' :=
    Some {| SDXLWorkflowBuilder.workflow := w';
            SDXLWorkflowBuilder.loraNodeId := SDXLWorkflowBuilder.loraNodeId this |} in
  (∀ ckptName,
     SDXLWorkflowBuilder.setCheckpoint ckptName this
     = updated (assignInputs "CheckpointLoaderSimple"
                             (λ _, [("ckpt_name", VString ckptName)]) w))
  ∧ (∀ positive negative,
       SDXLWorkflowBuilder.setPrompt positive negative this
       = updated (assignInputs "CLIPTextEncode"
                    (λ node,
                       if decide (SDXLWorkflowBuilder.titleOf node = "Positive Prompt")
                       then [("text", VString positive)]
                       else if decide (SDXLWorkflowBuilder.titleOf node = "Negative Prompt")
                            then [("text", VString negative)]
                            else []) w))
  ∧ (∀ width height,
       SDXLWorkflowBuilder.setSize width height this
       = updated (assignInputs "EmptyLatentImage"
                    (λ _, [("width", VNumber width); ("height", VNumber height)]) w))
  ∧ (∀ seed,
       SDXLWorkflowBuilder.setSeed seed this
       = updated (assignInputs "KSampler" (λ _, [("seed", VNumber seed)]) w))
  ∧ (∀ steps,
       SDXLWorkflowBuilder.setSteps steps this
       = updated (assignInputs "KSampler" (λ _, [("steps", VNumber steps)]) w))
  ∧ (∀ cfg,
       SDXLWorkflowBuilder.setCfg cfg this
       = updated (assignInputs "KSampler" (λ _, [("cfg", VNumber cfg)]) w))
  ∧ (∀ samplerName scheduler,
       SDXLWorkflowBuilder.setSampler samplerName scheduler this
       = updated (assignInputs "KSampler"
                    (λ _, [("sampler_name", VString samplerName);
                           ("scheduler", VString scheduler)]) w))
  ∧ (∀ classType assign,
       (∀ node a, a ∈ assign node → asConnection (Some a.2) = None) →
       obj_keys (assignInputs classType assign w) = obj_keys w
       ∧ (Validators.valid (Validators.validateConnections w) = true →
          Validators.valid (Validators.validateConnections
                              (assignInputs classType assign w)) = true))
  ∧ (∀ baseWorkflow,
       ∃ b, SDXLWorkflowBuilder.new baseWorkflow = Some b
            ∧ SDXLWorkflowBuilder.build b = baseWorkflow).
Proof.
  intros Hwf w updated.
  assert (∀ (f : string * InputValue → ComfyWorkflowJson → option ComfyWorkflowJson) a w0,
            f a w0 = forEach f [a] w0) as Hone.
  { intros f a w0. simpl. by destruct (f a w0). }
  assert (∀ (f : string * InputValue → ComfyWorkflowJson → option ComfyWorkflowJson) a b w0,
            (w1 ← f a w0; f b w1) = forEach f [a; b] w0) as Htwo.
  { intros f a b w0. simpl. destruct (f a w0) as [w1|]; simpl; [|done]. by destruct (f b w1). }
  split_and!.
  - intros ckptName. unfold SDXLWorkflowBuilder.setCheckpoint. fold w.
    rewrite (forEach_assignInputs _ (λ _, [("ckpt_name", VString ckptName)])); [done..|].
    intros e w0. apply (Hone (λ a w, setInput e.1 a.1 a.2 w) ("ckpt_name", VString ckptName)).
  - intros positive negative. unfold SDXLWorkflowBuilder.setPrompt. fold w.
    rewrite (forEach_assignInputs _
               (λ node,
                  if decide (SDXLWorkflowBuilder.titleOf node = "Positive Prompt")
                  then [("text", VString positive)]
                  else if decide (SDXLWorkflowBuilder.titleOf node = "Negative Prompt")
                       then [("text", VString negative)]
                       else [])); [done..|].
    intros e w0. simpl. repeat case_decide; try done.
    + apply (Hone (λ a w, setInput e.1 a.1 a.2 w) ("text", VString positive)).
    + apply (Hone (λ a w, setInput e.1 a.1 a.2 w) ("text", VString negative)).
  - intros width height. unfold SDXLWorkflowBuilder.setSize. fold w.
    rewrite (forEach_assignInputs _
               (λ _, [("width", VNumber width); ("height", VNumber height)])); [done..|].
    intros e w0. apply (Htwo (λ a w, setInput e.1 a.1 a.2 w)
                             ("width", VNumber width) ("height", VNumber height)).
  - intros seed. unfold SDXLWorkflowBuilder.setSeed. fold w.
    rewrite (forEach_assignInputs _ (λ _, [("seed", VNumber seed)])); [done..|].
    intros e w0. apply (Hone (λ a w, setInput e.1 a.1 a.2 w) ("seed", VNumber seed)).
  - intros steps. unfold SDXLWorkflowBuilder.setSteps. fold w.
    rewrite (forEach_assignInputs _ (λ _, [("steps", VNumber steps)])); [done..|].
    intros e w0. apply (Hone (λ a w, setInput e.1 a.1 a.2 w) ("steps", VNumber steps)).
  - intros cfg. unfold SDXLWorkflowBuilder.setCfg. fold w.
    rewrite (forEach_assignInputs _ (λ _, [("cfg", VNumber cfg)])); [done..|].
    intros e w0. apply (Hone (λ a w, setInput e.1 a.1 a.2 w) ("cfg", VNumber cfg)).
  - intros samplerName scheduler. unfold SDXLWorkflowBuilder.setSampler. fold w.
    rewrite (forEach_assignInputs _
               (λ _, [("sampler_name", VString samplerName);
                      ("scheduler", VString scheduler)])); [done..|].
    intros e w0. apply (Htwo (λ a w, setInput e.1 a.1 a.2 w)
                             ("sampler_name", VString samplerName)
                             ("scheduler", VString scheduler)).
  - intros classType assign Hlit. split; [apply assignInputs_keys|].
    by apply valid_assignInputs.
  - intros baseWorkflow. unfold SDXLWorkflowBuilder.new, fromJson.
    rewrite isComfyWorkflowJson_of. simpl. by eexists.
Qed.

Lemma builder_setters_witness :
  SDXLWorkflowBuilder.setSeed 42
    {| SDXLWorkflowBuilder.workflow :=
         [ ("1", mkNode "KSampler" [("seed", VNumber 1); ("steps", VNumber 20)]);
           ("2", mkNode "VAEDecode" [("samples", VConnection "1" 0)]);
           ("3", mkNode "KSampler" [("steps", VNumber 30)]) ];
       SDXLWorkflowBuilder.loraNodeId := None |}
  = Some {| SDXLWorkflowBuilder.workflow :=
              [ ("1", mkNode "KSampler" [("seed", VNumber 42); ("steps", VNumber 20)]);
                ("2", mkNode "VAEDecode" [("samples", VConnection "1" 0)]);
                ("3", mkNode "KSampler" [("steps", VNumber 30); ("seed", VNumber 42)]) ];
            SDXLWorkflowBuilder.loraNodeId := None |}.
Proof.
  refine (proj1 (proj2 (proj2 (proj2 (builder_setters
            {| SDXLWorkflowBuilder.workflow :=
                 [ ("1", mkNode "KSampler" [("seed", VNumber 1); ("steps", VNumber 20)]);
                   ("2", mkNode "VAEDecode" [("samples", VConnection "1" 0)]);
                   ("3", mkNode "KSampler" [("steps", VNumber 30)]) ];
               SDXLWorkflowBuilder.loraNodeId := None |} _)))) 42%Z).
  apply (bool_decide_unpack _); vm_compute; exact I.
Defined.

(** * Validity along a sequence of operations *)

Lemma valid_inputs (w : ComfyWorkflowJson) (k : string) (node : ComfyNode)
    (name src : string) (port : Z) :
  Validators.valid (Validators.validateConnections w) = true →
  (k, node) ∈ w → (name, VConnection src port) ∈ inputs node → src ∈ obj_keys w.
Proof.
  rewrite valid_iff. intros Hvalid Hnode Hin.
  apply (Hvalid {| sourceNodeId := src; sourcePort := port;
                   targetNodeId := k; targetInputName := name |}).
  apply elem_of_getEdges. by exists node.
Qed.

Lemma valid_setInput (id name : string) (value : InputValue) (w w' : ComfyWorkflowJson) :
  (∀ src port, value = VConnection src port → src ∈ obj_keys w) →
  setInput id name value w = Some w' →
  Validators.valid (Validators.validateConnections w) = true →
  Validators.valid (Validators.validateConnections w') = true.
Proof.
  intros Hvalue. unfold setInput. destruct (obj_get w id) as [node|] eqn:Hnode; [|done].
  intros [= <-] Hvalid. apply valid_iff, integrity_obj_set; [by apply valid_iff|].
  simpl. intros n s p [[= _ <-]| Hin]%elem_of_obj_set; [by eapply Hvalue|].
  eapply valid_inputs; [done| |done]. by apply obj_get_Some_elem.
Qed.

Lemma addEdge_setInput (src : string) (port : Z) (tgt name : string) (w : ComfyWorkflowJson) :
  is_Some (obj_get w src) →
  addEdge src port tgt name w = setInput tgt name (VConnection src port) w.
Proof. intros [n Hn]. unfold addEdge, setInput. by rewrite Hn. Qed.

Lemma addEdge_source (src : string) (port : Z) (tgt name : string)
    (w w' : ComfyWorkflowJson) :
  addEdge src port tgt name w = Some w' → is_Some (obj_get w src).
Proof. unfold addEdge. destruct (obj_get w src); [by eexists | done]. Qed.

Lemma valid_addEdge (src : string) (port : Z) (tgt name : string) (w w' : ComfyWorkflowJson) :
  addEdge src port tgt name w = Some w' →
  Validators.valid (Validators.validateConnections w) = true →
  Validators.valid (Validators.validateConnections w') = true.
Proof.
  intros Hadd. pose proof (addEdge_source _ _ _ _ _ _ Hadd) as Hsrc.
  rewrite addEdge_setInput in Hadd by done. eapply valid_setInput; [|exact Hadd].
  intros s p [= <- _]. by apply obj_get_is_Some.
Qed.

Lemma valid_addNode (classType : string) (ins : list (string * InputValue))
    (id : option string) (meta : option NodeMeta) (w w' : ComfyWorkflowJson)
    (newId : string) :
  (∀ name src port, (name, VConnection src port) ∈ ins → src ∈ obj_keys w) →
  addNode classType ins id meta w = Some (newId, w') →
  Validators.valid (Validators.validateConnections w) = true →
  Validators.valid (Validators.validateConnections w') = true.
Proof.
  intros Hins. unfold addNode. destruct (obj_get w _); [done|]. intros [= <- <-] Hvalid.
  apply valid_iff, integrity_obj_set; [by apply valid_iff | done].
Qed.

Lemma forEach_preserves {X S} (P : S → Prop) (body : X → S → option S)
    (xs : list X) (s s' : S) :
  (∀ x s s', P s → body x s = Some s' → P s') →
  P s → forEach body xs s = Some s' → P s'.
Proof.
  intros Hbody. revert s. induction xs as [|x xs IH]; intros s Hs; simpl.
  - by intros [= <-].
  - destruct (body x s) as [s1|] eqn:Hrun; simpl; [|done]. eauto.
Qed.

Lemma forEach_ext_inv {X S} (P : S → Prop) (body body' : X → S → option S)
    (xs : list X) (s : S) :
  (∀ x s, P s → body x s = body' x s) →
  (∀ x s s', P s → body' x s = Some s' → P s') →
  P s → forEach body xs s = forEach body' xs s.
Proof.
  intros Hext Hinv. revert s. induction xs as [|x xs IH]; intros s Hs; simpl; [done|].
  rewrite Hext by done. destruct (body' x s) as [s1|] eqn:Hrun; simpl; [|done]. eauto.
Qed.

Lemma setInput_keys (id name : string) (value : InputValue) (w w' : ComfyWorkflowJson) :
  setInput id name value w = Some w' → obj_keys w' = obj_keys w.
Proof.
  unfold setInput. destruct (obj_get w id) as [node|] eqn:Hnode; [|done]. intros [= <-].
  rewrite obj_keys_set, decide_True; [done|]. apply obj_get_is_Some. by rewrite Hnode.
Qed.

Lemma addNode_generated (classType : string) (ins : list (string * InputValue))
    (meta : option NodeMeta) (w : ComfyWorkflowJson) :
  addNode classType ins None meta w
  = Some (generateNodeId w,
          obj_set (generateNodeId w)
                  {| inputs := ins; class_type := classType; _meta := meta |} w).
Proof.
  unfold addNode. simpl.
  assert (obj_get w (generateNodeId w) = None) as ->; [|done].
  apply obj_get_None, generateNodeId_fresh.
Qed.

Lemma findNodesByType_head (classType : string) (w : ComfyWorkflowJson)
    (e : string * ComfyNode) (l : list (string * ComfyNode)) :
  findNodesByType classType w = e :: l →
  e ∈ w ∧ class_type e.2 = classType ∧ is_Some (obj_get w e.1).
Proof.
  intros Hfind.
  assert (e ∈ findNodesByType classType w) as [Hct He]%list_elem_of_filter
    by (rewrite Hfind; left).
  split_and!; [done..|]. apply obj_get_is_Some. unfold obj_keys.
  apply list_elem_of_fmap. by exists e.
Qed.

(** The loop of [addLora] over the text encoders. *)
Lemma forEach_addEdge (src : string) (port : Z) (name : string)
    (l : list (string * ComfyNode)) (w : ComfyWorkflowJson) :
  is_Some (obj_get w src) → NoDup (obj_keys l) → (∀ e, e ∈ l → is_Some (obj_get w e.1)) →
  ∃ w', forEach (λ e w, addEdge src port e.1 name w) l w = Some w'
        ∧ obj_keys w' = obj_keys w
        ∧ ∀ k, obj_get w' k
               = (λ node, if decide (k ∈ obj_keys l)
                          then withInputs [(name, VConnection src port)] node
                          else node) <$> obj_get w k.
Proof.
  intros Hsrc Hnd Hin.
  destruct (forEach_assign (λ _, [(name, VConnection src port)]) l w Hnd Hin)
    as (w' & Hrun & Hkeys & Hget).
  exists w'. split_and!; [|done|].
  - rewrite <-Hrun.
    apply (forEach_ext_inv (λ s, is_Some (obj_get s src))); [| |done].
    + intros e s Hs. rewrite addEdge_setInput by done. simpl.
      by destruct (setInput e.1 name (VConnection src port) s).
    + intros e s s' Hs. simpl.
      destruct (setInput e.1 name (VConnection src port) s) as [s1|] eqn:Hset;
        simpl; [|done].
      intros [= <-]. apply obj_get_is_Some. rewrite (setInput_keys _ _ _ _ _ Hset).
      by apply obj_get_is_Some.
  - intros k. rewrite Hget. destruct (obj_get w k) as [node|]; [|done]. simpl. f_equal.
    destruct (obj_get l k) as [sn|] eqn:Hl.
    + rewrite decide_True; [done|]. apply obj_get_is_Some. by rewrite Hl.
    + rewrite decide_False; [done|]. by apply obj_get_None.
Qed.

(** X26: [addLora] on a workflow with distinct node ids, all integer-like
    ids in the safe range, does not throw and keeps a valid workflow valid.
    Without a checkpoint loader or without a sampler nothing changes.
    Otherwise one node is added under the generated id: the LoRA loader, fed
    by ports 0 and 1 of the first checkpoint loader; the first sampler's
    [model] and every text encoder's [clip] are rewired to the LoRA loader;
    every other input of every node is as before. *)
Theorem addLora_spec (name : string) (strengthModel strengthClip : Z)
    (this : SDXLWorkflowBuilder.Builder) :
  wf_nodes (SDXLWorkflowBuilder.workflow this) →
  safeIds (SDXLWorkflowBuilder.workflow this) →
  let w := SDXLWorkflowBuilder.workflow this in
  ∃ b',
    SDXLWorkflowBuilder.addLora name strengthModel strengthClip this = Some b'
    ∧ (Validators.valid (Validators.validateConnections w) = true →
       Validators.valid (Validators.validateConnections (SDXLWorkflowBuilder.workflow b'))
       = true)
    ∧ (findNodesByType "CheckpointLoaderSimple" w = [] ∨ findNodesByType "KSampler" w = [] →
       b' = this)
    ∧ (∀ checkpoint sampler,
         head (findNodesByType "CheckpointLoaderSimple" w) = Some checkpoint →
         head (findNodesByType "KSampler" w) = Some sampler →
         let lora := generateNodeId w in
         SDXLWorkflowBuilder.loraNodeId b' = Some lora
         ∧ (lora ∉ obj_keys w)
         ∧ obj_keys (SDXLWorkflowBuilder.workflow b') ≡ₚ lora :: obj_keys w
         ∧ getNode lora (SDXLWorkflowBuilder.workflow b')
           = Some {| inputs := [ ("lora_name", VString name);
                                 ("strength_model", VNumber strengthModel);
                                 ("strength_clip", VNumber strengthClip);
                                 ("model", VConnection checkpoint.1 0);
                                 ("clip", VConnection checkpoint.1 1) ];
                     class_type := "LoraLoader";
                     _meta := SDXLWorkflowBuilder.titled "LoRA Loader" |}
         ∧ ∀ k node,
             getNode k w = Some node →
             getNode k (SDXLWorkflowBuilder.workflow b')
             = Some (withInputs
                       ((if decide (k = sampler.1)
                         then [("model", VConnection lora 0)] else [])
                        ++ (if decide (class_type node = "CLIPTextEncode")
                            then [("clip", VConnection lora 1)] else []))
                       node)).
Proof.
  intros Hwf _ w. unfold SDXLWorkflowBuilder.addLora. fold w.
  destruct (findNodesByType "CheckpointLoaderSimple" w) as [|checkpoint cps] eqn:Hcps.
  { exists this. split_and!; done. }
  destruct (findNodesByType "KSampler" w) as [|sampler sms] eqn:Hsms.
  { exists this. split_and!; done. }
  destruct (findNodesByType_head _ _ _ _ Hcps) as (Hc_in & Hc_ct & Hc).
  destruct (findNodesByType_head _ _ _ _ Hsms) as (Hs_in & Hs_ct & [snode Hs]).
  set (lora := generateNodeId w).
  assert (obj_get w lora = None) as Hfresh by apply obj_get_None, generateNodeId_fresh.
  rewrite addNode_generated. fold lora. cbn [mbind option_bind].
  set (n0 := {| inputs := [ ("lora_name", VString name);
                            ("strength_model", VNumber strengthModel);
                            ("strength_clip", VNumber strengthClip) ];
                class_type := "LoraLoader";
                _meta := SDXLWorkflowBuilder.titled "LoRA Loader" |}).
  set (w1 := obj_set lora n0 w).
  assert (∀ k, obj_get w1 k = if decide (lora = k) then Some n0 else obj_get w k) as Hg1.
  { intros k. apply obj_get_set. }
  assert (obj_keys w1 = obj_keys w ++ [lora]) as Hk1.
  { unfold w1. rewrite obj_keys_set, decide_False; [done|]. by apply obj_get_None. }
  (* checkpoint -> lora, twice *)
  rewrite (addEdge_setInput checkpoint.1 0 lora "model" w1); last first.
  { rewrite Hg1. case_decide; [by eexists | done]. }
  rewrite (setInput_Some lora "model" _ w1 n0) by (by rewrite Hg1, decide_True).
  cbn [mbind option_bind].
  set (n1 := {| inputs := obj_set "model" (VConnection checkpoint.1 0) (inputs n0);
                class_type := class_type n0; _meta := _meta n0 |}).
  set (w2 := obj_set lora n1 w1).
  assert (∀ k, obj_get w2 k = if decide (lora = k) then Some n1 else obj_get w k) as Hg2.
  { intros k. unfold w2. rewrite obj_get_set, Hg1. by case_decide. }
  assert (obj_keys w2 = obj_keys w1) as Hk2.
  { unfold w2. rewrite obj_keys_set, decide_True; [done|].
    apply obj_get_is_Some. rewrite Hg1, decide_True by done. by eexists. }
  rewrite (addEdge_setInput checkpoint.1 1 lora "clip" w2); last first.
  { rewrite Hg2. case_decide; [by eexists | done]. }
  rewrite (setInput_Some lora "clip" _ w2 n1) by (by rewrite Hg2, decide_True).
  cbn [mbind option_bind].
  set (n2 := {| inputs := obj_set "clip" (VConnection checkpoint.1 1) (inputs n1);
                class_type := class_type n1; _meta := _meta n1 |}).
  set (w3 := obj_set lora n2 w2).
  assert (∀ k, obj_get w3 k = if decide (lora = k) then Some n2 else obj_get w k) as Hg3.
  { intros k. unfold w3. rewrite obj_get_set, Hg2. by case_decide. }
  assert (obj_keys w3 = obj_keys w1) as Hk3.
  { unfold w3. rewrite obj_keys_set, decide_True, Hk2; [done|].
    apply obj_get_is_Some. rewrite Hg2, decide_True by done. by eexists. }
  (* lora -> sampler *)
  assert (lora ≠ sampler.1) as Hls.
  { intros Heq. rewrite Heq, Hs in Hfresh. done. }
  rewrite (addEdge_setInput lora 0 sampler.1 "model" w3); last first.
  { rewrite Hg3, decide_True by done. by eexists. }
  rewrite (setInput_Some sampler.1 "model" _ w3 snode)
    by (by rewrite Hg3, decide_False, Hs).
  cbn [mbind option_bind].
  set (s1 := {| inputs := obj_set "model" (VConnection lora 0) (inputs snode);
                class_type := class_type snode; _meta := _meta snode |}).
  set (w4 := obj_set sampler.1 s1 w3).
  assert (∀ k, obj_get w4 k = if decide (lora = k) then Some n2
                              else if decide (sampler.1 = k) then Some s1
                                   else obj_get w k) as Hg4.
  { intros k. unfold w4. rewrite obj_get_set, Hg3.
    repeat case_decide; simplify_eq; done. }
  assert (obj_keys w4 = obj_keys w1) as Hk4.
  { unfold w4. rewrite obj_keys_set, decide_True, Hk3; [done|].
    apply obj_get_is_Some. rewrite Hg3, decide_False, Hs by done. by eexists. }
  (* the text encoders *)
  set (clipEncoders := findNodesByType "CLIPTextEncode" w).
  destruct (forEach_addEdge lora 1 "clip" clipEncoders w4) as (w5 & Hrun & Hk5 & Hg5).
  { rewrite Hg4, decide_True by done. by eexists. }
  { unfold clipEncoders, findNodesByType, obj_keys. apply (NoDup_fmap_2_strong fst).
    - intros e1 e2 [_ H1]%list_elem_of_filter [_ H2]%list_elem_of_filter.
      by apply (NoDup_keys_inj w).
    - apply NoDup_filter. by apply NoDup_fmap_1 in Hwf. }
  { intros e [_ He]%list_elem_of_filter. apply obj_get_is_Some.
    rewrite Hk4, Hk1. apply elem_of_app. left. unfold obj_keys.
    apply list_elem_of_fmap. by exists e. }
  rewrite Hrun. cbn [mbind option_bind]. eexists. split; [done|]. cbn [SDXLWorkflowBuilder.workflow].
  split_and!.
  - (* validity *)
    intros Hvalid.
    assert (checkpoint.1 ∈ obj_keys w1) as Hc1.
    { rewrite Hk1. apply elem_of_app. left. by apply obj_get_is_Some. }
    assert (lora ∈ obj_keys w1) as Hl1.
    { rewrite Hk1. apply elem_of_app. right. by left. }
    assert (Validators.valid (Validators.validateConnections w1) = true) as Hv1.
    { eapply valid_addNode; [|apply addNode_generated|exact Hvalid].
      intros ??? Hin. repeat (apply elem_of_cons in Hin as [[=]|Hin]).
      by apply elem_of_nil in Hin. }
    assert (Validators.valid (Validators.validateConnections w2) = true) as Hv2.
    { eapply (valid_setInput lora "model" _ w1); [|apply setInput_Some|exact Hv1].
      - by intros ?? [= <- _].
      - by rewrite Hg1, decide_True. }
    assert (Validators.valid (Validators.validateConnections w3) = true) as Hv3.
    { eapply (valid_setInput lora "clip" _ w2); [|apply setInput_Some|exact Hv2].
      - intros ?? [= <- _]. by rewrite Hk2.
      - by rewrite Hg2, decide_True. }
    assert (Validators.valid (Validators.validateConnections w4) = true) as Hv4.
    { eapply (valid_setInput sampler.1 "model" _ w3); [|apply setInput_Some|exact Hv3].
      - intros ?? [= <- _]. by rewrite Hk3.
      - by rewrite Hg3, decide_False, Hs. }
    eapply (forEach_preserves
              (λ s, Validators.valid (Validators.validateConnections s) = true));
      [|exact Hv4|exact Hrun].
    intros e s s' Hs' Hadd. simpl in Hadd. exact (valid_addEdge _ _ _ _ _ _ Hadd Hs').
  - by intros [?|?].
  - intros c s [= <-] [= <-]. cbn zeta. fold lora. split_and!.
    + done.
    + by apply obj_get_None.
    + rewrite Hk5, Hk4, Hk1. symmetry. apply Permutation_cons_append.
    + unfold getNode. rewrite Hg5, Hg4, decide_True by done. simpl.
      rewrite decide_False; [done|]. intros Hin.
      apply obj_get_is_Some in Hin as [x Hx]. unfold clipEncoders in Hx.
      rewrite findNodesByType_get, Hfresh in Hx; done.
    + intros k node Hnode. unfold getNode in *. rewrite Hg5, Hg4.
      assert (lora ≠ k) as Hlk by (intros <-; by rewrite Hfresh in Hnode).
      rewrite decide_False by done.
      assert (k ∈ obj_keys clipEncoders ↔ class_type node = "CLIPTextEncode") as Hclip.
      { rewrite <-obj_get_is_Some. unfold clipEncoders.
        rewrite findNodesByType_get, Hnode by done.
        case_decide; split; intros H'; try done; try (by eexists); by destruct H'. }
      destruct (decide (sampler.1 = k)) as [<-|Hsk].
      * rewrite decide_True by done. simpl. f_equal.
        assert (node = snode) as -> by congruence.
        assert (sampler.2 = snode) as Hsame.
        { pose proof Hs as Hs'. destruct sampler as [sid sn].
          apply (obj_get_NoDup _ _ _ Hwf) in Hs_in. fold w in Hs_in.
          cbn [fst snd] in *. rewrite Hs_in in Hs'. by injection Hs'. }
        assert (class_type snode ≠ "CLIPTextEncode") as Hne.
        { rewrite <-Hsame, Hs_ct. done. }
        rewrite decide_False by (by rewrite Hclip).
        by rewrite decide_False by done.
      * rewrite Hnode. simpl. f_equal. rewrite (decide_False (P := k = sampler.1)) by done.
        simpl. destruct (decide (class_type node = "CLIPTextEncode")) as [Hct|Hct].
        -- by rewrite decide_True by (by apply Hclip).
        -- rewrite decide_False by (by rewrite Hclip). by rewrite withInputs_nil.
Qed.

Lemma addLora_spec_witness :
  ∃ b',
    SDXLWorkflowBuilder.addLora "style.safetensors" 1 1
      {| SDXLWorkflowBuilder.workflow :=
           [ ("1", mkNode "CheckpointLoaderSimple" [("ckpt_name", VString "sd.ckpt")]);
             ("2", mkNode "CLIPTextEncode" [("text", VString "a cat");
                                           ("clip", VConnection "1" 1)]);
             ("3", mkNode "KSampler" [("model", VConnection "1" 0);
                                      ("positive", VConnection "2" 0)]) ];
         SDXLWorkflowBuilder.loraNodeId := None |}
    = Some b'
    ∧ SDXLWorkflowBuilder.loraNodeId b' = Some "4"
    ∧ getInput "3" "model" (SDXLWorkflowBuilder.workflow b') = Some (VConnection "4" 0)
    ∧ getInput "2" "clip" (SDXLWorkflowBuilder.workflow b') = Some (VConnection "4" 1).
Proof.
  destruct (addLora_spec "style.safetensors" 1 1
              {| SDXLWorkflowBuilder.workflow :=
                   [ ("1", mkNode "CheckpointLoaderSimple" [("ckpt_name", VString "sd.ckpt")]);
                     ("2", mkNode "CLIPTextEncode" [("text", VString "a cat");
                                                   ("clip", VConnection "1" 1)]);
                     ("3", mkNode "KSampler" [("model", VConnection "1" 0);
                                              ("positive", VConnection "2" 0)]) ];
                 SDXLWorkflowBuilder.loraNodeId := None |})
    as (b' & Hrun & _ & _ & Hspec).
  - apply (bool_decide_unpack _); vm_compute; exact I.
  - apply (bool_decide_unpack _); vm_compute; exact I.
  - exists b'. split; [exact Hrun|].
    vm_compute in Hrun. injection Hrun as <-. split_and!; vm_compute; reflexivity.
Defined.

(** * Removing several nodes *)

Lemma valid_removeNode (nodeId : string) (w : ComfyWorkflowJson) :
  wf_workflow w →
  Validators.valid (Validators.validateConnections w) = true →
  Validators.valid (Validators.validateConnections (removeNode nodeId w)) = true.
Proof.
  intros Hwf Hvalid. rewrite valid_iff in Hvalid. apply valid_iff.
  destruct (obj_get w nodeId) as [n|] eqn:Hn.
  - rewrite (getEdges_removeNode w nodeId Hwf) by (by eexists).
    intros edge [[Hsrc _] Hedge]%list_elem_of_filter.
    rewrite removeNode_present by (done || by eexists).
    rewrite obj_keys_fmap.
    change (filter (λ e : string * ComfyNode, e.1 ≠ nodeId) w) with (obj_delete nodeId w).
    rewrite obj_keys_delete. apply list_elem_of_filter. split; [done|]. by apply Hvalid.
  - unfold removeNode. by rewrite Hn.
Qed.

Lemma wf_removeNode (nodeId : string) (w : ComfyWorkflowJson) :
  wf_workflow w → wf_workflow (removeNode nodeId w).
Proof.
  intros Hwf. destruct (obj_get w nodeId) as [n|] eqn:Hn;
    [|unfold removeNode; by rewrite Hn].
  rewrite removeNode_present by (done || by eexists).
  destruct Hwf as [Hnodes Hins]. split.
  - unfold wf_nodes. rewrite obj_keys_fmap.
    change (filter (λ e : string * ComfyNode, e.1 ≠ nodeId) w) with (obj_delete nodeId w).
    rewrite obj_keys_delete. by apply NoDup_filter.
  - apply Forall_fmap, Forall_forall. intros e [_ He]%list_elem_of_filter. simpl.
    rewrite Forall_forall in Hins. specialize (Hins _ He).
    unfold wf_inputs, obj_keys in *. apply (NoDup_fmap_2_strong fst).
    + intros i1 i2 [_ H1]%list_elem_of_filter [_ H2]%list_elem_of_filter.
      by apply (NoDup_keys_inj (inputs e.2)).
    + apply NoDup_filter. by apply NoDup_fmap_1 in Hins.
Qed.

Lemma removeNodes_spec (ids : list string) (w : ComfyWorkflowJson) :
  wf_workflow w →
  ∃ G, remainder G
       ∧ foldl (λ w id, removeNode id w) w ids
         = (λ e, (e.1, G e.2)) <$> filter (λ e, e.1 ∉ ids) w.
Proof.
  revert w. induction ids as [|id ids IH]; intros w Hwf; simpl.
  - exists id. split; [done|]. rewrite filter_all by (intros ? _; apply not_elem_of_nil).
    rewrite <-(list_fmap_id w) at 1. apply list_fmap_ext. by intros _ [??] _.
  - destruct (IH (removeNode id w) (wf_removeNode id w Hwf)) as (G & HG & ->).
    destruct (obj_get w id) as [n|] eqn:Hn.
    + rewrite removeNode_present by (done || by eexists).
      exists (G ∘ withoutInputsFrom id). split.
      * intros n0. destruct (HG (withoutInputsFrom id n0)) as (H1 & H2 & H3).
        simpl. split_and!; [done..|]. intros i Hi%H3. simpl in Hi.
        by apply list_elem_of_filter in Hi as [_ ?].
      * rewrite filter_fmap, list_filter_filter, <-list_fmap_compose. simpl.
        f_equal. apply filter_ext_in. intros e _. rewrite not_elem_of_cons. naive_solver.
    + unfold removeNode. rewrite Hn. exists G. split; [done|]. f_equal.
      apply filter_ext_in. intros e He. rewrite not_elem_of_cons.
      assert (e.1 ≠ id); [|naive_solver].
      intros Heq. apply obj_get_None in Hn. apply Hn. rewrite <-Heq.
      unfold obj_keys. apply list_elem_of_fmap. by exists e.
Qed.

Lemma foldl_fst {S X Y} (f : S → X → S) (l : list (X * Y)) (s : S) :
  foldl (λ s e, f s e.1) s l = foldl f s l.*1.
Proof. revert s. induction l as [|e l IH]; intros s; csimpl; [done|]. apply IH. Qed.

Lemma findNodesByType_ids (classType : string) (w : ComfyWorkflowJson)
    (e : string * ComfyNode) :
  wf_nodes w → e ∈ w →
  e.1 ∈ (findNodesByType classType w).*1 ↔ class_type e.2 = classType.
Proof.
  intros Hwf He. split.
  - intros (e' & Heq & [Hct He']%list_elem_of_filter)%list_elem_of_fmap.
    by rewrite (NoDup_keys_inj w e e' Hwf He He' Heq).
  - intros Hct. apply list_elem_of_fmap. exists e. split; [done|].
    by apply list_elem_of_filter.
Qed.

(** The state of [setImg2ImgMode] after its first loop. *)
Lemma removeByType_spec (classType : string) (w : ComfyWorkflowJson) :
  wf_workflow w →
  let w' := foldl (λ w e, removeNode e.1 w) w (findNodesByType classType w) in
  ∃ G, remainder G
       ∧ w' = (λ e, (e.1, G e.2)) <$> filter (λ e, class_type e.2 ≠ classType) w
       ∧ wf_workflow w'
       ∧ (Validators.valid (Validators.validateConnections w) = true →
          Validators.valid (Validators.validateConnections w') = true).
Proof.
  intros Hwf. cbv zeta.
  rewrite (foldl_fst (λ w id, removeNode id w)).
  destruct (removeNodes_spec (findNodesByType classType w).*1 w Hwf) as (G & HG & Heq).
  exists G. split_and!; [done| | |].
  - rewrite Heq. f_equal. apply filter_ext_in. intros e He.
    by rewrite (findNodesByType_ids classType w e (proj1 Hwf) He).
  - clear Heq. generalize (findNodesByType classType w).*1. intros ids.
    revert w Hwf. induction ids as [|id ids IH]; intros w Hwf; simpl; [done|].
    by apply IH, wf_removeNode.
  - clear Heq. generalize (findNodesByType classType w).*1. intros ids.
    revert w Hwf. induction ids as [|id ids IH]; intros w Hwf Hvalid; simpl; [done|].
    apply IH; [by apply wf_removeNode | by apply valid_removeNode].
Qed.

Lemma findNodesByType_remainder (G : ComfyNode → ComfyNode) (removed classType : string)
    (w : ComfyWorkflowJson) :
  remainder G →
  findNodesByType classType
    ((λ e, (e.1, G e.2)) <$> filter (λ e, class_type e.2 ≠ removed) w)
  = (λ e, (e.1, G e.2))
      <$> filter (λ e, class_type e.2 ≠ removed) (findNodesByType classType w).
Proof.
  intros HG. unfold findNodesByType. rewrite filter_fmap, !list_filter_filter. f_equal.
  apply filter_ext_in. intros e _. simpl. destruct (HG e.2) as (-> & _). naive_solver.
Qed.

Lemma findNodesByType_set_nil (classType k : string) (node : ComfyNode)
    (w : ComfyWorkflowJson) :
  class_type node ≠ classType → findNodesByType classType w = [] →
  findNodesByType classType (obj_set k node w) = [].
Proof.
  unfold findNodesByType. intros Hct Hnil. apply filter_none.
  intros e [->|He]%elem_of_obj_set; [done|].
  intros He'. eapply filter_nil_not_elem_of; [exact Hnil|exact He'|exact He].
Qed.

Lemma generateNodeId_None (w : ComfyWorkflowJson) : obj_get w (generateNodeId w) = None.
Proof. apply obj_get_None, generateNodeId_fresh. Qed.

(** X27: [setImg2ImgMode] on a workflow with distinct keys, with room for
    two more ids in the safe range, does not throw and keeps a valid
    workflow valid.  Afterwards no node of class [EmptyLatentImage] is left,
    and every other node is still there with its class type and metadata.
    With a checkpoint loader and a sampler present, an image loader and a
    VAE encoder are added under two different ids, neither the id of a
    remaining node (the id of a removed node may be used again); the encoder
    is fed by the image loader and by port 2 of the first checkpoint loader,
    the first sampler's [latent_image] is wired to the encoder and its
    [denoise] is set. *)
Theorem setImg2ImgMode_spec (imageName : string) (denoise : Z)
    (this : SDXLWorkflowBuilder.Builder) :
  wf_workflow (SDXLWorkflowBuilder.workflow this) →
  Forall (λ n, (- (2 ^ 53 - 1) ≤ n ≤ 2 ^ 53 - 2)%Z)
         (numericIds (SDXLWorkflowBuilder.workflow this)) →
  let w := SDXLWorkflowBuilder.workflow this in
  ∃ b',
    SDXLWorkflowBuilder.setImg2ImgMode imageName denoise this = Some b'
    ∧ SDXLWorkflowBuilder.loraNodeId b' = SDXLWorkflowBuilder.loraNodeId this
    ∧ (Validators.valid (Validators.validateConnections w) = true →
       Validators.valid (Validators.validateConnections (SDXLWorkflowBuilder.workflow b'))
       = true)
    ∧ findNodesByType "EmptyLatentImage" (SDXLWorkflowBuilder.workflow b') = []
    ∧ (∀ k node,
         getNode k w = Some node → class_type node ≠ "EmptyLatentImage" →
         ∃ node', getNode k (SDXLWorkflowBuilder.workflow b') = Some node'
                  ∧ class_type node' = class_type node ∧ _meta node' = _meta node)
    ∧ (∀ checkpoint sampler,
         head (findNodesByType "CheckpointLoaderSimple" w) = Some checkpoint →
         head (findNodesByType "KSampler" w) = Some sampler →
         ∃ loadImageId vaeEncodeId,
           loadImageId ≠ vaeEncodeId
           ∧ (∀ id node, id = loadImageId ∨ id = vaeEncodeId → getNode id w = Some node →
                         class_type node = "EmptyLatentImage")
           ∧ getNode loadImageId (SDXLWorkflowBuilder.workflow b')
             = Some {| inputs := [("image", VString imageName); ("upload", VString "image")];
                       class_type := "LoadImage";
                       _meta := SDXLWorkflowBuilder.titled "Input Image" |}
           ∧ getNode vaeEncodeId (SDXLWorkflowBuilder.workflow b')
             = Some {| inputs := [ ("pixels", VConnection loadImageId 0);
                                   ("vae", VConnection checkpoint.1 2) ];
                       class_type := "VAEEncode";
                       _meta := SDXLWorkflowBuilder.titled "VAE Encode" |}
           ∧ getInput sampler.1 "latent_image" (SDXLWorkflowBuilder.workflow b')
             = Some (VConnection vaeEncodeId 0)
           ∧ getInput sampler.1 "denoise" (SDXLWorkflowBuilder.workflow b')
             = Some (VNumber denoise)).
Proof.
  intros Hwf _ w. unfold SDXLWorkflowBuilder.setImg2ImgMode. fold w.
  destruct (removeByType_spec "EmptyLatentImage" w Hwf) as (G & HG & Hr & Hwfr & Hvr).
  set (wr := foldl (λ w e, removeNode e.1 w) w (findNodesByType "EmptyLatentImage" w)) in *.
  assert (∀ ct, ct ≠ "EmptyLatentImage" →
            findNodesByType ct wr = (λ e, (e.1, G e.2)) <$> findNodesByType ct w) as Hfind.
  { intros ct Hct. rewrite Hr, findNodesByType_remainder by done. f_equal.
    apply filter_all. intros e [He _]%list_elem_of_filter. congruence. }
  assert (findNodesByType "EmptyLatentImage" wr = []) as Hnone.
  { rewrite Hr, findNodesByType_remainder by done.
    rewrite (filter_none _ (findNodesByType _ w)); [done|].
    intros e [He _]%list_elem_of_filter Hne. by apply Hne. }
  assert (∀ k node, obj_get w k = Some node → class_type node ≠ "EmptyLatentImage" →
            obj_get wr k = Some (G node)) as Hkeep.
  { intros k node Hk Hct. rewrite Hr, obj_get_fmap.
    assert (obj_get (filter (λ e : string * ComfyNode, class_type e.2 ≠ "EmptyLatentImage") w) k
            = Some node) as ->; [|done].
    apply obj_get_NoDup.
    - unfold obj_keys. apply (NoDup_fmap_2_strong fst).
      + intros e1 e2 [_ H1]%list_elem_of_filter [_ H2]%list_elem_of_filter.
        apply (NoDup_keys_inj w); [apply Hwf|done..].
      + apply NoDup_filter. destruct Hwf as [Hnd _]. by apply NoDup_fmap_1 in Hnd.
    - apply list_elem_of_filter. split; [done|]. by apply obj_get_Some_elem. }
  assert (∀ k node, obj_get w k = Some node → obj_get wr k = None →
            class_type node = "EmptyLatentImage") as Hgone.
  { intros k node Hk Hr'. destruct (decide (class_type node = "EmptyLatentImage")); [done|].
    by rewrite (Hkeep k node Hk) in Hr'. }
  assert (∀ k node, obj_get w k = Some node → class_type node ≠ "EmptyLatentImage" →
            ∃ node', obj_get wr k = Some node'
                     ∧ class_type node' = class_type node ∧ _meta node' = _meta node)
    as Hkeep'.
  { intros k node Hk Hct. exists (G node). split; [by apply Hkeep|].
    by destruct (HG node) as (? & ? & _). }
  rewrite !Hfind by done.
  destruct (findNodesByType "CheckpointLoaderSimple" w) as [|checkpoint cps] eqn:Hcps.
  { simpl. eexists. split; [done|]. split_and!; try done. }
  destruct (findNodesByType "KSampler" w) as [|sampler sms] eqn:Hsms.
  { simpl. eexists. split; [done|]. split_and!; try done. }
  cbn [fmap list_fmap fst snd].
  destruct (findNodesByType_head _ _ _ _ Hcps) as (Hc_in & Hc_ct & [cnode Hc]).
  destruct (findNodesByType_head _ _ _ _ Hsms) as (Hs_in & Hs_ct & [snode Hs]).
  assert (class_type cnode = "CheckpointLoaderSimple") as Hc_ct'.
  { destruct checkpoint as [cid cn]. apply (obj_get_NoDup _ _ _ (proj1 Hwf)) in Hc_in.
    fold w in Hc_in. cbn [fst snd] in *. congruence. }
  assert (class_type snode = "KSampler") as Hs_ct'.
  { destruct sampler as [sid sn]. apply (obj_get_NoDup _ _ _ (proj1 Hwf)) in Hs_in.
    fold w in Hs_in. cbn [fst snd] in *. congruence. }
  assert (obj_get wr checkpoint.1 = Some (G cnode)) as Hcr.
  { apply Hkeep; [done|]. by rewrite Hc_ct'. }
  assert (obj_get wr sampler.1 = Some (G snode)) as Hsr.
  { apply Hkeep; [done|]. by rewrite Hs_ct'. }
  (* the image loader *)
  set (li := generateNodeId wr).
  pose proof (generateNodeId_None wr) as Hli. fold li in Hli.
  rewrite addNode_generated. fold li. cbn [mbind option_bind].
  set (nl := {| inputs := [("image", VString imageName); ("upload", VString "image")];
                class_type := "LoadImage";
                _meta := SDXLWorkflowBuilder.titled "Input Image" |}).
  set (w1 := obj_set li nl wr).
  assert (∀ k, obj_get w1 k = if decide (li = k) then Some nl else obj_get wr k) as Hg1.
  { intros k. apply obj_get_set. }
  (* the encoder *)
  set (ve := generateNodeId w1).
  pose proof (generateNodeId_None w1) as Hve. fold ve in Hve.
  assert (li ≠ ve) as Hlv.
  { intros Heq. rewrite Hg1, decide_True in Hve by done. done. }
  assert (obj_get wr ve = None) as Hve'.
  { rewrite Hg1, decide_False in Hve by done. done. }
  rewrite addNode_generated. fold ve. cbn [mbind option_bind].
  set (n0 := {| inputs := []; class_type := "VAEEncode";
                _meta := SDXLWorkflowBuilder.titled "VAE Encode" |}).
  set (w2 := obj_set ve n0 w1).
  assert (∀ k, obj_get w2 k = if decide (ve = k) then Some n0
                              else if decide (li = k) then Some nl else obj_get wr k) as Hg2.
  { intros k. unfold w2. rewrite obj_get_set, Hg1. done. }
  (* image loader -> encoder *)
  rewrite (addEdge_setInput li 0 ve "pixels" w2); last first.
  { rewrite Hg2, decide_False, decide_True by done. by eexists. }
  rewrite (setInput_Some ve "pixels" _ w2 n0) by (by rewrite Hg2, decide_True).
  cbn [mbind option_bind].
  set (n1 := {| inputs := obj_set "pixels" (VConnection li 0) (inputs n0);
                class_type := class_type n0; _meta := _meta n0 |}).
  set (w3 := obj_set ve n1 w2).
  assert (∀ k, obj_get w3 k = if decide (ve = k) then Some n1
                              else if decide (li = k) then Some nl else obj_get wr k) as Hg3.
  { intros k. unfold w3. rewrite obj_get_set, Hg2. by case_decide. }
  (* checkpoint -> encoder *)
  assert (ve ≠ checkpoint.1) as Hvc by (intros Heq; by rewrite Heq, Hcr in Hve').
  assert (li ≠ checkpoint.1) as Hlc by (intros Heq; by rewrite Heq, Hcr in Hli).
  assert (ve ≠ sampler.1) as Hvs by (intros Heq; by rewrite Heq, Hsr in Hve').
  assert (li ≠ sampler.1) as Hlsm by (intros Heq; by rewrite Heq, Hsr in Hli).
  rewrite (addEdge_setInput checkpoint.1 2 ve "vae" w3); last first.
  { rewrite Hg3, !decide_False, Hcr by done. by eexists. }
  rewrite (setInput_Some ve "vae" _ w3 n1) by (by rewrite Hg3, decide_True).
  cbn [mbind option_bind].
  set (n2 := {| inputs := obj_set "vae" (VConnection checkpoint.1 2) (inputs n1);
                class_type := class_type n1; _meta := _meta n1 |}).
  set (w4 := obj_set ve n2 w3).
  assert (∀ k, obj_get w4 k = if decide (ve = k) then Some n2
                              else if decide (li = k) then Some nl else obj_get wr k) as Hg4.
  { intros k. unfold w4. rewrite obj_get_set, Hg3. by case_decide. }
  (* encoder -> sampler, and denoise *)
  rewrite (addEdge_setInput ve 0 sampler.1 "latent_image" w4); last first.
  { rewrite Hg4, decide_True by done. by eexists. }
  rewrite (setInput_Some sampler.1 "latent_image" _ w4 (G snode))
    by (by rewrite Hg4, !decide_False, Hsr).
  cbn [mbind option_bind].
  set (s1 := {| inputs := obj_set "latent_image" (VConnection ve 0) (inputs (G snode));
                class_type := class_type (G snode); _meta := _meta (G snode) |}).
  set (w5 := obj_set sampler.1 s1 w4).
  assert (∀ k, obj_get w5 k = if decide (sampler.1 = k) then Some s1
                              else if decide (ve = k) then Some n2
                                   else if decide (li = k) then Some nl
                                        else obj_get wr k) as Hg5.
  { intros k. unfold w5. rewrite obj_get_set, Hg4. done. }
  rewrite (setInput_Some sampler.1 "denoise" _ w5 s1) by (by rewrite Hg5, decide_True).
  cbn [mbind option_bind].
  set (s2 := {| inputs := obj_set "denoise" (VNumber denoise) (inputs s1);
                class_type := class_type s1; _meta := _meta s1 |}).
  set (w6 := obj_set sampler.1 s2 w5).
  assert (∀ k, obj_get w6 k = if decide (sampler.1 = k) then Some s2
                              else if decide (ve = k) then Some n2
                                   else if decide (li = k) then Some nl
                                        else obj_get wr k) as Hg6.
  { intros k. unfold w6. rewrite obj_get_set, Hg5. by case_decide. }
  eexists. split; [done|]. cbn [SDXLWorkflowBuilder.workflow SDXLWorkflowBuilder.loraNodeId].
  split_and!.
  - done.
  - intros Hvalid. specialize (Hvr Hvalid).
    assert (Validators.valid (Validators.validateConnections w1) = true) as Hv1.
    { eapply valid_addNode; [|apply addNode_generated|exact Hvr].
      intros ??? Hin. repeat (apply elem_of_cons in Hin as [[=]|Hin]).
      by apply elem_of_nil in Hin. }
    assert (Validators.valid (Validators.validateConnections w2) = true) as Hv2.
    { eapply valid_addNode; [|apply addNode_generated|exact Hv1].
      by intros ??? Hin%elem_of_nil. }
    assert (Validators.valid (Validators.validateConnections w3) = true) as Hv3.
    { eapply (valid_setInput ve "pixels" _ w2); [|apply setInput_Some|exact Hv2].
      - intros ?? [= <- _]. apply obj_get_is_Some.
        rewrite Hg2, decide_False, decide_True by done. by eexists.
      - by rewrite Hg2, decide_True. }
    assert (Validators.valid (Validators.validateConnections w4) = true) as Hv4.
    { eapply (valid_setInput ve "vae" _ w3); [|apply setInput_Some|exact Hv3].
      - intros ?? [= <- _]. apply obj_get_is_Some.
        rewrite Hg3, !decide_False, Hcr by done. by eexists.
      - by rewrite Hg3, decide_True. }
    assert (Validators.valid (Validators.validateConnections w5) = true) as Hv5.
    { eapply (valid_setInput sampler.1 "latent_image" _ w4);
        [|apply setInput_Some|exact Hv4].
      - intros ?? [= <- _]. apply obj_get_is_Some. rewrite Hg4, decide_True by done.
        by eexists.
      - by rewrite Hg4, !decide_False, Hsr. }
    eapply (valid_setInput sampler.1 "denoise" _ w5); [|apply setInput_Some|exact Hv5].
    + by intros ?? [=].
    + by rewrite Hg5, decide_True.
  - unfold w6, w5, w4, w3, w2, w1.
    assert (class_type (G snode) ≠ "EmptyLatentImage") as HGs.
    { destruct (HG snode) as (-> & _). by rewrite Hs_ct'. }
    repeat (apply findNodesByType_set_nil; [done|]). done.
  - intros k node Hk Hct. unfold getNode in *. rewrite Hg6.
    destruct (Hkeep' k node Hk Hct) as (node' & Hk' & Hct' & Hmeta').
    destruct (decide (sampler.1 = k)) as [<-|Hsk].
    + eexists. split; [done|]. simpl. rewrite Hsr in Hk'. injection Hk' as <-. done.
    + rewrite decide_False by (intros <-; by rewrite Hk' in Hve').
      rewrite decide_False by (intros <-; by rewrite Hk' in Hli).
      by exists node'.
  - intros c s [= <-] [= <-]. exists li, ve. split_and!.
    + done.
    + intros id node [->| ->] Hnode; unfold getNode in Hnode; by eapply Hgone.
    + unfold getNode. rewrite Hg6, !decide_False, decide_True by done. done.
    + unfold getNode. rewrite Hg6, decide_False, decide_True by done. done.
    + unfold getInput. rewrite Hg6, decide_True by done. simpl.
      rewrite obj_get_set, decide_False by done. by rewrite obj_get_set, decide_True.
    + unfold getInput. rewrite Hg6, decide_True by done. simpl.
      by rewrite obj_get_set, decide_True.
Qed.

Lemma setImg2ImgMode_spec_witness :
  ∃ b',
    SDXLWorkflowBuilder.setImg2ImgMode "input.png" 1
      {| SDXLWorkflowBuilder.workflow :=
           [ ("1", mkNode "CheckpointLoaderSimple" [("ckpt_name", VString "sd.ckpt")]);
             ("2", mkNode "KSampler" [("model", VConnection "1" 0);
                                      ("latent_image", VConnection "3" 0)]);
             ("3", mkNode "EmptyLatentImage" [("width", VNumber 1024)]) ];
         SDXLWorkflowBuilder.loraNodeId := None |}
    = Some b'
    ∧ findNodesByType "EmptyLatentImage" (SDXLWorkflowBuilder.workflow b') = []
    ∧ obj_keys (SDXLWorkflowBuilder.workflow b') = ["1"; "2"; "3"; "4"].
Proof.
  destruct (setImg2ImgMode_spec "input.png" 1
              {| SDXLWorkflowBuilder.workflow :=
                   [ ("1", mkNode "CheckpointLoaderSimple" [("ckpt_name", VString "sd.ckpt")]);
                     ("2", mkNode "KSampler" [("model", VConnection "1" 0);
                                              ("latent_image", VConnection "3" 0)]);
                     ("3", mkNode "EmptyLatentImage" [("width", VNumber 1024)]) ];
                 SDXLWorkflowBuilder.loraNodeId := None |})
    as (b' & Hrun & _ & _ & Hnone & _).
  - split; apply (bool_decide_unpack _); vm_compute; exact I.
  - apply (bool_decide_unpack _); vm_compute; exact I.
  - exists b'. split; [exact Hrun|]. split; [exact Hnone|].
    vm_compute in Hrun. injection Hrun as <-. vm_compute. reflexivity.
Defined.

(** * Reads and writes of properties *)

Section js_objects.
Context {V : Type}.
Implicit Types (o : list (string * V)) (k : string) (v : V).

Lemma get_Own o k v : Js.get o k = Js.Own v ↔ obj_get o k = Some v.
Proof. unfold Js.get. destruct (obj_get o k); [|case_decide]; naive_solver. Qed.

Lemma get_Undefined o k :
  Js.get o k = Js.Undefined ↔ (k ∉ obj_keys o) ∧ (k ∉ objectPrototypeNames).
Proof.
  rewrite <-obj_get_None. unfold Js.get.
  destruct (obj_get o k); [|case_decide]; naive_solver.
Qed.

Lemma get_Inherited o k name :
  Js.get o k = Js.Inherited name ↔ (k ∉ obj_keys o) ∧ k ∈ objectPrototypeNames ∧ name = k.
Proof.
  rewrite <-obj_get_None. unfold Js.get.
  destruct (obj_get o k); [|case_decide]; naive_solver.
Qed.

Lemma truthy_get o k :
  Js.truthy (Js.get o k) = true ↔ k ∈ obj_keys o ∨ k ∈ objectPrototypeNames.
Proof.
  rewrite <-obj_get_is_Some. unfold Js.get.
  destruct (obj_get o k) as [v|]; simpl; [split; eauto|].
  case_decide; simpl; split; try done; eauto.
  - intros [[? ?]|?]; done.
Qed.

Lemma truthy_get_false o k :
  Js.truthy (Js.get o k) = false ↔ (k ∉ obj_keys o) ∧ (k ∉ objectPrototypeNames).
Proof.
  rewrite <-not_true_iff_false, truthy_get. tauto.
Qed.

Lemma obj_get_insertIndex i o k k' v :
  obj_get o k = None →
  obj_get (Js.insertIndex i k v o) k' = if decide (k = k') then Some v else obj_get o k'.
Proof.
  induction o as [|[k0 v0] o IH]; simpl; [done|].
  destruct (decide (k0 = k)) as [->|Hne]; [done|]. intros Hk.
  destruct (Js.arrayIndex k0) as [j|]; [destruct (decide (j < i)%N)|]; simpl.
  - rewrite IH by done. repeat case_decide; simplify_eq; done.
  - repeat case_decide; simplify_eq; done.
  - repeat case_decide; simplify_eq; done.
Qed.

Lemma insertIndex_Permutation i o k v : Js.insertIndex i k v o ≡ₚ (k, v) :: o.
Proof.
  induction o as [|[k0 v0] o IH]; simpl; [done|].
  destruct (Js.arrayIndex k0) as [j|]; [destruct (decide (j < i)%N)|]; try done.
  rewrite IH. apply Permutation_swap.
Qed.

(** A write stores the value under the key and leaves the other entries. *)
Lemma obj_get_js_set o k k' v :
  obj_get (Js.set k v o) k' = if decide (k = k') then Some v else obj_get o k'.
Proof.
  unfold Js.set. destruct (obj_get o k) as [v0|] eqn:Hk.
  - apply obj_get_set.
  - destruct (Js.arrayIndex k) as [i|].
    + by apply obj_get_insertIndex.
    + rewrite obj_get_app. simpl.
      destruct (decide (k = k')) as [<-|Hne]; [by rewrite Hk|].
      by destruct (obj_get o k').
Qed.

Lemma js_set_own o k v : k ∈ obj_keys o → Js.set k v o = obj_set k v o.
Proof. intros [v0 Hk]%obj_get_is_Some. unfold Js.set. by rewrite Hk. Qed.

Lemma js_set_fresh o k v : k ∉ obj_keys o → Js.set k v o ≡ₚ (k, v) :: o.
Proof.
  intros Hk%obj_get_None. unfold Js.set. rewrite Hk.
  destruct (Js.arrayIndex k) as [i|].
  - apply insertIndex_Permutation.
  - by rewrite Permutation_app_comm.
Qed.

Lemma obj_keys_js_set_own o k v : k ∈ obj_keys o → obj_keys (Js.set k v o) = obj_keys o.
Proof. intros Hk. rewrite js_set_own, obj_keys_set by done. by rewrite decide_True. Qed.

Lemma obj_keys_js_set_fresh o k v : k ∉ obj_keys o → obj_keys (Js.set k v o) ≡ₚ k :: obj_keys o.
Proof. intros Hk. unfold obj_keys. by rewrite js_set_fresh. Qed.

Lemma elem_of_obj_keys_js_set o k k' v :
  k' ∈ obj_keys (Js.set k v o) ↔ k' = k ∨ k' ∈ obj_keys o.
Proof.
  rewrite <-!obj_get_is_Some, obj_get_js_set.
  case_decide; subst; split; naive_solver.
Qed.

Lemma elem_of_js_set o k v x : x ∈ Js.set k v o → x = (k, v) ∨ x ∈ o.
Proof.
  destruct (decide (k ∈ obj_keys o)) as [Hin|Hout].
  - rewrite js_set_own by done. apply elem_of_obj_set.
  - rewrite js_set_fresh by done. rewrite elem_of_cons. tauto.
Qed.

Lemma js_set_NoDup o k v : NoDup (obj_keys o) → NoDup (obj_keys (Js.set k v o)).
Proof.
  intros Hnd. destruct (decide (k ∈ obj_keys o)) as [Hin|Hout].
  - by rewrite obj_keys_js_set_own.
  - rewrite obj_keys_js_set_fresh by done. by apply NoDup_cons.
Qed.

End js_objects.

(** * The structural diff with JavaScript's property lookup *)

Lemma plainClassTypes_app (nodes1 nodes2 : ComfyWorkflowJson) :
  plainClassTypes (nodes1 ++ nodes2) ↔ plainClassTypes nodes1 ∧ plainClassTypes nodes2.
Proof. apply Forall_app. Qed.

Lemma plainClassTypes_findNodesByType (nodes : ComfyWorkflowJson) (ct : string) :
  plainClassTypes nodes → findNodesByType ct nodes ≠ [] → ct ∉ objectPrototypeNames.
Proof.
  intros Hplain Hne. destruct (findNodesByType ct nodes) as [|e l] eqn:Hfind; [done|].
  assert (e ∈ findNodesByType ct nodes) as [<- He]%list_elem_of_filter by (rewrite Hfind; left).
  unfold plainClassTypes in Hplain. rewrite Forall_forall in Hplain. by apply Hplain.
Qed.

Lemma js_groupNodesByType_snoc (nodes : ComfyWorkflowJson) (e : string * ComfyNode) :
  Js.groupNodesByType (nodes ++ [e])
  = grouped ← Js.groupNodesByType nodes;
    let grouped' :=
      if Js.truthy (Js.get grouped (class_type e.2)) then grouped
      else Js.set (class_type e.2) [] grouped in
    match Js.get grouped' (class_type e.2) with
    | Js.Own l => Returns (Js.set (class_type e.2) (l ++ [e]) grouped')
    | Js.Inherited _ => Throws
    | Js.Undefined => Throws
    end.
Proof. unfold Js.groupNodesByType. by rewrite foldl_app. Qed.

(** On class types that are no members' names, [groupNodesByType] returns:
    under each class type, the nodes of that class type in their order. *)
Lemma js_groupNodesByType_Returns (nodes : ComfyWorkflowJson) :
  plainClassTypes nodes →
  ∃ grouped,
    Js.groupNodesByType nodes = Returns grouped
    ∧ ∀ ct, obj_get grouped ct
            = match findNodesByType ct nodes with [] => None | l => Some l end.
Proof.
  induction nodes as [|e nodes IH] using rev_ind; intros Hplain.
  { by exists []. }
  apply plainClassTypes_app in Hplain as [Hnodes [He _]%Forall_cons].
  destruct (IH Hnodes) as (grouped & Hg & Hget).
  rewrite js_groupNodesByType_snoc, Hg. simpl.
  set (ct := class_type e.2) in *.
  destruct (obj_get grouped ct) as [l|] eqn:Hct.
  - assert (Js.get grouped ct = Js.Own l) as Hown by by apply get_Own.
    rewrite Hown. simpl. rewrite Hown. eexists. split; [done|].
    intros ct'. rewrite obj_get_js_set, findNodesByType_snoc. fold ct.
    destruct (decide (ct = ct')) as [<-|Hne].
    + rewrite Hget in Hct. destruct (findNodesByType ct nodes); simplify_eq/=; done.
    + by rewrite app_nil_r.
  - assert (Js.get grouped ct = Js.Undefined) as Hun.
    { apply get_Undefined. split; [by apply obj_get_None | done]. }
    rewrite Hun. simpl.
    assert (Js.get (Js.set ct [] grouped) ct = Js.Own []) as Hown.
    { apply get_Own. by rewrite obj_get_js_set, decide_True. }
    rewrite Hown. eexists. split; [done|].
    intros ct'. rewrite !obj_get_js_set, findNodesByType_snoc. fold ct.
    destruct (decide (ct = ct')) as [<-|Hne].
    + rewrite Hget in Hct. destruct (findNodesByType ct nodes); simplify_eq/=; done.
    + by rewrite app_nil_r.
Qed.

(** A class type that names a member of [Object.prototype] makes
    [groupNodesByType] throw. *)
Lemma js_groupNodesByType_Throws (nodes : ComfyWorkflowJson) :
  ¬ plainClassTypes nodes → Js.groupNodesByType nodes = Throws.
Proof.
  induction nodes as [|e nodes IH] using rev_ind; intros Hplain.
  { destruct Hplain. constructor. }
  rewrite js_groupNodesByType_snoc.
  destruct (decide (plainClassTypes nodes)) as [Hnodes|Hnodes]; [|by rewrite IH].
  destruct (js_groupNodesByType_Returns nodes Hnodes) as (grouped & -> & Hget). simpl.
  set (ct := class_type e.2) in *.
  assert (ct ∈ objectPrototypeNames) as Hct.
  { destruct (decide (ct ∈ objectPrototypeNames)) as [|Hout]; [done|].
    destruct Hplain. apply plainClassTypes_app. split; [done|]. by repeat constructor. }
  assert (Js.get grouped ct = Js.Inherited ct) as Hin.
  { apply get_Inherited. split_and!; [|done..]. apply obj_get_None. rewrite Hget.
    destruct (findNodesByType ct nodes) eqn:Hfind; [done|].
    destruct (plainClassTypes_findNodesByType nodes ct Hnodes); [by rewrite Hfind | done]. }
  rewrite Hin. simpl. by rewrite Hin.
Qed.

Lemma js_nodesOf (nodes : ComfyWorkflowJson)
    (grouped : list (string * list (string * ComfyNode))) (ct : string) :
  (∀ ct, obj_get grouped ct
         = match findNodesByType ct nodes with [] => None | l => Some l end) →
  Js.nodesOf grouped ct = findNodesByType ct nodes.
Proof.
  intros Hget. unfold Js.nodesOf, Js.get. rewrite Hget.
  destruct (findNodesByType ct nodes); [by case_decide | done].
Qed.

Lemma js_classDiffs_classType this thisNodes other otherNodes ct d :
  d ∈ Js.classDiffs this thisNodes other otherNodes ct → Js.classType d = Some ct.
Proof.
  unfold Js.classDiffs. repeat case_decide.
  - by intros ->%list_elem_of_singleton.
  - repeat case_match; try by intros ?%elem_of_nil.
    by intros (? & -> & _)%list_elem_of_fmap.
  - by intros (? & -> & _)%list_elem_of_fmap.
  - by intros ?%elem_of_nil.
Qed.

(** What [getStructuralDiff] returns: for each class type of either
    workflow, once, the records of the round of its loop on the nodes of
    that class type. *)
Lemma js_getStructuralDiff_Returns (this other : ComfyWorkflowJson) :
  plainClassTypes this → plainClassTypes other →
  ∃ allClassTypes,
    Js.getStructuralDiff this other
    = Returns (ct ← allClassTypes;
               Js.classDiffs this (findNodesByType ct this)
                             other (findNodesByType ct other) ct)
    ∧ NoDup allClassTypes
    ∧ ∀ ct, ct ∈ allClassTypes
            ↔ findNodesByType ct this ≠ [] ∨ findNodesByType ct other ≠ [].
Proof.
  intros Hthis Hother.
  destruct (js_groupNodesByType_Returns this Hthis) as (g1 & Hg1 & Hget1).
  destruct (js_groupNodesByType_Returns other Hother) as (g2 & Hg2 & Hget2).
  exists (Set_of (obj_keys g1 ++ obj_keys g2)). split_and!.
  - unfold Js.getStructuralDiff. rewrite Hg1, Hg2. simpl. f_equal.
    apply bind_ext_in. intros ct _.
    by rewrite (js_nodesOf this), (js_nodesOf other).
  - apply Set_of_NoDup.
  - intros ct. rewrite Set_of_elem, elem_of_app, <-!obj_get_is_Some, Hget1, Hget2.
    destruct (findNodesByType ct this), (findNodesByType ct other);
      split; intros [H|H]; try (by destruct H); eauto.
Qed.

(** [getStructuralDiff] throws exactly when a class type of one of the two
    workflows names a member of [Object.prototype]. *)
Lemma js_getStructuralDiff_Throws (this other : ComfyWorkflowJson) :
  Js.getStructuralDiff this other = Throws
  ↔ ¬ (plainClassTypes this ∧ plainClassTypes other).
Proof.
  split.
  - intros Hthrows [Hthis Hother].
    destruct (js_getStructuralDiff_Returns this other Hthis Hother) as (? & Heq & _).
    by rewrite Heq in Hthrows.
  - intros Hnot. unfold Js.getStructuralDiff.
    destruct (decide (plainClassTypes this)) as [Hthis|Hthis].
    + destruct (js_groupNodesByType_Returns this Hthis) as (g1 & -> & _). simpl.
      by rewrite (js_groupNodesByType_Throws other) by tauto.
    + rewrite (js_groupNodesByType_Throws this) by done. reflexivity.
Qed.

Lemma js_getStructuralDiff_plain (this other : ComfyWorkflowJson)
    (diffs : list Js.StructuralDiff) :
  Js.getStructuralDiff this other = Returns diffs →
  plainClassTypes this ∧ plainClassTypes other.
Proof.
  intros Hret. destruct (decide (plainClassTypes this ∧ plainClassTypes other)) as [|Hnot];
    [done|].
  apply js_getStructuralDiff_Throws in Hnot. by rewrite Hnot in Hret.
Qed.

Lemma js_classDiffs_absent this other ct :
  Js.classDiffs this [] other [] ct = [].
Proof. unfold Js.classDiffs. simpl. repeat case_decide; done || lia. Qed.

(** The records [getStructuralDiff] tags with a class type are those of the
    round of its loop for that class type. *)
Lemma js_getStructuralDiff_class (this other : ComfyWorkflowJson)
    (diffs : list Js.StructuralDiff) (ct : string) :
  Js.getStructuralDiff this other = Returns diffs →
  filter (λ d, Js.classType d = Some ct) diffs
  = Js.classDiffs this (findNodesByType ct this) other (findNodesByType ct other) ct.
Proof.
  intros Hret. destruct (js_getStructuralDiff_plain _ _ _ Hret) as [Hthis Hother].
  destruct (js_getStructuralDiff_Returns this other Hthis Hother) as (cts & Heq & Hnd & Hin).
  rewrite Heq in Hret. injection Hret as <-.
  rewrite (bind_filter_key Js.classType).
  - case_decide as Hct; [done|]. rewrite Hin in Hct.
    destruct (findNodesByType ct this); [|naive_solver].
    destruct (findNodesByType ct other); [|naive_solver].
    by rewrite js_classDiffs_absent.
  - done.
  - intros a d. apply js_classDiffs_classType.
Qed.

Lemma js_getStructuralDiff_nil (this other : ComfyWorkflowJson) :
  plainClassTypes this → plainClassTypes other →
  Js.getStructuralDiff this other = Returns []
  ↔ ∀ ct, Js.classDiffs this (findNodesByType ct this)
                        other (findNodesByType ct other) ct = [].
Proof.
  intros Hthis Hother. split.
  - intros Hret ct. by rewrite <-(js_getStructuralDiff_class _ _ _ ct Hret).
  - intros Hall.
    destruct (js_getStructuralDiff_Returns this other Hthis Hother) as (cts & -> & _).
    f_equal. apply bind_nil. intros ct _. apply Hall.
Qed.

Lemma js_isStructurallyEquivalentTo_true (this other : ComfyWorkflowJson) :
  Js.isStructurallyEquivalentTo this other = Returns true
  ↔ Js.getStructuralDiff this other = Returns [].
Proof.
  unfold Js.isStructurallyEquivalentTo.
  destruct (Js.getStructuralDiff this other) as [diffs| |]; simpl; [|done..].
  split.
  - intros [= Hlen%bool_decide_eq_true%nil_length_inv]. by subst.
  - by intros [= ->].
Qed.

(** * The node-input-diff with JavaScript's property lookup *)

Lemma js_compareInput_nil this thisNode other otherNode name :
  Js.compareInput this thisNode other otherNode name = []
  ↔ Js.valuesAgree this (Js.get (inputs thisNode) name) other (Js.get (inputs otherNode) name).
Proof.
  unfold Js.compareInput, Js.valuesAgree.
  destruct (Js.asConnection (Js.get (inputs thisNode) name)),
           (Js.asConnection (Js.get (inputs otherNode) name)); try done.
  - case_decide as Hn; done.
  - case_decide as Hn; [|done].
    split; [|done]. repeat case_match; done.
Qed.

Lemma js_get_absent {V} (o1 o2 : list (string * V)) (name : string) :
  name ∉ obj_keys o1 → name ∉ obj_keys o2 → Js.get o1 name = Js.get o2 name.
Proof. intros H1%obj_get_None H2%obj_get_None. unfold Js.get. by rewrite H1, H2. Qed.

Lemma js_valuesAgree_absent this other (o1 o2 : list (string * InputValue)) name :
  name ∉ obj_keys o1 → name ∉ obj_keys o2 →
  Js.valuesAgree this (Js.get o1 name) other (Js.get o2 name).
Proof.
  intros H1 H2. rewrite (js_get_absent o1 o2) by done.
  apply obj_get_None in H2. unfold Js.valuesAgree, Js.get. rewrite H2.
  by case_decide.
Qed.

Lemma js_compareNodeInputs_nil this thisNode other otherNode :
  Js.compareNodeInputs this thisNode other otherNode = []
  ↔ ∀ name, Js.valuesAgree this (Js.get (inputs thisNode) name)
                           other (Js.get (inputs otherNode) name).
Proof.
  unfold Js.compareNodeInputs. rewrite bind_nil. split.
  - intros Hall name.
    destruct (decide (name ∈ obj_keys (inputs thisNode) ++ obj_keys (inputs otherNode)))
      as [Hin|Hout].
    + apply js_compareInput_nil, Hall. by apply Set_of_elem.
    + apply not_elem_of_app in Hout as [H1 H2]. by apply js_valuesAgree_absent.
  - intros Hall name _. by apply js_compareInput_nil.
Qed.

Lemma js_compareInput_inputName this thisNode other otherNode name d :
  d ∈ Js.compareInput this thisNode other otherNode name → Js.inputName d = Some name.
Proof.
  unfold Js.compareInput.
  repeat case_match; try (by intros ?%elem_of_nil);
    by intros ->%list_elem_of_singleton.
Qed.

(** The records [compareNodeInputs] pushes for an input name are those of
    the round of its loop for that name. *)
Lemma js_compareNodeInputs_name this thisNode other otherNode name :
  filter (λ d, Js.inputName d = Some name)
         (Js.compareNodeInputs this thisNode other otherNode)
  = Js.compareInput this thisNode other otherNode name.
Proof.
  unfold Js.compareNodeInputs. rewrite (bind_filter_key Js.inputName).
  - case_decide as Hin; [done|]. symmetry. apply js_compareInput_nil.
    rewrite Set_of_elem in Hin. apply not_elem_of_app in Hin as [H1 H2].
    by apply js_valuesAgree_absent.
  - apply Set_of_NoDup.
  - intros n d. apply js_compareInput_inputName.
Qed.

Lemma js_valuesAgree_sym this v other w :
  Js.valuesAgree this v other w → Js.valuesAgree other w this v.
Proof.
  unfold Js.valuesAgree. destruct (Js.asConnection v), (Js.asConnection w); done.
Qed.

Lemma js_valuesAgree_refl G v : Js.valuesAgree G v G v.
Proof. unfold Js.valuesAgree. by destruct (Js.asConnection v). Qed.

Lemma js_compareNodeInputs_nil_sym this thisNode other otherNode :
  Js.compareNodeInputs this thisNode other otherNode = []
  → Js.compareNodeInputs other otherNode this thisNode = [].
Proof.
  rewrite !js_compareNodeInputs_nil. intros Hall name. apply js_valuesAgree_sym, Hall.
Qed.

(** [findBestNodeMatching] reports the node-input-diff of the first pair the
    greedy pairing of the specification leaves unmatched. *)
Lemma js_findBestNodeMatching_greedy this thisNodes other otherNodes :
  Js.findBestNodeMatching this thisNodes other otherNodes
  = let r := greedyPairing (λ n, Js.hashNodeInputs this n.2)
                           (λ n, Js.hashNodeInputs other n.2) thisNodes otherNodes in
    match unmatchedA r, unmatchedB r with
    | a :: _, b :: _ => Js.compareNodeInputs this a.2 other b.2
    | _, _ => []
    end.
Proof.
  unfold Js.findBestNodeMatching. cbv zeta.
  destruct (matchLoop_greedy (λ n, Js.hashNodeInputs this n.2)
              (λ n, Js.hashNodeInputs other n.2)
              thisNodes otherNodes) as (iu & ju & -> & HA & HB).
  destruct HA as [|i a iu ua Hi HA]; [done|].
  destruct HB as [|j b ju ub Hj HB]; [done|].
  by rewrite Hi, Hj.
Qed.

Lemma js_classDiffs_nil_intro this other ct :
  let thisNodes := findNodesByType ct this in
  let otherNodes := findNodesByType ct other in
  length thisNodes = length otherNodes →
  (∀ a b, thisNodes = [a] → otherNodes = [b] →
          Js.compareNodeInputs this a.2 other b.2 = []) →
  (1 < length thisNodes →
   (λ n, Js.hashNodeInputs this n.2) <$> thisNodes
   ≡ₚ (λ n, Js.hashNodeInputs other n.2) <$> otherNodes) →
  Js.classDiffs this thisNodes other otherNodes ct = [].
Proof.
  intros thisNodes otherNodes Hlen Hone Hmany. unfold Js.classDiffs.
  rewrite decide_False by lia. case_decide as H1; [|case_decide as H2; [|done]].
  - destruct thisNodes as [|a [|??]], otherNodes as [|b [|??]]; simplify_eq/=.
    by rewrite (Hone a b).
  - rewrite js_findBestNodeMatching_greedy. cbv zeta.
    destruct (greedyPairing_complete (λ n, Js.hashNodeInputs this n.2)
                (λ n, Js.hashNodeInputs other n.2) thisNodes otherNodes (Hmany H2))
      as [-> _].
    done.
Qed.

(** * Renaming node ids, with JavaScript's property lookup *)

Lemma swapIds_inj (a b : string) : Inj (=) (=) (swapIds a b).
Proof. intros x y. unfold swapIds. repeat case_decide; congruence. Qed.

Lemma elem_of_sourceIds (nodes : ComfyWorkflowJson) (id : string) (node : ComfyNode)
    (name src : string) (port : Z) :
  (id, node) ∈ nodes → (name, VConnection src port) ∈ inputs node → src ∈ sourceIds nodes.
Proof.
  intros Hnode Hin. unfold sourceIds. apply list_elem_of_fmap.
  exists {| sourceNodeId := src; sourcePort := port;
            targetNodeId := id; targetInputName := name |}.
  split; [done|]. apply elem_of_getEdges. by exists node.
Qed.

Section js_remap.
Context (r : string → string) `{!Inj (=) (=) r}.
Context (G G' : ComfyWorkflowJson).
Hypothesis G_wf : wf_nodes G.
Hypothesis G'_perm : G' ≡ₚ remapIds r G.
Hypothesis G_dangling :
  ∀ s, s ∈ sourceIds G → s ∉ obj_keys G →
       s ∈ objectPrototypeNames ↔ r s ∈ objectPrototypeNames.

Lemma js_remap_normalizeConnection (s : string) (p : Z) :
  s ∈ sourceIds G →
  Js.normalizeConnection G' (r s, p) = Js.normalizeConnection G (s, p).
Proof.
  intros Hs. unfold Js.normalizeConnection, Js.get.
  rewrite (remap_get r G G' G_wf G'_perm).
  destruct (obj_get G s) as [n|] eqn:Hget; simpl; [done|].
  apply obj_get_None in Hget. specialize (G_dangling s Hs Hget).
  repeat case_decide; tauto.
Qed.

Lemma js_remap_valuesAgree (id : string) (n : ComfyNode) (name : string) :
  (id, n) ∈ G →
  Js.valuesAgree G' (Js.get (inputs (remapNode r n)) name) G (Js.get (inputs n) name).
Proof.
  intros Hn. unfold Js.valuesAgree, Js.get. simpl. rewrite obj_get_fmap.
  destruct (obj_get (inputs n) name) as [v|] eqn:Hv; simpl.
  - destruct v as [| | | |s p]; simpl; try done.
    apply js_remap_normalizeConnection.
    eapply elem_of_sourceIds; [exact Hn|]. by apply obj_get_Some_elem.
  - by case_decide.
Qed.

Lemma js_remap_compareNodeInputs (id : string) (n : ComfyNode) :
  (id, n) ∈ G → Js.compareNodeInputs G' (remapNode r n) G n = [].
Proof.
  intros Hn. apply js_compareNodeInputs_nil. intros name.
  by apply (js_remap_valuesAgree id).
Qed.

Lemma js_remap_hashNodeInputs (id : string) (n : ComfyNode) :
  (id, n) ∈ G → Js.hashNodeInputs G' (remapNode r n) = Js.hashNodeInputs G n.
Proof.
  intros Hn. unfold Js.hashNodeInputs. simpl. rewrite filter_fmap, <-list_fmap_compose.
  simpl.
  assert ((λ e : string * InputValue, (e.1, Js.normalizeValue G' e.2))
            ∘ (λ e, (e.1, remapValue r e.2)) <$> filter (λ e, e.1 ≠ "__proto__") (inputs n)
          = (λ e, (e.1, Js.normalizeValue G e.2))
              <$> filter (λ e, e.1 ≠ "__proto__") (inputs n)) as ->; [|done].
  apply list_fmap_ext. intros _ [k v] [_ Hin]%list_elem_of_lookup_2%list_elem_of_filter.
  simpl. f_equal. destruct v as [| | | |s p]; simpl; try done.
  apply js_remap_normalizeConnection. by eapply elem_of_sourceIds.
Qed.

Lemma js_remap_plainClassTypes : plainClassTypes G → plainClassTypes G'.
Proof.
  unfold plainClassTypes. rewrite G'_perm. unfold remapIds. rewrite Forall_fmap.
  intros Hplain. eapply Forall_impl; [exact Hplain|]. by intros [id n].
Qed.

Lemma js_remap_classDiffs (ct : string) :
  Js.classDiffs G' (findNodesByType ct G') G (findNodesByType ct G) ct = []
  ∧ Js.classDiffs G (findNodesByType ct G) G' (findNodesByType ct G') ct = [].
Proof.
  pose proof (remap_findNodesByType r G G' G'_perm ct) as Hperm.
  assert (∀ e, e ∈ findNodesByType ct G → (e.1, e.2) ∈ G) as Hsub.
  { intros [id n] [_ ?]%list_elem_of_filter. done. }
  assert (length (findNodesByType ct G') = length (findNodesByType ct G)) as Hlen.
  { by rewrite Hperm, length_fmap. }
  assert ((λ n, Js.hashNodeInputs G' n.2) <$> findNodesByType ct G'
          ≡ₚ (λ n, Js.hashNodeInputs G n.2) <$> findNodesByType ct G) as Hhash.
  { rewrite Hperm, <-list_fmap_compose. apply reflexive_eq, list_fmap_ext.
    intros _ e He%list_elem_of_lookup_2. simpl. apply (js_remap_hashNodeInputs e.1).
    by apply Hsub. }
  assert (∀ a b, findNodesByType ct G' = [a] → findNodesByType ct G = [b] →
                 a.2 = remapNode r b.2 ∧ (b.1, b.2) ∈ G) as Hone.
  { intros a b Ha Hb. rewrite Ha, Hb in Hperm. csimpl in Hperm.
    apply Permutation_singleton_inj in Hperm as ->. split; [done|].
    apply Hsub. rewrite Hb. left. }
  split; apply js_classDiffs_nil_intro; try done.
  - intros a b Ha Hb. destruct (Hone a b Ha Hb) as [-> Hin].
    by apply (js_remap_compareNodeInputs b.1).
  - intros b a Hb Ha. destruct (Hone a b Ha Hb) as [-> Hin].
    by apply js_compareNodeInputs_nil_sym, (js_remap_compareNodeInputs b.1).
Qed.
End js_remap.

(** * Structural equivalence, with JavaScript's property lookup *)







(** * Count mismatch, with JavaScript's property lookup *)

Lemma js_count_mismatch_class (A B : ComfyWorkflowJson) (ct : string) :
  plainClassTypes A → plainClassTypes B →
  length (findNodesByType ct A) ≠ length (findNodesByType ct B) →
  ∃ diffs,
    Js.getStructuralDiff A B = Returns diffs
    ∧ filter (λ d, Js.classType d = Some ct) diffs
      = [ {| Js.type := class_type_count_mismatch; Js.classType := Some ct;
             Js.inputName := None;
             Js.expected := Js.Own (VNumber (Z.of_nat (length (findNodesByType ct B))));
             Js.actual := Js.Own (VNumber (Z.of_nat (length (findNodesByType ct A))));
             Js.details := ct +:+ ": expected "
                           +:+ num_to_string (Z.of_nat (length (findNodesByType ct B)))
                           +:+ " nodes, got "
                           +:+ num_to_string (Z.of_nat (length (findNodesByType ct A))) |} ]
    ∧ Js.isStructurallyEquivalentTo A B = Returns false.
Proof.
  intros HA HB Hne.
  destruct (js_getStructuralDiff_Returns A B HA HB) as (cts & Hret & _).
  eexists. split; [exact Hret|].
  pose proof (js_getStructuralDiff_class A B _ ct Hret) as Hclass.
  unfold Js.classDiffs in Hclass at 2. rewrite decide_True in Hclass by done.
  split; [exact Hclass|].
  unfold Js.isStructurallyEquivalentTo. rewrite Hret. simpl. f_equal.
  apply bool_decide_eq_false. intros Hlen%nil_length_inv.
  by rewrite Hlen in Hclass.
Qed.




(** * Connections in the node-input-diff, with JavaScript's property lookup *)

Lemma js_compareInput_connections (A : ComfyWorkflowJson) (a : ComfyNode)
    (B : ComfyWorkflowJson) (b : ComfyNode) (name ia ib : string) (pa pb : Z) :
  obj_get (inputs a) name = Some (VConnection ia pa) →
  obj_get (inputs b) name = Some (VConnection ib pb) →
  let thisNormalized := Js.normalizeConnection A (ia, pa) in
  let otherNormalized := Js.normalizeConnection B (ib, pb) in
  Js.compareInput A a B b name
  = (if decide (thisNormalized = otherNormalized) then []
     else [ {| Js.type := connection_mismatch; Js.classType := None;
               Js.inputName := Some name;
               Js.expected := Js.Own (VString otherNormalized);
               Js.actual := Js.Own (VString thisNormalized);
               Js.details := "Input " +:+ dq +:+ name +:+ dq
                             +:+ ": connection mismatch - expected " +:+ otherNormalized
                             +:+ ", got " +:+ thisNormalized |} ]).
Proof.
  intros Ha Hb thisNormalized otherNormalized.
  unfold Js.compareInput, Js.get. rewrite Ha, Hb. simpl.
  fold thisNormalized otherNormalized.
  destruct (decide (thisNormalized = otherNormalized)).
  - by rewrite decide_False by (by intros ?).
  - by rewrite decide_True.
Qed.

(** C5 (connections in the node-input-diff): when both sides' values of an
    input name are connections, the records for that name are one
    [connection_mismatch] (expected = B's normalized string, actual = A's) if
    the normalized strings, each resolved in its own graph, differ, and none
    if they are equal; source nodes with equal class tags and equal ports
    give no record, whatever the source ids. *)
Theorem C5_connection_mismatch (A : ComfyWorkflowJson) (a : ComfyNode)
    (B : ComfyWorkflowJson) (b : ComfyNode) (name ia ib : string) (pa pb : Z) :
  obj_get (inputs a) name = Some (VConnection ia pa) →
  obj_get (inputs b) name = Some (VConnection ib pb) →
  let thisNormalized := Js.normalizeConnection A (ia, pa) in
  let otherNormalized := Js.normalizeConnection B (ib, pb) in
  filter (λ d, Js.inputName d = Some name) (Js.compareNodeInputs A a B b)
  = (if decide (thisNormalized = otherNormalized) then []
     else [ {| Js.type := connection_mismatch; Js.classType := None;
               Js.inputName := Some name;
               Js.expected := Js.Own (VString otherNormalized);
               Js.actual := Js.Own (VString thisNormalized);
               Js.details := "Input " +:+ dq +:+ name +:+ dq
                             +:+ ": connection mismatch - expected " +:+ otherNormalized
                             +:+ ", got " +:+ thisNormalized |} ])
  ∧ (∀ na nb, obj_get A ia = Some na → obj_get B ib = Some nb →
              class_type na = class_type nb → pa = pb →
              thisNormalized = class_type na +:+ ":" +:+ num_to_string pa
              ∧ otherNormalized = class_type nb +:+ ":" +:+ num_to_string pb
              ∧ filter (λ d, Js.inputName d = Some name) (Js.compareNodeInputs A a B b) = []).
Proof.
  intros Ha Hb thisNormalized otherNormalized.
  pose proof (js_compareInput_connections A a B b name ia ib pa pb Ha Hb) as Hrec.
  cbv zeta in Hrec. fold thisNormalized otherNormalized in Hrec.
  rewrite js_compareNodeInputs_name. split; [exact Hrec|]. intros na nb Hna Hnb Hct ->.
  assert (thisNormalized = class_type na +:+ ":" +:+ num_to_string pb) as Hthis.
  { unfold thisNormalized, Js.normalizeConnection, Js.get. by rewrite Hna. }
  assert (otherNormalized = class_type nb +:+ ":" +:+ num_to_string pb) as Hother.
  { unfold otherNormalized, Js.normalizeConnection, Js.get. by rewrite Hnb. }
  split_and!; [done..|]. rewrite Hrec, decide_True; [done|].
  by rewrite Hthis, Hother, Hct.
Qed.

Lemma C5_connection_mismatch_witness :
  filter (λ d, Js.inputName d = Some "vae")
         (Js.compareNodeInputs wfA (mkNode "VAEEncode" [("vae", VConnection "1" 0)])
                               wfB (mkNode "VAEEncode" [("vae", VConnection "2" 0)]))
  = [ {| Js.type := connection_mismatch; Js.classType := None; Js.inputName := Some "vae";
         Js.expected := Js.Own (VString "KSampler:0");
         Js.actual := Js.Own (VString "VAELoader:0");
         Js.details := "Input " +:+ dq +:+ "vae" +:+ dq
                       +:+ ": connection mismatch - expected KSampler:0, got VAELoader:0" |} ].
Proof.
  exact (proj1 (C5_connection_mismatch wfA (mkNode "VAEEncode" [("vae", VConnection "1" 0)])
                  wfB (mkNode "VAEEncode" [("vae", VConnection "2" 0)])
                  "vae" "1" "2" 0 0 eq_refl eq_refl)).
Defined.

(** * Dangling connections, with JavaScript's property lookup *)

Lemma js_normalized_get (nodes : ComfyWorkflowJson) (ins : list (string * InputValue))
    (k : string) :
  obj_get ((λ e, (e.1, Js.normalizeValue nodes e.2))
             <$> filter (λ e, e.1 ≠ "__proto__") ins) k
  = if decide (k = "__proto__") then None else Js.normalizeValue nodes <$> obj_get ins k.
Proof.
  rewrite obj_get_fmap.
  change (filter (λ e : string * InputValue, e.1 ≠ "__proto__") ins)
    with (obj_delete "__proto__" ins).
  rewrite obj_get_delete. repeat case_decide; simplify_eq; done.
Qed.

Lemma js_normalized_connection (nodes : ComfyWorkflowJson)
    (l1 l2 : list (string * InputValue)) (name id : string) (p : Z) (s : string) :
  Js.normalizeConnection nodes (id, p) = s →
  (λ e : string * InputValue, (e.1, Js.normalizeValue nodes e.2))
    <$> filter (λ e, e.1 ≠ "__proto__") (l1 ++ (name, VConnection id p) :: l2)
  = ((λ e : string * InputValue, (e.1, Js.normalizeValue nodes e.2))
       <$> filter (λ e, e.1 ≠ "__proto__") l1)
    ++ (if decide (name ≠ "__proto__") then [(name, s)] else [])
    ++ ((λ e : string * InputValue, (e.1, Js.normalizeValue nodes e.2))
          <$> filter (λ e, e.1 ≠ "__proto__") l2).
Proof.
  intros <-. rewrite !filter_app, !filter_cons. simpl.
  case_decide; rewrite fmap_app; [rewrite fmap_cons|]; done.
Qed.

(** The part of the content hash an input contributes. *)
Lemma js_hashNodeInputs_contribution (nodes : ComfyWorkflowJson) (node : ComfyNode)
    (name : string) (value : InputValue) :
  obj_get (inputs node) name = Some value → name ≠ "__proto__" →
  ∃ before after,
    Js.hashNodeInputs nodes node
    = join "|" (before ++ (name +:+ ":" +:+ Js.normalizeValue nodes value) :: after).
Proof.
  intros Hget Hname. unfold Js.hashNodeInputs.
  set (normalized := (λ e, (e.1, Js.normalizeValue nodes e.2))
                       <$> filter (λ e, e.1 ≠ "__proto__") (inputs node)).
  assert (obj_get normalized name = Some (Js.normalizeValue nodes value)) as Hnorm.
  { unfold normalized. rewrite js_normalized_get, decide_False by done. by rewrite Hget. }
  assert (name ∈ merge_sort String.le (obj_keys normalized)) as Hin.
  { rewrite merge_sort_Permutation. apply obj_get_is_Some. by rewrite Hnorm. }
  apply list_elem_of_split in Hin as (k1 & k2 & ->).
  rewrite fmap_app, fmap_cons, Hnorm. simpl. eauto.
Qed.

Lemma js_hashNodeInputs_single (nodes : ComfyWorkflowJson) (ct : string)
    (meta : option NodeMeta) (name : string) (value : InputValue) :
  name ≠ "__proto__" →
  Js.hashNodeInputs nodes {| inputs := [(name, value)]; class_type := ct; _meta := meta |}
  = name +:+ ":" +:+ Js.normalizeValue nodes value.
Proof.
  intros Hname. unfold Js.hashNodeInputs. cbn [inputs].
  rewrite filter_cons_True by done. rewrite filter_nil. cbn.
  rewrite decide_True by done. cbn. reflexivity.
Qed.




(** * The multi-node class, with JavaScript's property lookup *)

(** C2 (greedy matching): for a class type with the same number, more than
    one, of nodes in A and B, [findBestNodeMatching] reports the
    node-input-diff of one pair, the first node of A the greedy pairing
    leaves unmatched against the first node of B it leaves unmatched, and
    nothing when either side has no unmatched node.  The pairing takes A's
    nodes in their original order and gives each the first remaining node of
    B with an equal content hash.  Whenever [getStructuralDiff] returns,
    these are its records for the class type; it returns when no class type
    names a member of [Object.prototype]. *)
Theorem C2_greedy_matching (A B : ComfyWorkflowJson) (ct : string) :
  let nodesA := findNodesByType ct A in
  let nodesB := findNodesByType ct B in
  let r := greedyPairing (λ n, Js.hashNodeInputs A n.2) (λ n, Js.hashNodeInputs B n.2)
                         nodesA nodesB in
  let reported :=
    match unmatchedA r, unmatchedB r with
    | a :: _, b :: _ => Js.compareNodeInputs A a.2 B b.2
    | _, _ => []
    end in
  1 < length nodesA → length nodesA = length nodesB →
  Js.findBestNodeMatching A nodesA B nodesB = reported
  ∧ (∀ diffs, Js.getStructuralDiff A B = Returns diffs →
              filter (λ d, Js.classType d = Some ct) diffs = Js.withClassType ct <$> reported)
  ∧ (plainClassTypes A → plainClassTypes B →
     ∃ diffs, Js.getStructuralDiff A B = Returns diffs).
Proof.
  intros nodesA nodesB r reported Hmany Hlen.
  assert (Js.findBestNodeMatching A nodesA B nodesB = reported) as Hfind.
  { by rewrite js_findBestNodeMatching_greedy. }
  split_and!; [exact Hfind| |].
  - intros diffs Hret. rewrite (js_getStructuralDiff_class A B diffs ct Hret).
    unfold Js.classDiffs. fold nodesA nodesB.
    rewrite decide_False, decide_False, decide_True by lia.
    by rewrite Hfind.
  - intros HA HB. destruct (js_getStructuralDiff_Returns A B HA HB) as (cts & Hret & _).
    eauto.
Qed.

Lemma C2_greedy_matching_witness :
  Js.findBestNodeMatching wfImgs1 wfImgs1 wfImgs3 wfImgs3
  = Js.compareNodeInputs wfImgs1 (mkNode "LoadImage" [("image", VString "a.png")])
                         wfImgs3 (mkNode "LoadImage" [("image", VString "c.png");
                                                       ("w", VNumber 5)]).
Proof.
  refine (proj1 (C2_greedy_matching wfImgs1 wfImgs3 "LoadImage" _ _)); vm_compute; lia.
Defined.

(** * Equal content, equal hash *)

Lemma js_valuesAgree_is_Some this (o1 o2 : list (string * InputValue)) other name :
  Js.valuesAgree this (Js.get o1 name) other (Js.get o2 name) →
  is_Some (obj_get o1 name) ↔ is_Some (obj_get o2 name).
Proof.
  unfold Js.valuesAgree, Js.get.
  destruct (obj_get o1 name) as [v|], (obj_get o2 name) as [w|]; simpl.
  - intros _. split; intros _; by eexists.
  - destruct v; case_decide; simpl; try done.
  - destruct w; case_decide; simpl; try done.
  - done.
Qed.

Lemma js_valuesAgree_normalizeValue this v other w :
  Js.valuesAgree this (Js.Own v) other (Js.Own w) →
  Js.normalizeValue this v = Js.normalizeValue other w.
Proof.
  unfold Js.valuesAgree.
  destruct v, w; cbn [Js.asConnection Js.normalizeValue]; intros H; by simplify_eq.
Qed.

(** Nodes whose inputs agree name by name have the same content hash. *)
Lemma js_hashNodeInputs_agree this thisNode other otherNode :
  wf_inputs (inputs thisNode) → wf_inputs (inputs otherNode) →
  (∀ name, Js.valuesAgree this (Js.get (inputs thisNode) name)
                          other (Js.get (inputs otherNode) name)) →
  Js.hashNodeInputs this thisNode = Js.hashNodeInputs other otherNode.
Proof.
  intros Hwf1 Hwf2 Hagree. unfold Js.hashNodeInputs. rewrite !obj_keys_fmap.
  change (filter (λ e : string * InputValue, e.1 ≠ "__proto__") (inputs thisNode))
    with (obj_delete "__proto__" (inputs thisNode)).
  change (filter (λ e : string * InputValue, e.1 ≠ "__proto__") (inputs otherNode))
    with (obj_delete "__proto__" (inputs otherNode)).
  assert (merge_sort String.le (obj_keys (obj_delete "__proto__" (inputs thisNode)))
          = merge_sort String.le (obj_keys (obj_delete "__proto__" (inputs otherNode))))
    as ->.
  { apply (StronglySorted_unique String.le); [apply StronglySorted_merge_sort; apply _..|].
    rewrite !merge_sort_Permutation, !obj_keys_delete.
    apply NoDup_Permutation; [by apply NoDup_filter..|].
    intros k. rewrite !list_elem_of_filter, <-!obj_get_is_Some.
    by rewrite (js_valuesAgree_is_Some _ _ _ _ _ (Hagree k)). }
  f_equal. apply list_fmap_ext. intros _ k _. f_equal.
  rewrite !obj_get_fmap, !obj_get_delete. case_decide; [done|].
  specialize (Hagree k).
  pose proof (js_valuesAgree_is_Some _ _ _ _ _ Hagree) as Hsome.
  unfold Js.get in Hagree.
  destruct (obj_get (inputs thisNode) k) as [v|], (obj_get (inputs otherNode) k) as [w|];
    simpl; [|by destruct Hsome as [[? ?] _]|by destruct Hsome as [_ [? ?]]|done].
  by rewrite (js_valuesAgree_normalizeValue _ _ _ _ Hagree).
Qed.

(** * Enumeration order and metadata *)

Section js_same_content.
Context (A B : ComfyWorkflowJson).
Hypothesis HA : wf_workflow A.
Hypothesis HB : wf_workflow B.
Hypothesis Hclass : ∀ id, class_type <$> obj_get A id = class_type <$> obj_get B id.
Hypothesis Hinput :
  ∀ id name, obj_get A id ≫= (λ n, obj_get (inputs n) name)
             = obj_get B id ≫= (λ n, obj_get (inputs n) name).

Lemma js_same_content_keys : obj_keys A ≡ₚ obj_keys B.
Proof.
  apply NoDup_Permutation; [apply HA | apply HB |].
  intros id. rewrite <-!obj_get_is_Some. specialize (Hclass id).
  destruct (obj_get A id), (obj_get B id); simplify_eq/=; split; intros [??]; by eauto.
Qed.

Lemma js_same_content_plain : plainClassTypes A → plainClassTypes B.
Proof.
  unfold plainClassTypes. rewrite !Forall_forall. intros Hplain [id b] Hb.
  apply (obj_get_NoDup _ _ _ (proj1 HB)) in Hb. specialize (Hclass id).
  rewrite Hb in Hclass. destruct (obj_get A id) as [a|] eqn:Ha; [|done].
  simpl in *. injection Hclass as <-. apply (Hplain (id, a)). by apply obj_get_Some_elem.
Qed.

Lemma js_same_content_normalizeConnection (c : string * Z) :
  Js.normalizeConnection A c = Js.normalizeConnection B c.
Proof.
  destruct c as [s p]. unfold Js.normalizeConnection, Js.get. specialize (Hclass s).
  destruct (obj_get A s), (obj_get B s); simplify_eq/=; [|done]. by rewrite Hclass.
Qed.

Lemma js_same_content_valuesAgree (v : Js.Read InputValue) : Js.valuesAgree A v B v.
Proof.
  unfold Js.valuesAgree. destruct (Js.asConnection v); [|done].
  apply js_same_content_normalizeConnection.
Qed.

Lemma js_same_content_nodes (id : string) (a b : ComfyNode) :
  obj_get A id = Some a → obj_get B id = Some b →
  class_type a = class_type b
  ∧ Js.compareNodeInputs A a B b = []
  ∧ Js.hashNodeInputs A a = Js.hashNodeInputs B b.
Proof.
  intros Ha Hb.
  assert (∀ name, Js.valuesAgree A (Js.get (inputs a) name) B (Js.get (inputs b) name))
    as Hagree.
  { intros name. specialize (Hinput id name). rewrite Ha, Hb in Hinput. simpl in Hinput.
    unfold Js.get at 2. rewrite <-Hinput. apply js_same_content_valuesAgree. }
  split_and!.
  - specialize (Hclass id). rewrite Ha, Hb in Hclass. by simplify_eq/=.
  - by apply js_compareNodeInputs_nil.
  - apply js_hashNodeInputs_agree; [| |done].
    + destruct HA as [_ Hins]. rewrite Forall_forall in Hins.
      apply (Hins (id, a)). by apply obj_get_Some_elem.
    + destruct HB as [_ Hins]. rewrite Forall_forall in Hins.
      apply (Hins (id, b)). by apply obj_get_Some_elem.
Qed.

(** The id and hash of the node under a key, when its class type is [ct]. *)
Lemma js_hashed_by_key (X : ComfyWorkflowJson) (ct : string)
    (l : list (string * ComfyNode)) :
  (∀ e, e ∈ l → obj_get X e.1 = Some e.2) →
  omap (λ id, match obj_get X id with
              | Some n => if decide (class_type n = ct)
                          then Some (id, Js.hashNodeInputs X n) else None
              | None => None
              end) (obj_keys l)
  = (λ e, (e.1, Js.hashNodeInputs X e.2)) <$> findNodesByType ct l.
Proof.
  unfold findNodesByType, obj_keys. induction l as [|e l IH]; intros Hl; [done|].
  csimpl. rewrite (Hl e) by left. rewrite filter_cons.
  rewrite IH by (intros ??; apply Hl; by right).
  by destruct (decide (class_type e.2 = ct)).
Qed.

Lemma js_same_content_hashed (ct : string) :
  (λ e, (e.1, Js.hashNodeInputs A e.2)) <$> findNodesByType ct A
  ≡ₚ (λ e, (e.1, Js.hashNodeInputs B e.2)) <$> findNodesByType ct B.
Proof.
  rewrite <-(js_hashed_by_key A ct A), <-(js_hashed_by_key B ct B).
  - rewrite <-js_same_content_keys.
    assert (∀ (f g : string → option (string * string)) (l : list string),
              (∀ id, f id = g id) → omap f l = omap g l) as Hext.
    { intros f g l Hfg. induction l as [|x l IH]; csimpl; [done|]. by rewrite Hfg, IH. }
    rewrite (Hext _ (λ id, match obj_get B id with
                           | Some n => if decide (class_type n = ct)
                                       then Some (id, Js.hashNodeInputs B n) else None
                           | None => None
                           end)); [done|].
    intros id.
    destruct (obj_get A id) as [a|] eqn:Ha, (obj_get B id) as [b|] eqn:Hb.
    + destruct (js_same_content_nodes id a b Ha Hb) as (-> & _ & ->). done.
    + specialize (Hclass id). by rewrite Ha, Hb in Hclass.
    + specialize (Hclass id). by rewrite Ha, Hb in Hclass.
    + done.
  - intros e He. apply obj_get_NoDup; [apply HB | by destruct e].
  - intros e He. apply obj_get_NoDup; [apply HA | by destruct e].
Qed.

Lemma js_same_content_equivalent :
  plainClassTypes A → Js.getStructuralDiff A B = Returns [].
Proof.
  intros Hplain. apply js_getStructuralDiff_nil; [done | by apply js_same_content_plain |].
  intros ct. pose proof (js_same_content_hashed ct) as Hperm.
  apply js_classDiffs_nil_intro.
  - apply Permutation_length in Hperm. by rewrite !length_fmap in Hperm.
  - intros a b Ha Hb. rewrite Ha, Hb in Hperm. csimpl in Hperm.
    apply Permutation_singleton_l in Hperm. injection Hperm as Hid Hhash.
    assert (a ∈ findNodesByType ct A) as [_ HaA]%list_elem_of_filter by (rewrite Ha; left).
    assert (b ∈ findNodesByType ct B) as [_ HbB]%list_elem_of_filter by (rewrite Hb; left).
    apply (js_same_content_nodes a.1).
    + apply obj_get_NoDup; [apply HA | by destruct a].
    + rewrite Hid. apply obj_get_NoDup; [apply HB | by destruct b].
  - intros _. apply (fmap_Permutation snd) in Hperm.
    by rewrite <-!list_fmap_compose in Hperm.
Qed.
End js_same_content.

(** X19: two workflows with the same node ids, the same class type under each
    id and the same value under each input name of each node are
    structurally equivalent, when no class type names a member of
    [Object.prototype]: the order in which nodes and inputs are enumerated,
    and the metadata of the nodes, play no part.  When a class type names
    such a member the comparison throws.  The number literals are integers:
    [NaN], which [!==] tells apart from itself, is not a value of
    [InputValue]. *)
Theorem order_and_metadata_ignored (A B : ComfyWorkflowJson) :
  wf_workflow A → wf_workflow B →
  (∀ id, class_type <$> obj_get A id = class_type <$> obj_get B id) →
  (∀ id name, obj_get A id ≫= (λ n, obj_get (inputs n) name)
              = obj_get B id ≫= (λ n, obj_get (inputs n) name)) →
  (plainClassTypes A →
   Js.getStructuralDiff A B = Returns [] ∧ Js.isStructurallyEquivalentTo A B = Returns true)
  ∧ (¬ plainClassTypes A →
     Js.getStructuralDiff A B = Throws ∧ Js.isStructurallyEquivalentTo A B = Throws).
Proof.
  intros HA HB Hclass Hinput. split.
  - intros Hplain.
    assert (Js.getStructuralDiff A B = Returns []) as Hnil
      by by apply js_same_content_equivalent.
    split; [done|]. by apply js_isStructurallyEquivalentTo_true.
  - intros Hnot.
    assert (Js.getStructuralDiff A B = Throws) as Hthrows.
    { apply js_getStructuralDiff_Throws. tauto. }
    split; [done|]. unfold Js.isStructurallyEquivalentTo. by rewrite Hthrows.
Qed.

Lemma order_and_metadata_ignored_witness :
  Js.getStructuralDiff
    [ ("1", mkNode "VAELoader" []);
      ("2", mkNode "KSampler" [("steps", VNumber 20); ("model", VConnection "1" 0)]) ]
    [ ("2", {| inputs := [("model", VConnection "1" 0); ("steps", VNumber 20)];
               class_type := "KSampler"; _meta := Some {| title := Some "Sampler" |} |});
      ("1", mkNode "VAELoader" []) ]
  = Returns [].
Proof.
  refine (proj1 (proj1 (order_and_metadata_ignored _ _ _ _ _ _) _)).
  - split; apply (bool_decide_unpack _); vm_compute; exact I.
  - split; apply (bool_decide_unpack _); vm_compute; exact I.
  - intros id. simpl. repeat (case_decide; simplify_eq/=); done.
  - intros id name. simpl. repeat (case_decide; simplify_eq/=); done.
  - apply (bool_decide_unpack _). vm_compute. exact I.
Defined.

(** * A class type with one node on each side *)

(** X21: with one node of a class type on each side, the records for the class
    are the node-input-diff of that pair.  For an input name, when exactly
    one side reads as a connection there is one [input_mismatch] record;
    when neither does, there is none if the two reads are equal and
    otherwise one [input_mismatch] whose [expected] is what the reference
    reads and whose [actual] is what the subject reads: [missing] when the
    subject reads [undefined], [extra] when the reference does, and the two
    values printed otherwise, a member of [Object.prototype] included. *)
Theorem singleton_input_mismatch (A B : ComfyWorkflowJson) (ct : string)
    (a b : string * ComfyNode) :
  findNodesByType ct A = [a] → findNodesByType ct B = [b] →
  (∀ diffs, Js.getStructuralDiff A B = Returns diffs →
            filter (λ d, Js.classType d = Some ct) diffs
            = Js.withClassType ct <$> Js.compareNodeInputs A a.2 B b.2)
  ∧ ∀ name,
      let thisValue := Js.get (inputs a.2) name in
      let otherValue := Js.get (inputs b.2) name in
      let records :=
        filter (λ d, Js.inputName d = Some name) (Js.compareNodeInputs A a.2 B b.2) in
      (Js.isNodeConnection thisValue ≠ Js.isNodeConnection otherValue →
       records
       = [ {| Js.type := input_mismatch; Js.classType := None; Js.inputName := Some name;
              Js.expected := otherValue; Js.actual := thisValue;
              Js.details := "Input " +:+ dq +:+ name +:+ dq
                            +:+ ": type mismatch - one is connection, other is value" |} ])
      ∧ (Js.isNodeConnection thisValue = false → Js.isNodeConnection otherValue = false →
         (thisValue = otherValue → records = [])
         ∧ (thisValue ≠ otherValue →
            ∃ text, records
                    = [ {| Js.type := input_mismatch; Js.classType := None;
                           Js.inputName := Some name;
                           Js.expected := otherValue; Js.actual := thisValue;
                           Js.details := "Input " +:+ dq +:+ name +:+ dq +:+ text |} ]
                    ∧ text = match thisValue, otherValue with
                             | Js.Undefined, _ => ": missing in this workflow"
                             | _, Js.Undefined => ": extra in this workflow"
                             | _, _ => ": expected " +:+ Js.JSON_stringify_read otherValue
                                       +:+ ", got " +:+ Js.JSON_stringify_read thisValue
                             end)).
Proof.
  intros Ha Hb. split.
  - intros diffs Hret. rewrite (js_getStructuralDiff_class A B diffs ct Hret).
    unfold Js.classDiffs. by rewrite Ha, Hb.
  - intros name thisValue otherValue records. unfold records.
    rewrite js_compareNodeInputs_name. unfold Js.compareInput. fold thisValue otherValue.
    unfold Js.isNodeConnection.
    destruct (Js.asConnection thisValue) as [c1|] eqn:H1,
             (Js.asConnection otherValue) as [c2|] eqn:H2; simpl.
    + split; [intros Hne; by destruct Hne | done].
    + split; done.
    + split; done.
    + split; [intros Hne; by destruct Hne|]. intros _ _. split.
      * intros Heq. by rewrite decide_False by (by intros ?).
      * intros Hne. rewrite decide_True by done.
        destruct thisValue as [v| |], otherValue as [w| |]; try done;
          eexists; split; try done.
Qed.

Lemma singleton_input_mismatch_witness :
  filter (λ d, Js.inputName d = Some "constructor")
         (Js.compareNodeInputs [("1", mkNode "KSampler" [("constructor", VNumber 5)])]
                               (mkNode "KSampler" [("constructor", VNumber 5)])
                               [("7", mkNode "KSampler" [])] (mkNode "KSampler" []))
  = [ {| Js.type := input_mismatch; Js.classType := None;
         Js.inputName := Some "constructor";
         Js.expected := Js.Inherited "constructor"; Js.actual := Js.Own (VNumber 5);
         Js.details := "Input " +:+ dq +:+ "constructor" +:+ dq
                       +:+ ": expected undefined, got 5" |} ].
Proof.
  destruct (proj2 (proj2 (singleton_input_mismatch
                  [("1", mkNode "KSampler" [("constructor", VNumber 5)])]
                  [("7", mkNode "KSampler" [])] "KSampler"
                  ("1", mkNode "KSampler" [("constructor", VNumber 5)])
                  ("7", mkNode "KSampler" []) eq_refl eq_refl) "constructor")
              eq_refl eq_refl) as [_ Hne].
  destruct Hne as (text & Hrec & ->); [by intros [=]|]. exact Hrec.
Defined.

(** * Removing a node, with JavaScript's property lookup *)

(** Past its guard, [removeNode] leaves the other nodes, each without the
    inputs that are connections from the id. *)
Lemma js_removeNode_found (nodes : ComfyWorkflowJson) (nodeId : string) :
  wf_workflow nodes →
  obj_delete nodeId ((λ e, (e.1, detachNode nodeId e.2)) <$> nodes)
  = (λ e, (e.1, withoutInputsFrom nodeId e.2)) <$> filter (λ e, e.1 ≠ nodeId) nodes.
Proof.
  intros [_ Hins]. unfold obj_delete. rewrite filter_fmap. simpl.
  apply list_fmap_ext. intros _ e [_ He]%list_elem_of_lookup_2%list_elem_of_filter.
  f_equal. unfold detachNode, withoutInputsFrom. f_equal.
  apply detachInputs_filter. rewrite Forall_forall in Hins. by apply Hins.
Qed.

Lemma filter_key_absent {V} (o : list (string * V)) (k : string) :
  k ∉ obj_keys o → filter (λ e, e.1 ≠ k) o = o.
Proof.
  intros Hk. apply filter_all. intros [k' v] Hin Heq. simpl in Heq. subst k'. apply Hk.
  unfold obj_keys. apply list_elem_of_fmap. by exists (k, v).
Qed.




(** * Node ids, with JavaScript's property lookup *)

(** X1: [addNode] with an explicit id throws exactly when the id is taken or
    names a member of [Object.prototype]; otherwise the node is stored under
    that id, every other node is as before and there is one node more. *)
Theorem addNode_explicit_id (classType : string) (ins : list (string * InputValue))
    (id : string) (meta : option NodeMeta) (nodes : ComfyWorkflowJson) :
  (Js.addNode classType ins (Some id) meta nodes = Throws
   ↔ id ∈ obj_keys nodes ∨ id ∈ objectPrototypeNames)
  ∧ (id ∉ obj_keys nodes → id ∉ objectPrototypeNames →
     ∃ nodes',
       Js.addNode classType ins (Some id) meta nodes = Returns (id, nodes')
       ∧ obj_get nodes' id
         = Some {| inputs := ins; class_type := classType; _meta := meta |}
       ∧ (∀ other, other ≠ id → obj_get nodes' other = obj_get nodes other)
       ∧ obj_keys nodes' ≡ₚ id :: obj_keys nodes
       ∧ getNodeCount nodes' = S (getNodeCount nodes)).
Proof.
  unfold Js.addNode. simpl. split.
  - rewrite <-truthy_get. by destruct (Js.truthy (Js.get nodes id)).
  - intros H1 H2. rewrite (proj2 (truthy_get_false nodes id)) by done.
    eexists. split_and!; [done| | | |].
    + by rewrite obj_get_js_set, decide_True.
    + intros other Hne. by rewrite obj_get_js_set, decide_False.
    + by apply obj_keys_js_set_fresh.
    + unfold getNodeCount. by rewrite obj_keys_js_set_fresh.
Qed.

Lemma addNode_explicit_id_witness :
  Js.addNode "VAELoader" [] (Some "constructor") None [] = Throws.
Proof.
  apply (proj1 (addNode_explicit_id "VAELoader" [] "constructor" None [])).
  right. apply (bool_decide_unpack _); vm_compute; exact I.
Defined.

(** * Writes to the inputs of a node *)

Lemma assignInput_ordinary (name : string) (value : InputValue)
    (ins : list (string * InputValue)) :
  name ≠ "__proto__" ∨ name ∈ obj_keys ins →
  Js.assignInput name value ins = Returns (Js.set name value ins).
Proof.
  intros Hord. unfold Js.assignInput. rewrite decide_False; [done|].
  intros [-> Hnone%obj_get_None]. by destruct Hord.
Qed.

Lemma assignInput_setter (value : InputValue) (ins : list (string * InputValue)) :
  "__proto__" ∉ obj_keys ins →
  Js.assignInput "__proto__" value ins
  = match value with
    | VConnection _ _ | VNull => NewPrototype
    | _ => Returns ins
    end.
Proof.
  intros Hout%obj_get_None. unfold Js.assignInput. by rewrite decide_True.
Qed.

Lemma assignInput_not_Throws (name : string) (value : InputValue)
    (ins : list (string * InputValue)) :
  Js.assignInput name value ins ≠ Throws.
Proof. unfold Js.assignInput. case_decide; [by destruct value | done]. Qed.

(** What a write that returns leaves: the value under the name, unless the
    name is [__proto__] and the object has no own entry of that name, and
    every other entry as before. *)
Lemma assignInput_Returns (name : string) (value : InputValue)
    (ins ins' : list (string * InputValue)) :
  Js.assignInput name value ins = Returns ins' →
  (∀ k, k ≠ name → obj_get ins' k = obj_get ins k)
  ∧ (name ≠ "__proto__" ∨ name ∈ obj_keys ins → obj_get ins' name = Some value)
  ∧ (name = "__proto__" → name ∉ obj_keys ins → ins' = ins ∧ Js.asConnection (Js.Own value) = None)
  ∧ (NoDup (obj_keys ins) → NoDup (obj_keys ins'))
  ∧ (∀ x, x ∈ ins' → x = (name, value) ∨ x ∈ ins).
Proof.
  unfold Js.assignInput. case_decide as Hcase.
  - destruct Hcase as [-> Hnone]. pose proof Hnone as Hout%obj_get_None.
    destruct value; intros [= <-]; split_and!; try done.
    all: try (intros [?|?]; done). all: try (intros x Hx; by right).
  - intros [= <-]. split_and!.
    + intros k Hk. by rewrite obj_get_js_set, decide_False.
    + intros _. by rewrite obj_get_js_set, decide_True.
    + intros -> Hout%obj_get_None. by destruct Hcase.
    + apply js_set_NoDup.
    + apply elem_of_js_set.
Qed.

Lemma ownInput_js_set (nodes : ComfyWorkflowJson) (tgt : string) (node' : ComfyNode)
    (n k : string) :
  ownInput n k (Js.set tgt node' nodes)
  = if decide (tgt = n) then obj_get (inputs node') k else ownInput n k nodes.
Proof. unfold ownInput. rewrite obj_get_js_set. by case_decide. Qed.

Lemma ownInput_edge (nodes : ComfyWorkflowJson) (tgt name src : string) (port : Z) :
  ownInput tgt name nodes = Some (VConnection src port) →
  {| sourceNodeId := src; sourcePort := port;
     targetNodeId := tgt; targetInputName := name |} ∈ getEdges nodes.
Proof.
  unfold ownInput. destruct (obj_get nodes tgt) as [node|] eqn:Hnode; [|done]. simpl.
  intros Hin. apply elem_of_getEdges. exists node. simpl.
  split; by apply obj_get_Some_elem.
Qed.

(** * Edges, with JavaScript's property lookup *)

Lemma js_addEdge_spec (src : string) (port : Z) (tgt name : string)
    (nodes : ComfyWorkflowJson) :
  (Js.addEdge src port tgt name nodes = Throws
   ↔ ((src ∉ obj_keys nodes) ∧ (src ∉ objectPrototypeNames)) ∨ (tgt ∉ obj_keys nodes))
  ∧ (Js.addEdge src port tgt name nodes = NewPrototype
     ↔ (src ∈ obj_keys nodes ∨ src ∈ objectPrototypeNames)
       ∧ ∃ node, obj_get nodes tgt = Some node
                 ∧ name = "__proto__" ∧ name ∉ obj_keys (inputs node))
  ∧ ∀ nodes', Js.addEdge src port tgt name nodes = Returns nodes' →
      ownInput tgt name nodes' = Some (VConnection src port)
      ∧ {| sourceNodeId := src; sourcePort := port;
           targetNodeId := tgt; targetInputName := name |} ∈ getEdges nodes'
      ∧ hasConnection src tgt nodes' = true
      ∧ (∀ n k, (n, k) ≠ (tgt, name) → ownInput n k nodes' = ownInput n k nodes)
      ∧ (∀ n, class_type <$> obj_get nodes' n = class_type <$> obj_get nodes n)
      ∧ (∀ n, _meta <$> obj_get nodes' n = _meta <$> obj_get nodes n)
      ∧ obj_keys nodes' = obj_keys nodes.
Proof.
  unfold Js.addEdge.
  destruct (Js.truthy (Js.get nodes src)) eqn:Hsrc.
  2: { apply truthy_get_false in Hsrc. split_and!; [naive_solver | | done].
       split; [done|]. intros [[?|?] _]; tauto. }
  apply truthy_get in Hsrc.
  destruct (Js.get nodes tgt) as [node| |] eqn:Htgt.
  - apply get_Own in Htgt. pose proof Htgt as Hkey.
    apply mk_is_Some, obj_get_is_Some in Hkey.
    destruct (Js.assignInput name (VConnection src port) (inputs node)) as [ins| |] eqn:Hassign;
      simpl.
    + split_and!.
      * split; [done|]. intros [[? ?]|?]; tauto.
      * split; [done|]. intros (_ & node0 & Hnode0 & -> & Hout). simplify_eq.
        by rewrite assignInput_setter in Hassign.
      * intros nodes' [= <-].
        destruct (assignInput_Returns _ _ _ _ Hassign) as (Hframe & Hstored & Hsetter & _).
        assert (obj_get ins name = Some (VConnection src port)) as Hin.
        { apply Hstored. destruct (decide (name = "__proto__")) as [->|]; [|by left].
          right. destruct (decide ("__proto__" ∈ obj_keys (inputs node))) as [|Hout]; [done|].
          by destruct (Hsetter eq_refl Hout). }
        assert (ownInput tgt name
                  (Js.set tgt {| inputs := ins; class_type := class_type node;
                                 _meta := _meta node |} nodes)
                = Some (VConnection src port)) as Hown.
        { by rewrite ownInput_js_set, decide_True. }
        split_and!.
        -- done.
        -- by apply ownInput_edge.
        -- unfold hasConnection. apply bool_decide_eq_true, Exists_exists.
           eexists. split; [by apply ownInput_edge|]. done.
        -- intros n k Hne. rewrite ownInput_js_set.
           destruct (decide (tgt = n)) as [<-|?]; [|done]. simpl.
           unfold ownInput. rewrite Htgt. simpl. apply Hframe. congruence.
        -- intros n. rewrite obj_get_js_set. destruct (decide (tgt = n)) as [<-|?]; [|done].
           by rewrite Htgt.
        -- intros n. rewrite obj_get_js_set. destruct (decide (tgt = n)) as [<-|?]; [|done].
           by rewrite Htgt.
        -- by apply obj_keys_js_set_own.
    + by destruct (assignInput_not_Throws name (VConnection src port) (inputs node)).
    + split_and!; [|split; [intros _|done]|done].
      * split; [done|]. intros [[? ?]|?]; tauto.
      * split; [done|]. exists node. split; [done|].
        unfold Js.assignInput in Hassign. case_decide as Hcase; [|done].
        destruct Hcase as [-> Hnone]. split; [done|]. by apply obj_get_None.
  - apply get_Inherited in Htgt as (Hout & _). split_and!; [naive_solver | | done].
    split; [done|]. intros (_ & node & Hnode & _). apply obj_get_None in Hout. congruence.
  - apply get_Undefined in Htgt as (Hout & _). split_and!; [naive_solver | | done].
    split; [done|]. intros (_ & node & Hnode & _). apply obj_get_None in Hout. congruence.
Qed.

(** X4: [addEdge] throws exactly when the source is neither a node nor the
    name of a member of [Object.prototype], or the target is not a node.
    Past that, under the input name [__proto__], when the target has no own
    input of that name, the array becomes the prototype of the target's
    inputs and no input is stored.  Otherwise the call returns: the target's
    input holds the connection, [getEdges] and [hasConnection] show it,
    every other input of every node is as before, and so are the node ids,
    class tags and metadata. *)
Theorem addEdge_spec (src : string) (port : Z) (tgt name : string)
    (nodes : ComfyWorkflowJson) :
  (Js.addEdge src port tgt name nodes = Throws
   ↔ ((src ∉ obj_keys nodes) ∧ (src ∉ objectPrototypeNames)) ∨ (tgt ∉ obj_keys nodes))
  ∧ (Js.addEdge src port tgt name nodes = NewPrototype
     ↔ (src ∈ obj_keys nodes ∨ src ∈ objectPrototypeNames)
       ∧ ∃ node, obj_get nodes tgt = Some node
                 ∧ name = "__proto__" ∧ name ∉ obj_keys (inputs node))
  ∧ ∀ nodes', Js.addEdge src port tgt name nodes = Returns nodes' →
      ownInput tgt name nodes' = Some (VConnection src port)
      ∧ {| sourceNodeId := src; sourcePort := port;
           targetNodeId := tgt; targetInputName := name |} ∈ getEdges nodes'
      ∧ hasConnection src tgt nodes' = true
      ∧ (∀ n k, (n, k) ≠ (tgt, name) → ownInput n k nodes' = ownInput n k nodes)
      ∧ (∀ n, class_type <$> obj_get nodes' n = class_type <$> obj_get nodes n)
      ∧ (∀ n, _meta <$> obj_get nodes' n = _meta <$> obj_get nodes n)
      ∧ obj_keys nodes' = obj_keys nodes.
Proof. apply js_addEdge_spec. Qed.

Lemma addEdge_spec_witness :
  Js.addEdge "constructor" 0 "2" "model"
    [ ("1", mkNode "VAELoader" []); ("2", mkNode "KSampler" []) ] ≠ Throws
  ∧ Js.addEdge "1" 0 "2" "__proto__"
      [ ("1", mkNode "VAELoader" []); ("2", mkNode "KSampler" []) ] = NewPrototype.
Proof.
  split.
  - intros Hthrows.
    apply (proj1 (addEdge_spec "constructor" 0 "2" "model" _)) in Hthrows
      as [[_ Hsrc]|Htgt].
    + apply Hsrc. apply (bool_decide_unpack _); vm_compute; exact I.
    + apply Htgt. apply (bool_decide_unpack _); vm_compute; exact I.
  - apply (proj1 (proj2 (addEdge_spec "1" 0 "2" "__proto__" _))). split.
    + left. apply (bool_decide_unpack _); vm_compute; exact I.
    + eexists. split; [reflexivity|]. split; [done|].
      apply (bool_decide_unpack _); vm_compute; exact I.
Defined.

(** X5: [removeEdge] throws exactly when the target is not a node and names a
    member of [Object.prototype].  When it returns it has not deleted a
    literal: the workflow is as before when the target's own input is not a
    connection (a literal, no input, no node), and otherwise that input
    alone is deleted. *)
Theorem removeEdge_spec (tgt name : string) (nodes : ComfyWorkflowJson) :
  (Js.removeEdge tgt name nodes = Throws
   ↔ (tgt ∉ obj_keys nodes) ∧ tgt ∈ objectPrototypeNames)
  ∧ Js.removeEdge tgt name nodes ≠ NewPrototype
  ∧ ∀ nodes', Js.removeEdge tgt name nodes = Returns nodes' →
      (asConnection (ownInput tgt name nodes) = None → nodes' = nodes)
      ∧ (is_Some (asConnection (ownInput tgt name nodes)) →
         ownInput tgt name nodes' = None
         ∧ (∀ n k, (n, k) ≠ (tgt, name) → ownInput n k nodes' = ownInput n k nodes)
         ∧ (∀ n, class_type <$> obj_get nodes' n = class_type <$> obj_get nodes n)
         ∧ (∀ n, _meta <$> obj_get nodes' n = _meta <$> obj_get nodes n)
         ∧ obj_keys nodes' = obj_keys nodes).
Proof.
  unfold Js.removeEdge, ownInput.
  destruct (Js.get nodes tgt) as [node| |] eqn:Htgt.
  - apply get_Own in Htgt. pose proof Htgt as Hkey.
    apply mk_is_Some, obj_get_is_Some in Hkey. rewrite Htgt. simpl.
    assert (Js.isNodeConnection (Js.get (inputs node) name)
            = bool_decide (is_Some (asConnection (obj_get (inputs node) name)))) as ->.
    { unfold Js.isNodeConnection, Js.get.
      destruct (obj_get (inputs node) name) as [[]|]; try done. by case_decide. }
    case_bool_decide as Hconn.
    + split_and!; [split; [done | tauto] | done |]. intros nodes' [= <-]. split.
      * intros Hnone. rewrite Hnone in Hconn. by destruct Hconn.
      * intros _. split_and!.
        -- rewrite obj_get_js_set, decide_True by done. simpl.
           by rewrite obj_get_delete, decide_True.
        -- intros n k Hne. rewrite obj_get_js_set.
           destruct (decide (tgt = n)) as [<-|?]; [|done].
           rewrite Htgt. simpl. rewrite obj_get_delete, decide_False; [done|]. congruence.
        -- intros n. rewrite obj_get_js_set. destruct (decide (tgt = n)) as [<-|?]; [|done].
           by rewrite Htgt.
        -- intros n. rewrite obj_get_js_set. destruct (decide (tgt = n)) as [<-|?]; [|done].
           by rewrite Htgt.
        -- by apply obj_keys_js_set_own.
    + split_and!; [split; [done | tauto] | done |]. intros nodes' [= <-].
      split; [done|]. intros Hsome. by destruct Hconn.
  - apply get_Inherited in Htgt as (Hout & Hin & _). split_and!; done.
  - apply get_Undefined in Htgt as (Hout & Hplain).
    split_and!; [split; [done | tauto] | done |]. intros nodes' [= <-].
    split; [done|]. apply obj_get_None in Hout. rewrite Hout. simpl.
    intros [? ?]. done.
Qed.

Lemma removeEdge_spec_witness :
  Js.removeEdge "constructor" "inputs" wfA = Throws.
Proof.
  apply (proj1 (removeEdge_spec "constructor" "inputs" wfA)).
  split; apply (bool_decide_unpack _); vm_compute; exact I.
Defined.

(** * Inputs, with JavaScript's property lookup *)

(** X8: [setInput] throws exactly when the node is missing.  Under a name
    other than [__proto__], or one the node has as an own input, it returns:
    the input holds the value set, and every other input of every node, the
    node ids and the class tags are as before.  Under the name [__proto__],
    when the node has no own input of that name, an array or [null] becomes
    the prototype of the node's inputs, and any other value is dropped: the
    call returns and the workflow is as before. *)
Theorem setInput_spec (nodeId name : string) (value : InputValue)
    (nodes : ComfyWorkflowJson) :
  (Js.setInput nodeId name value nodes = Throws ↔ nodeId ∉ obj_keys nodes)
  ∧ (∀ node, obj_get nodes nodeId = Some node →
       name ≠ "__proto__" ∨ name ∈ obj_keys (inputs node) →
       ∃ nodes',
         Js.setInput nodeId name value nodes = Returns nodes'
         ∧ ownInput nodeId name nodes' = Some value
         ∧ (∀ n k, (n, k) ≠ (nodeId, name) → ownInput n k nodes' = ownInput n k nodes)
         ∧ (∀ n, class_type <$> obj_get nodes' n = class_type <$> obj_get nodes n)
         ∧ (∀ n, _meta <$> obj_get nodes' n = _meta <$> obj_get nodes n)
         ∧ obj_keys nodes' = obj_keys nodes)
  ∧ (∀ node, obj_get nodes nodeId = Some node →
       name = "__proto__" → name ∉ obj_keys (inputs node) →
       Js.setInput nodeId name value nodes
       = match value with
         | VConnection _ _ | VNull => NewPrototype
         | _ => Returns nodes
         end).
Proof.
  unfold Js.setInput. split_and!.
  - destruct (Js.get nodes nodeId) as [node| |] eqn:Hnode.
    + apply get_Own in Hnode. pose proof Hnode as Hkey.
      apply mk_is_Some, obj_get_is_Some in Hkey.
      pose proof (assignInput_not_Throws name value (inputs node)).
      destruct (Js.assignInput name value (inputs node)); simpl; split; done.
    + by apply get_Inherited in Hnode as (Hout & _).
    + by apply get_Undefined in Hnode as (Hout & _).
  - intros node Hnode Hord. rewrite (proj2 (get_Own nodes nodeId node) Hnode).
    rewrite assignInput_ordinary by done. simpl. eexists. split; [done|].
    pose proof Hnode as Hkey. apply mk_is_Some, obj_get_is_Some in Hkey.
    split_and!.
    + rewrite ownInput_js_set, decide_True by done. simpl.
      by rewrite obj_get_js_set, decide_True.
    + intros n k Hne. rewrite ownInput_js_set.
      destruct (decide (nodeId = n)) as [<-|?]; [|done]. simpl.
      unfold ownInput. rewrite Hnode. simpl.
      rewrite obj_get_js_set, decide_False; [done|]. congruence.
    + intros n. rewrite obj_get_js_set. destruct (decide (nodeId = n)) as [<-|?]; [|done].
      by rewrite Hnode.
    + intros n. rewrite obj_get_js_set. destruct (decide (nodeId = n)) as [<-|?]; [|done].
      by rewrite Hnode.
    + by apply obj_keys_js_set_own.
  - intros node Hnode -> Hout. rewrite (proj2 (get_Own nodes nodeId node) Hnode).
    rewrite assignInput_setter by done.
    assert (Js.set nodeId {| inputs := inputs node; class_type := class_type node;
                             _meta := _meta node |} nodes = nodes) as Hsame.
    { rewrite js_set_own by (apply obj_get_is_Some; by rewrite Hnode).
      rewrite node_eta. by apply obj_set_id. }
    destruct value; simpl; by rewrite ?Hsame.
Qed.

Lemma setInput_spec_witness :
  Js.setInput "1" "__proto__" (VNumber 5) [("1", mkNode "KSampler" [("steps", VNumber 20)])]
  = Returns [("1", mkNode "KSampler" [("steps", VNumber 20)])]
  ∧ Js.setInput "1" "__proto__" (VConnection "1" 0)
      [("1", mkNode "KSampler" [("steps", VNumber 20)])]
    = NewPrototype.
Proof.
  split.
  - refine (proj2 (proj2 (setInput_spec "1" "__proto__" (VNumber 5)
             [("1", mkNode "KSampler" [("steps", VNumber 20)])])) _ eq_refl eq_refl _).
    apply (bool_decide_unpack _); vm_compute; exact I.
  - refine (proj2 (proj2 (setInput_spec "1" "__proto__" (VConnection "1" 0)
             [("1", mkNode "KSampler" [("steps", VNumber 20)])])) _ eq_refl eq_refl _).
    apply (bool_decide_unpack _); vm_compute; exact I.
Defined.

(** [Object.assign] as a sequence of writes. *)
Lemma js_Object_assign_cons (target : list (string * InputValue)) (e : string * InputValue)
    (source : list (string * InputValue)) :
  Js.Object_assign target (e :: source)
  = t ← Js.assignInput e.1 e.2 target; Js.Object_assign t source.
Proof.
  unfold Js.Object_assign. simpl.
  destruct (Js.assignInput e.1 e.2 target) as [t| |]; simpl; [done| |].
  - induction source as [|e' source IH]; [done|]. simpl. apply IH.
  - induction source as [|e' source IH]; [done|]. simpl. apply IH.
Qed.

Lemma js_Object_assign_not_Throws (source target : list (string * InputValue)) :
  Js.Object_assign target source ≠ Throws.
Proof.
  revert target. induction source as [|e source IH]; intros target; [done|].
  rewrite js_Object_assign_cons.
  pose proof (assignInput_not_Throws e.1 e.2 target).
  destruct (Js.assignInput e.1 e.2 target) as [t| |]; simpl; [apply IH | done..].
Qed.

(** [Object.assign] where every write stores an entry: no entry of the
    source is named [__proto__], or the target has an own entry of that
    name. *)
Lemma js_Object_assign_ordinary (source target : list (string * InputValue)) :
  NoDup (obj_keys source) →
  "__proto__" ∉ obj_keys source ∨ "__proto__" ∈ obj_keys target →
  ∃ target',
    Js.Object_assign target source = Returns target'
    ∧ ∀ k, obj_get target' k
           = match obj_get source k with Some v => Some v | None => obj_get target k end.
Proof.
  revert target. induction source as [|[k0 v0] source IH]; intros target Hnd Hord.
  { exists target. done. }
  unfold obj_keys in Hnd. rewrite fmap_cons in Hnd. apply NoDup_cons in Hnd as [Hk0 Hnd].
  rewrite js_Object_assign_cons. simpl.
  rewrite assignInput_ordinary; last first.
  { destruct (decide (k0 = "__proto__")) as [->|]; [|by left]. right.
    destruct Hord as [Hout|Hin]; [|done]. destruct Hout. left. }
  simpl. destruct (IH (Js.set k0 v0 target) Hnd) as (target' & Hret & Hget).
  { destruct Hord as [Hout|Hin].
    - left. intros Hin. apply Hout. by right.
    - right. apply elem_of_obj_keys_js_set. by right. }
  exists target'. split; [done|]. intros k. rewrite Hget, obj_get_js_set.
  destruct (decide (k0 = k)) as [<-|Hne].
  - assert (obj_get source k0 = None) as ->; [by apply obj_get_None | done].
  - done.
Qed.

(** [Object.assign] where the source has an entry named [__proto__] and the
    target has no own entry of that name. *)
Lemma js_Object_assign_setter (source target : list (string * InputValue))
    (value : InputValue) :
  NoDup (obj_keys source) →
  obj_get source "__proto__" = Some value → "__proto__" ∉ obj_keys target →
  match value with
  | VConnection _ _ | VNull => Js.Object_assign target source = NewPrototype
  | _ =>
      ∃ target',
        Js.Object_assign target source = Returns target'
        ∧ ∀ k, obj_get target' k
               = if decide (k = "__proto__") then None
                 else match obj_get source k with
                      | Some v => Some v
                      | None => obj_get target k
                      end
  end.
Proof.
  revert target. induction source as [|[k0 v0] source IH]; intros target Hnd Hsrc Hout;
    [done|].
  unfold obj_keys in Hnd. rewrite fmap_cons in Hnd. apply NoDup_cons in Hnd as [Hk0 Hnd].
  rewrite js_Object_assign_cons. simpl in *.
  destruct (decide (k0 = "__proto__")) as [->|Hne].
  - injection Hsrc as ->. rewrite assignInput_setter by done.
    destruct value; simpl; try done.
    all: destruct (js_Object_assign_ordinary source target Hnd) as (target' & Hret & Hget);
      [by left|].
    all: exists target'; split; [done|]; intros k; rewrite Hget.
    all: destruct (decide (k = "__proto__")) as [->|Hk].
    all: try (rewrite decide_False by done; done).
    all: apply obj_get_None in Hk0, Hout; by rewrite Hk0, Hout.
  - rewrite assignInput_ordinary by (by left). simpl.
    assert ("__proto__" ∉ obj_keys (Js.set k0 v0 target)) as Hout'.
    { rewrite elem_of_obj_keys_js_set. intros [?|?]; done. }
    specialize (IH (Js.set k0 v0 target) Hnd Hsrc Hout').
    destruct value; try done.
    all: destruct IH as (target' & Hret & Hget); exists target'; split; [done|].
    all: intros k; rewrite Hget, obj_get_js_set.
    all: destruct (decide (k = "__proto__")) as [->|Hk]; [done|].
    all: destruct (decide (k0 = k)) as [<-|Hne']; [|done].
    all: assert (obj_get source k0 = None) as ->; [by apply obj_get_None | done].
Qed.

(** X9: [updateInputs] throws exactly when the node is missing.  When no entry
    of the update is named [__proto__], or the node has an own input of that
    name, it returns: an input of the node holds the new value when the
    update names it and is as before when it does not, and the other nodes
    are as before.  When the update has an entry named [__proto__] and the
    node has no own input of that name, an array or [null] under that name
    becomes the prototype of the node's inputs, and any other value is
    dropped while the other entries are written. *)
Theorem updateInputs_spec (nodeId : string) (ins : list (string * InputValue))
    (nodes : ComfyWorkflowJson) :
  wf_inputs ins →
  (Js.updateInputs nodeId ins nodes = Throws ↔ nodeId ∉ obj_keys nodes)
  ∧ (∀ node, obj_get nodes nodeId = Some node →
       "__proto__" ∉ obj_keys ins ∨ "__proto__" ∈ obj_keys (inputs node) →
       ∃ nodes',
         Js.updateInputs nodeId ins nodes = Returns nodes'
         ∧ (∀ k, ownInput nodeId k nodes'
                 = match obj_get ins k with
                   | Some v => Some v
                   | None => ownInput nodeId k nodes
                   end)
         ∧ (∀ n k, n ≠ nodeId → ownInput n k nodes' = ownInput n k nodes)
         ∧ (∀ n, class_type <$> obj_get nodes' n = class_type <$> obj_get nodes n)
         ∧ obj_keys nodes' = obj_keys nodes)
  ∧ (∀ node value, obj_get nodes nodeId = Some node →
       obj_get ins "__proto__" = Some value → "__proto__" ∉ obj_keys (inputs node) →
       match value with
       | VConnection _ _ | VNull => Js.updateInputs nodeId ins nodes = NewPrototype
       | _ =>
           ∃ nodes',
             Js.updateInputs nodeId ins nodes = Returns nodes'
             ∧ (∀ k, ownInput nodeId k nodes'
                     = if decide (k = "__proto__") then None
                       else match obj_get ins k with
                            | Some v => Some v
                            | None => ownInput nodeId k nodes
                            end)
             ∧ (∀ n k, n ≠ nodeId → ownInput n k nodes' = ownInput n k nodes)
             ∧ obj_keys nodes' = obj_keys nodes
       end).
Proof.
  intros Hwf. unfold Js.updateInputs. split_and!.
  - destruct (Js.get nodes nodeId) as [node| |] eqn:Hnode.
    + apply get_Own in Hnode. pose proof Hnode as Hkey.
      apply mk_is_Some, obj_get_is_Some in Hkey.
      pose proof (js_Object_assign_not_Throws ins (inputs node)).
      destruct (Js.Object_assign (inputs node) ins); simpl; split; done.
    + by apply get_Inherited in Hnode as (Hout & _).
    + by apply get_Undefined in Hnode as (Hout & _).
  - intros node Hnode Hord. rewrite (proj2 (get_Own nodes nodeId node) Hnode).
    destruct (js_Object_assign_ordinary ins (inputs node) Hwf Hord) as (ins' & -> & Hget).
    simpl. eexists. split; [done|].
    pose proof Hnode as Hkey. apply mk_is_Some, obj_get_is_Some in Hkey.
    split_and!.
    + intros k. rewrite ownInput_js_set, decide_True by done. simpl. rewrite Hget.
      unfold ownInput. by rewrite Hnode.
    + intros n k Hne. by rewrite ownInput_js_set, decide_False.
    + intros n. rewrite obj_get_js_set. destruct (decide (nodeId = n)) as [<-|?]; [|done].
      by rewrite Hnode.
    + by apply obj_keys_js_set_own.
  - intros node value Hnode Hsrc Hout. rewrite (proj2 (get_Own nodes nodeId node) Hnode).
    pose proof (js_Object_assign_setter ins (inputs node) value Hwf Hsrc Hout) as Hassign.
    pose proof Hnode as Hkey. apply mk_is_Some, obj_get_is_Some in Hkey.
    destruct value; try (by rewrite Hassign).
    all: destruct Hassign as (ins' & -> & Hget); simpl; eexists; split; [done|].
    all: split_and!;
      [ intros k; rewrite ownInput_js_set, decide_True by done; simpl; rewrite Hget;
        unfold ownInput; rewrite Hnode; done
      | intros n0 k Hne; by rewrite ownInput_js_set, decide_False
      | by apply obj_keys_js_set_own ].
Qed.

Lemma updateInputs_spec_witness :
  ∃ nodes',
    Js.updateInputs "1" [("steps", VNumber 30); ("cfg", VNumber 7)]
                    [("1", mkNode "KSampler" [("steps", VNumber 20); ("seed", VNumber 1)])]
    = Returns nodes'
    ∧ ownInput "1" "steps" nodes' = Some (VNumber 30)
    ∧ ownInput "1" "cfg" nodes' = Some (VNumber 7)
    ∧ ownInput "1" "seed" nodes' = Some (VNumber 1).
Proof.
  assert (wf_inputs [("steps", VNumber 30); ("cfg", VNumber 7)]) as Hwf
    by (apply (bool_decide_unpack _); vm_compute; exact I).
  assert ("__proto__" ∉ obj_keys [("steps", VNumber 30); ("cfg", VNumber 7)]) as Hout
    by (apply (bool_decide_unpack _); vm_compute; exact I).
  destruct (proj1 (proj2 (updateInputs_spec "1" [("steps", VNumber 30); ("cfg", VNumber 7)]
              [("1", mkNode "KSampler" [("steps", VNumber 20); ("seed", VNumber 1)])] Hwf))
            _ eq_refl (or_introl Hout))
    as (nodes' & Hret & Hget & _).
  exists nodes'. split; [exact Hret|].
  split_and!; [exact (Hget "steps") | exact (Hget "cfg") | exact (Hget "seed")].
Defined.

Lemma filter_insertIndex {V} (i : N) (k : string) (v : V) (o : list (string * V)) :
  k ∉ obj_keys o → filter (λ e, e.1 ≠ k) (Js.insertIndex i k v o) = o.
Proof.
  induction o as [|[k0 v0] o IH]; simpl; intros Hk.
  - by rewrite filter_cons, decide_False by (by intros ?).
  - unfold obj_keys in Hk. rewrite ?fmap_cons in Hk. cbn in Hk.
    apply not_elem_of_cons in Hk as [Hne Hk].
    assert (filter (λ e : string * V, e.1 ≠ k) ((k, v) :: (k0, v0) :: o) = (k0, v0) :: o)
      as Hhead.
    { rewrite filter_cons, decide_False by (by intros ?).
      rewrite filter_cons, decide_True by (simpl; congruence).
      f_equal. by apply filter_key_absent. }
    destruct (Js.arrayIndex k0) as [j|]; [destruct (decide (j < i)%N)|]; try done.
    rewrite filter_cons, decide_True by (simpl; congruence). f_equal. by apply IH.
Qed.

(** Deleting an entry just written where there was none gives the object
    back. *)
Lemma obj_delete_js_set_fresh {V} (o : list (string * V)) (k : string) (v : V) :
  k ∉ obj_keys o → obj_delete k (Js.set k v o) = o.
Proof.
  intros Hk. pose proof Hk as Hnone%obj_get_None. unfold Js.set, obj_delete. rewrite Hnone.
  destruct (Js.arrayIndex k) as [i|].
  - by apply filter_insertIndex.
  - rewrite filter_app, filter_cons, decide_False by (by intros ?).
    rewrite filter_nil, app_nil_r. by apply filter_key_absent.
Qed.

Lemma js_set_same (nodes : ComfyWorkflowJson) (nodeId : string) (node : ComfyNode) :
  obj_get nodes nodeId = Some node →
  Js.set nodeId {| inputs := inputs node; class_type := class_type node;
                   _meta := _meta node |} nodes = nodes.
Proof.
  intros Hnode. rewrite js_set_own by (apply obj_get_is_Some; by rewrite Hnode).
  rewrite node_eta. by apply obj_set_id.
Qed.

Lemma js_set_set_own {V} (o : list (string * V)) (k : string) (v1 v2 : V) :
  k ∈ obj_keys o → Js.set k v2 (Js.set k v1 o) = Js.set k v2 o.
Proof.
  intros Hk. rewrite (js_set_own o k v1), (js_set_own o k v2) by done.
  rewrite js_set_own by (rewrite obj_keys_set; by rewrite decide_True).
  apply obj_set_set.
Qed.

(** X10: [clearInput] throws exactly when the id is not a node and names a
    member of [Object.prototype]; on any other missing id it returns and the
    workflow is as before.  On a node it returns: the node has no own input
    of the name, so that [getInput] reads there the member of
    [Object.prototype] of that name, or [undefined] when there is none, and
    every other input is as before.  Clearing an input that was just set
    where there was none gives the workflow back. *)
Theorem clearInput_spec (nodeId name : string) (nodes : ComfyWorkflowJson) :
  (Js.clearInput nodeId name nodes = Throws
   ↔ (nodeId ∉ obj_keys nodes) ∧ nodeId ∈ objectPrototypeNames)
  ∧ (nodeId ∉ obj_keys nodes → nodeId ∉ objectPrototypeNames →
     Js.clearInput nodeId name nodes = Returns nodes)
  ∧ (nodeId ∈ obj_keys nodes →
     ∃ nodes',
       Js.clearInput nodeId name nodes = Returns nodes'
       ∧ ownInput nodeId name nodes' = None
       ∧ Js.getInput nodeId name nodes'
         = Returns (if decide (name ∈ objectPrototypeNames)
                    then Js.Inherited name else Js.Undefined)
       ∧ (∀ n k, (n, k) ≠ (nodeId, name) → ownInput n k nodes' = ownInput n k nodes)
       ∧ (∀ n, class_type <$> obj_get nodes' n = class_type <$> obj_get nodes n)
       ∧ obj_keys nodes' = obj_keys nodes)
  ∧ (∀ value nodes1,
       ownInput nodeId name nodes = None →
       Js.setInput nodeId name value nodes = Returns nodes1 →
       Js.clearInput nodeId name nodes1 = Returns nodes).
Proof.
  split_and!.
  - unfold Js.clearInput. destruct (Js.get nodes nodeId) as [node| |] eqn:Hnode.
    + apply get_Own in Hnode. apply mk_is_Some, obj_get_is_Some in Hnode.
      split; [done | tauto].
    + by apply get_Inherited in Hnode as (Hout & Hin & _).
    + apply get_Undefined in Hnode as (Hout & Hplain). split; [done | tauto].
  - intros Hout Hplain. unfold Js.clearInput.
    by rewrite (proj2 (get_Undefined nodes nodeId)).
  - intros [node Hnode]%obj_get_is_Some. unfold Js.clearInput.
    rewrite (proj2 (get_Own nodes nodeId node) Hnode). eexists. split; [done|].
    pose proof Hnode as Hkey. apply mk_is_Some, obj_get_is_Some in Hkey.
    assert (obj_get (obj_delete name (inputs node)) name = None) as Hgone.
    { by rewrite obj_get_delete, decide_True. }
    split_and!.
    + by rewrite ownInput_js_set, decide_True.
    + unfold Js.getInput.
      rewrite (proj2 (get_Own _ nodeId _) (eq_trans (obj_get_js_set _ _ _ _)
                                             (decide_True _ _ eq_refl))).
      simpl. unfold Js.get. by rewrite Hgone.
    + intros n k Hne. rewrite ownInput_js_set.
      destruct (decide (nodeId = n)) as [<-|?]; [|done]. simpl.
      unfold ownInput. rewrite Hnode. simpl.
      rewrite obj_get_delete, decide_False; [done|]. congruence.
    + intros n. rewrite obj_get_js_set. destruct (decide (nodeId = n)) as [<-|?]; [|done].
      by rewrite Hnode.
    + by apply obj_keys_js_set_own.
  - intros value nodes1 Hfree. unfold Js.setInput.
    destruct (Js.get nodes nodeId) as [node| |] eqn:Hget; [|done..].
    apply get_Own in Hget. unfold ownInput in Hfree. rewrite Hget in Hfree. simpl in Hfree.
    pose proof Hfree as Hout%obj_get_None.
    pose proof Hget as Hkey. apply mk_is_Some, obj_get_is_Some in Hkey.
    destruct (Js.assignInput name value (inputs node)) as [ins| |] eqn:Hassign; [|done..].
    simpl. intros [= <-]. unfold Js.clearInput.
    rewrite (proj2 (get_Own _ nodeId _) (eq_trans (obj_get_js_set _ _ _ _)
                                           (decide_True _ _ eq_refl))).
    simpl. rewrite js_set_set_own by done. f_equal.
    assert (obj_delete name ins = inputs node) as ->; [|by apply js_set_same].
    unfold Js.assignInput in Hassign. case_decide as Hcase.
    + assert (ins = inputs node) as -> by (by destruct value; simplify_eq).
      by apply filter_key_absent.
    + injection Hassign as <-. by apply obj_delete_js_set_fresh.
Qed.

Lemma clearInput_spec_witness :
  Js.clearInput "toString" "a" wfA = Throws
  ∧ ∃ nodes', Js.clearInput "3" "constructor" wfA = Returns nodes'
              ∧ Js.getInput "3" "constructor" nodes' = Returns (Js.Inherited "constructor").
Proof.
  split.
  - apply (proj1 (clearInput_spec "toString" "a" wfA)).
    split; apply (bool_decide_unpack _); vm_compute; exact I.
  - assert ("3" ∈ obj_keys wfA) as Hin by (apply (bool_decide_unpack _); vm_compute; exact I).
    destruct (proj1 (proj2 (proj2 (clearInput_spec "3" "constructor" wfA))) Hin)
      as (nodes' & Hret & _ & Hget & _).
    exists nodes'. split; [exact Hret|]. rewrite Hget. reflexivity.
Defined.

(** * Referential integrity, with JavaScript's property lookup *)

Lemma integrity_js_set (nodes : ComfyWorkflowJson) (k : string) (node' : ComfyNode) :
  (∀ edge, edge ∈ getEdges nodes → sourceNodeId edge ∈ obj_keys nodes) →
  (∀ name src port, (name, VConnection src port) ∈ inputs node' → src ∈ obj_keys nodes) →
  ∀ edge, edge ∈ getEdges (Js.set k node' nodes) →
          sourceNodeId edge ∈ obj_keys (Js.set k node' nodes).
Proof.
  intros Hold Hnew edge (node & Hnode & Hin)%elem_of_getEdges.
  apply elem_of_obj_keys_js_set. right.
  apply elem_of_js_set in Hnode as [[= _ ->]|Hnode]; [by eapply Hnew|].
  apply Hold, elem_of_getEdges. by exists node.
Qed.

Lemma getEdges_detached (nodes : ComfyWorkflowJson) (nodeId : string) :
  getEdges ((λ e, (e.1, withoutInputsFrom nodeId e.2)) <$> filter (λ e, e.1 ≠ nodeId) nodes)
  = filter (λ edge, sourceNodeId edge ≠ nodeId ∧ targetNodeId edge ≠ nodeId)
           (getEdges nodes).
Proof.
  induction nodes as [|e nodes IH]; [done|].
  rewrite (getEdges_cons e), filter_app, filter_cons.
  destruct (decide (e.1 ≠ nodeId)) as [Hne|Heq].
  - rewrite fmap_cons, getEdges_cons, IH. f_equal.
    by apply getEdges_withoutInputsFrom.
  - rewrite IH. apply dec_stable in Heq. destruct e as [k n]. simpl in Heq. subst k.
    by rewrite getEdges_removed_target.
Qed.

(** X12: a workflow in which every connection has its source stays so under
    [removeNode], [addEdge] from a node, [removeEdge], [clearInput],
    [setInput] of a literal, and [addNode] with inputs that connect to nodes
    of the workflow.  [addEdge] from an id that is not a node (it then names
    a member of [Object.prototype]) leaves a connection without its
    source. *)
Theorem integrity_preserved (nodes : ComfyWorkflowJson) :
  wf_workflow nodes →
  Validators.valid (Validators.validateConnections nodes) = true →
  (∀ nodeId,
     Validators.valid (Validators.validateConnections (Js.removeNode nodeId nodes)) = true)
  ∧ (∀ src port tgt name nodes',
       src ∈ obj_keys nodes →
       Js.addEdge src port tgt name nodes = Returns nodes' →
       Validators.valid (Validators.validateConnections nodes') = true)
  ∧ (∀ src port tgt name nodes',
       src ∉ obj_keys nodes →
       Js.addEdge src port tgt name nodes = Returns nodes' →
       Validators.valid (Validators.validateConnections nodes') = false)
  ∧ (∀ tgt name nodes',
       Js.removeEdge tgt name nodes = Returns nodes' →
       Validators.valid (Validators.validateConnections nodes') = true)
  ∧ (∀ nodeId name nodes',
       Js.clearInput nodeId name nodes = Returns nodes' →
       Validators.valid (Validators.validateConnections nodes') = true)
  ∧ (∀ nodeId name value nodes',
       asConnection (Some value) = None →
       Js.setInput nodeId name value nodes = Returns nodes' →
       Validators.valid (Validators.validateConnections nodes') = true)
  ∧ (∀ classType ins id meta newId nodes',
       (∀ name src port, (name, VConnection src port) ∈ ins → src ∈ obj_keys nodes) →
       Js.addNode classType ins id meta nodes = Returns (newId, nodes') →
       Validators.valid (Validators.validateConnections nodes') = true).
Proof.
  intros Hwf Hvalid.
  rewrite valid_iff in Hvalid.
  assert (∀ k node, obj_get nodes k = Some node →
            ∀ name src port, (name, VConnection src port) ∈ inputs node →
                             src ∈ obj_keys nodes) as Hnode.
  { intros k node Hk name src port Hin.
    apply (Hvalid {| sourceNodeId := src; sourcePort := port;
                     targetNodeId := k; targetInputName := name |}).
    apply elem_of_getEdges. exists node. split; [by apply obj_get_Some_elem | done]. }
  split_and!.
  - intros nodeId. apply valid_iff. unfold Js.removeNode.
    destruct (Js.truthy (Js.get nodes nodeId)); [|done].
    rewrite js_removeNode_found by done. rewrite getEdges_detached.
    intros edge [[Hsrc _] Hedge]%list_elem_of_filter.
    rewrite obj_keys_fmap.
    change (filter (λ e : string * ComfyNode, e.1 ≠ nodeId) nodes)
      with (obj_delete nodeId nodes).
    rewrite obj_keys_delete. apply list_elem_of_filter. split; [done|]. by apply Hvalid.
  - intros src port tgt name nodes' Hsrc. unfold Js.addEdge.
    destruct (Js.truthy (Js.get nodes src)); [|done].
    destruct (Js.get nodes tgt) as [node| |] eqn:Htgt; [|done..]. apply get_Own in Htgt.
    destruct (Js.assignInput name (VConnection src port) (inputs node)) as [ins| |]
      eqn:Hassign; [|done..].
    simpl. intros [= <-]. apply valid_iff, integrity_js_set; [done|]. simpl.
    destruct (assignInput_Returns _ _ _ _ Hassign) as (_ & _ & _ & _ & Hsub).
    intros n s p [[= _ -> _]|Hin]%Hsub; [done | by eapply Hnode].
  - intros src port tgt name nodes' Hsrc Hadd.
    destruct (proj2 (proj2 (js_addEdge_spec src port tgt name nodes)) nodes' Hadd)
      as (_ & Hedge & _ & _ & _ & _ & Hkeys).
    apply not_true_is_false. intros Hv. rewrite valid_iff in Hv.
    apply Hsrc. rewrite <-Hkeys. by apply (Hv _ Hedge).
  - intros tgt name nodes'. unfold Js.removeEdge.
    destruct (Js.get nodes tgt) as [node| |] eqn:Htgt; [|done|]; last first.
    { intros [= <-]. by apply valid_iff. }
    apply get_Own in Htgt.
    destruct (Js.isNodeConnection _); intros [= <-]; [|by apply valid_iff].
    apply valid_iff, integrity_js_set; [done|].
    simpl. intros n s p Hin%elem_of_obj_delete. by eapply Hnode.
  - intros nodeId name nodes'. unfold Js.clearInput.
    destruct (Js.get nodes nodeId) as [node| |] eqn:Htgt; [|done|]; last first.
    { intros [= <-]. by apply valid_iff. }
    apply get_Own in Htgt. intros [= <-].
    apply valid_iff, integrity_js_set; [done|].
    simpl. intros n s p Hin%elem_of_obj_delete. by eapply Hnode.
  - intros nodeId name value nodes' Hlit. unfold Js.setInput.
    destruct (Js.get nodes nodeId) as [node| |] eqn:Htgt; [|done..]. apply get_Own in Htgt.
    destruct (Js.assignInput name value (inputs node)) as [ins| |] eqn:Hassign; [|done..].
    simpl. intros [= <-]. apply valid_iff, integrity_js_set; [done|]. simpl.
    destruct (assignInput_Returns _ _ _ _ Hassign) as (_ & _ & _ & _ & Hsub).
    intros n s p [[= _ <-]|Hin]%Hsub; [done | by eapply Hnode].
  - intros classType ins id meta newId nodes' Hins. unfold Js.addNode.
    destruct (Js.truthy _); [done|]. intros [= <- <-].
    by apply valid_iff, integrity_js_set.
Qed.

Lemma integrity_preserved_witness :
  Validators.valid (Validators.validateConnections (Js.removeNode "1" wfA)) = true.
Proof.
  refine (proj1 (integrity_preserved wfA _ _) "1").
  - split; apply (bool_decide_unpack _); vm_compute; exact I.
  - reflexivity.
Defined.

Lemma js_setInput_ordinary (nodeId name : string) (value : InputValue)
    (nodes : ComfyWorkflowJson) (node : ComfyNode) :
  obj_get nodes nodeId = Some node →
  name ≠ "__proto__" ∨ name ∈ obj_keys (inputs node) →
  Js.setInput nodeId name value nodes
  = Returns (Js.set nodeId {| inputs := Js.set name value (inputs node);
                              class_type := class_type node; _meta := _meta node |} nodes).
Proof.
  intros Hnode Hord. unfold Js.setInput.
  rewrite (proj2 (get_Own nodes nodeId node) Hnode). by rewrite assignInput_ordinary.
Qed.

Lemma js_addEdge_setInput (src : string) (port : Z) (tgt name : string)
    (nodes : ComfyWorkflowJson) :
  src ∈ obj_keys nodes ∨ src ∈ objectPrototypeNames →
  Js.addEdge src port tgt name nodes = Js.setInput tgt name (VConnection src port) nodes.
Proof.
  intros Hsrc%truthy_get. unfold Js.addEdge, Js.setInput. by rewrite Hsrc.
Qed.

(** X13: [setInput] does not check what [addEdge] checks: setting a connection
    whose source is not a node returns and leaves the workflow invalid,
    where [addEdge] throws unless the source names a member of
    [Object.prototype]; from such a source [addEdge] does what [setInput]
    does. *)
Theorem setInput_unchecked (nodeId name src : string) (port : Z)
    (nodes : ComfyWorkflowJson) :
  nodeId ∈ obj_keys nodes → src ∉ obj_keys nodes → name ≠ "__proto__" →
  (src ∉ objectPrototypeNames → Js.addEdge src port nodeId name nodes = Throws)
  ∧ ∃ nodes',
      Js.setInput nodeId name (VConnection src port) nodes = Returns nodes'
      ∧ ownInput nodeId name nodes' = Some (VConnection src port)
      ∧ Validators.valid (Validators.validateConnections nodes') = false
      ∧ (src ∈ objectPrototypeNames →
         Js.addEdge src port nodeId name nodes = Returns nodes').
Proof.
  intros [node Hnode]%obj_get_is_Some Hsrc Hname. split.
  { intros Hplain. unfold Js.addEdge.
    by rewrite (proj2 (truthy_get_false nodes src)). }
  pose proof (js_setInput_ordinary nodeId name (VConnection src port) nodes node Hnode
                (or_introl Hname)) as Hset.
  eexists. split; [exact Hset|].
  pose proof Hnode as Hkey. apply mk_is_Some, obj_get_is_Some in Hkey.
  assert (ownInput nodeId name
            (Js.set nodeId {| inputs := Js.set name (VConnection src port) (inputs node);
                              class_type := class_type node; _meta := _meta node |} nodes)
          = Some (VConnection src port)) as Hown.
  { rewrite ownInput_js_set, decide_True by done. simpl.
    by rewrite obj_get_js_set, decide_True. }
  split_and!.
  - done.
  - apply not_true_is_false. intros Hvalid. rewrite valid_iff in Hvalid.
    apply Hsrc. apply ownInput_edge, Hvalid in Hown. simpl in Hown.
    by rewrite obj_keys_js_set_own in Hown.
  - intros Hmember. rewrite js_addEdge_setInput by (by right). exact Hset.
Qed.

Lemma setInput_unchecked_witness :
  Js.addEdge "9" 0 "3" "vae" wfA = Throws
  ∧ ∃ nodes', Js.setInput "3" "vae" (VConnection "9" 0) wfA = Returns nodes'
              ∧ Validators.valid (Validators.validateConnections nodes') = false.
Proof.
  assert ("3" ∈ obj_keys wfA) as H1 by (apply (bool_decide_unpack _); vm_compute; exact I).
  assert ("9" ∉ obj_keys wfA) as H2 by (apply (bool_decide_unpack _); vm_compute; exact I).
  assert ("vae" ≠ "__proto__") as H3 by (apply (bool_decide_unpack _); vm_compute; exact I).
  assert ("9" ∉ objectPrototypeNames) as H4
    by (apply (bool_decide_unpack _); vm_compute; exact I).
  destruct (setInput_unchecked "3" "vae" "9" 0 wfA H1 H2 H3)
    as (Hthrows & nodes' & Hret & _ & Hinvalid & _).
  split; [exact (Hthrows H4)|]. exists nodes'. split; [exact Hret | exact Hinvalid].
Defined.

(** * Isolation after [addEdge] *)

(** X14: when [addEdge] returns with the connection stored as an input of the
    target, neither endpoint is reported as isolated.  (Under the input name
    [__proto__], where the target has no own input of that name, nothing is
    stored: the outcome is [NewPrototype], not [Returns].) *)
Theorem addEdge_not_isolated (src : string) (port : Z) (tgt name : string)
    (nodes nodes' : ComfyWorkflowJson) :
  Js.addEdge src port tgt name nodes = Returns nodes' →
  ∀ w, w ∈ Validators.warnings (Validators.validateConnections nodes') →
       Validators.nodeId w ≠ Some src ∧ Validators.nodeId w ≠ Some tgt.
Proof.
  intros Hadd.
  destruct (proj2 (proj2 (js_addEdge_spec src port tgt name nodes)) nodes' Hadd)
    as (_ & Hedge & _).
  apply elem_of_getEdges in Hedge as (node' & Hnode' & Hget). simpl in *.
  assert (isConnectionSource nodes' src) as Hsrc.
  { by exists (tgt, node'), name, port. }
  assert (holdsConnection nodes' tgt) as Htgt.
  { by exists node', name, src, port. }
  intros w Hw. split; intros Hid.
  - destruct (validateConnections_warnings nodes' src) as [(_ & Hno & _)|[_ Hnil]].
    + apply Hno. by left.
    + eapply filter_nil_not_elem_of; [exact Hnil| |exact Hw]. done.
  - destruct (validateConnections_warnings nodes' tgt) as [(_ & Hno & _)|[_ Hnil]].
    + apply Hno. by right.
    + eapply filter_nil_not_elem_of; [exact Hnil| |exact Hw]. done.
Qed.

Lemma addEdge_not_isolated_witness :
  Forall (λ w, Validators.nodeId w ≠ Some "1" ∧ Validators.nodeId w ≠ Some "2")
         (Validators.warnings (Validators.validateConnections
            [ ("1", mkNode "VAELoader" []);
              ("2", mkNode "KSampler" [("model", VConnection "1" 0)]);
              ("3", mkNode "SaveImage" []) ])).
Proof.
  apply Forall_forall.
  exact (addEdge_not_isolated "1" 0 "2" "model"
           [ ("1", mkNode "VAELoader" []); ("2", mkNode "KSampler" []);
             ("3", mkNode "SaveImage" []) ] _ eq_refl).
Defined.

(** * The two readings of a workflow

    On workflows with [plainNames], and for ids and input names that are no
    members' names, the definitions over own entries are the methods of
    [Js]. *)

Lemma js_get_plain {V} (o : list (string * V)) (k : string) :
  k ∈ obj_keys o ∨ k ∉ objectPrototypeNames → Js.get o k = Js.ofOption (obj_get o k).
Proof.
  intros Hk. unfold Js.get. destruct (obj_get o k) eqn:Hget; [done|].
  apply obj_get_None in Hget. rewrite decide_False; [done | tauto].
Qed.

Lemma js_normalizeConnection_plain (nodes : ComfyWorkflowJson) (s : string) (p : Z) :
  s ∈ obj_keys nodes ∨ s ∉ objectPrototypeNames →
  Js.normalizeConnection nodes (s, p) = normalizeConnection nodes (s, p).
Proof.
  intros Hs. unfold Js.normalizeConnection, normalizeConnection.
  rewrite js_get_plain by done. by destruct (obj_get nodes s).
Qed.

Lemma fmap_list_bind {X Y Z} (f : Y → Z) (g : X → list Y) (l : list X) :
  f <$> (l ≫= g) = l ≫= (λ x, f <$> g x).
Proof. induction l as [|x l IH]; csimpl; [done|]. by rewrite fmap_app, IH. Qed.

Lemma bind_Permutation_l {X Y} (g : X → list Y) (l1 l2 : list X) :
  l1 ≡ₚ l2 → l1 ≫= g ≡ₚ l2 ≫= g.
Proof.
  induction 1 as [|x l1 l2 _ IH|x y l|l1 l2 l3 _ IH1 _ IH2]; csimpl.
  - done.
  - by rewrite IH.
  - rewrite !app_assoc. f_equiv. apply Permutation_app_comm.
  - by etrans.
Qed.

Section plain.
Context (A B : ComfyWorkflowJson).
Hypothesis HA : plainNames A.
Hypothesis HB : plainNames B.

Lemma plainNames_source (G : ComfyWorkflowJson) (e : string * ComfyNode)
    (name s : string) (p : Z) :
  plainNames G → e ∈ G → (name, VConnection s p) ∈ inputs e.2 →
  s ∈ obj_keys G ∨ s ∉ objectPrototypeNames.
Proof.
  intros (_ & _ & Hsrc) He Hin. rewrite Forall_forall in Hsrc. apply Hsrc.
  destruct e as [id n]. by eapply elem_of_sourceIds.
Qed.

Lemma plainNames_input (G : ComfyWorkflowJson) (e : string * ComfyNode) (name : string) :
  plainNames G → e ∈ G → name ∈ obj_keys (inputs e.2) → name ∉ objectPrototypeNames.
Proof.
  intros (_ & Hins & _) He Hin. rewrite Forall_forall in Hins.
  specialize (Hins e He). rewrite Forall_forall in Hins. by apply Hins.
Qed.

Lemma js_normalizeValue_plain (G : ComfyWorkflowJson) (e : string * ComfyNode)
    (name : string) (v : InputValue) :
  plainNames G → e ∈ G → (name, v) ∈ inputs e.2 →
  Js.normalizeValue G v = normalizeValue G v.
Proof.
  intros HG He Hin. destruct v as [| | | |s p]; try done.
  unfold Js.normalizeValue, normalizeValue. simpl.
  apply js_normalizeConnection_plain. by eapply plainNames_source.
Qed.

Lemma js_hashNodeInputs_plain (G : ComfyWorkflowJson) (e : string * ComfyNode) :
  plainNames G → e ∈ G → Js.hashNodeInputs G e.2 = hashNodeInputs G e.2.
Proof.
  intros HG He. unfold Js.hashNodeInputs, hashNodeInputs.
  assert (filter (λ i : string * InputValue, i.1 ≠ "__proto__") (inputs e.2) = inputs e.2)
    as ->.
  { apply filter_key_absent. intros Hin%(plainNames_input G e); [|done..].
    apply Hin. apply (bool_decide_unpack _). vm_compute. exact I. }
  assert ((λ i : string * InputValue, (i.1, Js.normalizeValue G i.2)) <$> inputs e.2
          = (λ i, (i.1, normalizeValue G i.2)) <$> inputs e.2) as ->; [|done].
  apply list_fmap_ext. intros _ [k v] Hin%list_elem_of_lookup_2. simpl. f_equal.
  by eapply js_normalizeValue_plain.
Qed.

Lemma js_compareInput_plain (a b : string * ComfyNode) (name : string) :
  a ∈ A → b ∈ B →
  name ∈ obj_keys (inputs a.2) ++ obj_keys (inputs b.2) →
  Js.compareInput A a.2 B b.2 name = toJsDiff <$> compareInput A a.2 B b.2 name.
Proof.
  intros Ha Hb Hname.
  assert (name ∉ objectPrototypeNames) as Hplain.
  { apply elem_of_app in Hname as [Hin|Hin];
      [by eapply (plainNames_input A a) | by eapply (plainNames_input B b)]. }
  unfold Js.compareInput, compareInput.
  rewrite !js_get_plain by (by right).
  destruct (obj_get (inputs a.2) name) as [v|] eqn:Hv,
           (obj_get (inputs b.2) name) as [w|] eqn:Hw;
    cbn [Js.ofOption Js.asConnection asConnection].
  - apply obj_get_Some_elem in Hv, Hw.
    destruct v as [| | | |s p], w as [| | | |s' p'];
      cbn [Js.ofOption Js.asConnection asConnection]; try done.
    all: try (case_decide as H1; case_decide as H2; simplify_eq; done).
    rewrite (js_normalizeConnection_plain A) by (by eapply plainNames_source).
    rewrite (js_normalizeConnection_plain B) by (by eapply plainNames_source).
    by case_decide.
  - destruct v; cbn [Js.ofOption Js.asConnection asConnection]; try done.
  - destruct w; cbn [Js.ofOption Js.asConnection asConnection]; try done.
  - done.
Qed.

Lemma js_compareNodeInputs_plain (a b : string * ComfyNode) :
  a ∈ A → b ∈ B →
  Js.compareNodeInputs A a.2 B b.2 = toJsDiff <$> compareNodeInputs A a.2 B b.2.
Proof.
  intros Ha Hb. unfold Js.compareNodeInputs, compareNodeInputs.
  rewrite fmap_list_bind. apply bind_ext_in. intros name Hname.
  apply (proj1 (Set_of_elem _ _)) in Hname. by apply js_compareInput_plain.
Qed.

Lemma js_findBestNodeMatching_plain (thisNodes otherNodes : list (string * ComfyNode)) :
  (∀ e, e ∈ thisNodes → e ∈ A) → (∀ e, e ∈ otherNodes → e ∈ B) →
  Js.findBestNodeMatching A thisNodes B otherNodes
  = toJsDiff <$> findBestNodeMatching A thisNodes B otherNodes.
Proof.
  intros H1 H2. unfold Js.findBestNodeMatching, findBestNodeMatching.
  assert ((λ n : string * ComfyNode, Js.hashNodeInputs A n.2) <$> thisNodes
          = (λ n, hashNodeInputs A n.2) <$> thisNodes) as ->.
  { apply list_fmap_ext. intros _ e He%list_elem_of_lookup_2.
    apply js_hashNodeInputs_plain; [done | by apply H1]. }
  assert ((λ n : string * ComfyNode, Js.hashNodeInputs B n.2) <$> otherNodes
          = (λ n, hashNodeInputs B n.2) <$> otherNodes) as ->.
  { apply list_fmap_ext. intros _ e He%list_elem_of_lookup_2.
    apply js_hashNodeInputs_plain; [done | by apply H2]. }
  destruct (matchLoop _ _) as [[|i ?] [|j ?]]; try done.
  destruct (thisNodes !! i) as [a|] eqn:Hi, (otherNodes !! j) as [b|] eqn:Hj; try done.
  apply js_compareNodeInputs_plain.
  - apply H1. by eapply list_elem_of_lookup_2.
  - apply H2. by eapply list_elem_of_lookup_2.
Qed.

Lemma js_classDiffs_plain (ct : string) :
  Js.classDiffs A (findNodesByType ct A) B (findNodesByType ct B) ct
  = toJsDiff <$> classDiffs A B ct.
Proof.
  rewrite classDiffs_eq. cbv zeta. unfold Js.classDiffs.
  assert (∀ G e, e ∈ findNodesByType ct G → e ∈ G) as Hsub.
  { intros G e [_ ?]%list_elem_of_filter. done. }
  repeat case_decide; try done.
  - destruct (findNodesByType ct A) as [|a ?] eqn:Ha; [done|].
    destruct (findNodesByType ct B) as [|b ?] eqn:Hb; [done|]. simpl.
    rewrite js_compareNodeInputs_plain; first last.
    { apply (Hsub B). rewrite Hb. left. }
    { apply (Hsub A). rewrite Ha. left. }
    rewrite <-!list_fmap_compose. by apply list_fmap_ext.
  - rewrite js_findBestNodeMatching_plain by (intros ??; by eapply Hsub).
    rewrite <-!list_fmap_compose. by apply list_fmap_ext.
Qed.

(** On workflows with plain names [getStructuralDiff] returns the records
    of the diff over own entries, one class type after the other. *)
Lemma js_getStructuralDiff_plainNames :
  ∃ diffs,
    Js.getStructuralDiff A B = Returns diffs
    ∧ diffs ≡ₚ toJsDiff <$> getStructuralDiff A B
    ∧ (diffs = [] ↔ getStructuralDiff A B = []).
Proof.
  destruct (js_getStructuralDiff_Returns A B (proj1 HA) (proj1 HB))
    as (cts & Hret & Hnd & Hin).
  eexists. split; [exact Hret|].
  assert (cts ≡ₚ allClassTypes A B) as Hperm.
  { apply NoDup_Permutation; [done | apply Set_of_NoDup |].
    intros ct. by rewrite Hin, allClassTypes_elem. }
  assert ((cts ≫= λ ct, Js.classDiffs A (findNodesByType ct A) B (findNodesByType ct B) ct)
          ≡ₚ toJsDiff <$> getStructuralDiff A B) as Hrec.
  { unfold getStructuralDiff. rewrite fmap_list_bind.
    rewrite (bind_Permutation_l _ _ _ Hperm).
    apply reflexive_eq, bind_ext_in. intros ct _. apply js_classDiffs_plain. }
  split; [exact Hrec|]. split.
  - intros Hnil. rewrite Hnil in Hrec. apply Permutation_nil_l in Hrec.
    symmetry in Hrec. by apply fmap_nil_inv in Hrec.
  - intros Hnil. rewrite Hnil in Hrec. by apply Permutation_nil_r in Hrec.
Qed.
End plain.

Lemma js_removeNode_plain (nodes : ComfyWorkflowJson) (nodeId : string) :
  nodeId ∈ obj_keys nodes ∨ nodeId ∉ objectPrototypeNames →
  Js.removeNode nodeId nodes = removeNode nodeId nodes.
Proof.
  intros Hid. unfold Js.removeNode, removeNode. rewrite js_get_plain by done.
  by destruct (obj_get nodes nodeId).
Qed.

Lemma js_removeEdge_plain (nodes : ComfyWorkflowJson) (tgt name : string) :
  tgt ∈ obj_keys nodes ∨ tgt ∉ objectPrototypeNames →
  Js.removeEdge tgt name nodes = Returns (removeEdge tgt name nodes).
Proof.
  intros Htgt. unfold Js.removeEdge, removeEdge. rewrite js_get_plain by done.
  destruct (obj_get nodes tgt) as [node|] eqn:Hnode; simpl; [|done].
  assert (Js.isNodeConnection (Js.get (inputs node) name)
          = isNodeConnection (obj_get (inputs node) name)) as ->.
  { unfold Js.isNodeConnection, isNodeConnection, Js.get.
    destruct (obj_get (inputs node) name) as [[]|]; try done. by case_decide. }
  destruct (isNodeConnection _); [|done].
  by rewrite js_set_own by (apply obj_get_is_Some; by rewrite Hnode).
Qed.

Lemma js_set_plain {V} (o : list (string * V)) (k : string) (v : V) :
  k ∈ obj_keys o ∨ Js.arrayIndex k = None → Js.set k v o = obj_set k v o.
Proof.
  intros [Hin|Hidx]; [by apply js_set_own|].
  unfold Js.set. rewrite Hidx. destruct (obj_get o k) eqn:Hget; [done|].
  clear Hidx. induction o as [|[k0 v0] o IH]; simpl in *; [done|].
  case_decide; [done|]. by rewrite IH.
Qed.

Lemma js_setInput_plain (nodes : ComfyWorkflowJson) (nodeId name : string)
    (value : InputValue) :
  name ≠ "__proto__" → Js.arrayIndex name = None →
  Js.setInput nodeId name value nodes
  = from_option Returns Throws (setInput nodeId name value nodes).
Proof.
  intros Hname Hidx. unfold Js.setInput, setInput, Js.get.
  destruct (obj_get nodes nodeId) as [node|] eqn:Hnode; simpl; [|by case_decide].
  rewrite assignInput_ordinary by (by left). simpl.
  rewrite (js_set_plain (inputs node)) by (by right).
  by rewrite js_set_own by (apply obj_get_is_Some; by rewrite Hnode).
Qed.

Lemma js_addEdge_plain (nodes : ComfyWorkflowJson) (src : string) (port : Z)
    (tgt name : string) :
  src ∈ obj_keys nodes ∨ src ∉ objectPrototypeNames →
  name ≠ "__proto__" → Js.arrayIndex name = None →
  Js.addEdge src port tgt name nodes
  = from_option Returns Throws (addEdge src port tgt name nodes).
Proof.
  intros Hsrc Hname Hidx. unfold Js.addEdge, addEdge.
  rewrite (js_get_plain nodes src) by done.
  destruct (obj_get nodes src) as [s|] eqn:Hs; simpl; [|done].
  unfold Js.get.
  destruct (obj_get nodes tgt) as [node|] eqn:Hnode; simpl; [|by case_decide].
  rewrite assignInput_ordinary by (by left). simpl.
  rewrite (js_set_plain (inputs node)) by (by right).
  by rewrite js_set_own by (apply obj_get_is_Some; by rewrite Hnode).
Qed.

Lemma generateNodeId_plain (nodes : ComfyWorkflowJson) :
  generateNodeId nodes ∉ objectPrototypeNames.
Proof.
  intros Hin. assert (parseInt (generateNodeId nodes) = None) as Hnone.
  { revert Hin. generalize (generateNodeId nodes). intros k.
    unfold objectPrototypeNames. rewrite !elem_of_cons, elem_of_nil.
    intros H. repeat (destruct H as [->|H]; [by vm_compute|]). done. }
  unfold generateNodeId in Hnone. by rewrite parseInt_num_to_string in Hnone.
Qed.

(** [addNode]: the same outcome, and the same entries up to the place of
    the new one. *)
Lemma js_addNode_plain (classType : string) (ins : list (string * InputValue))
    (id : option string) (meta : option NodeMeta) (nodes : ComfyWorkflowJson) :
  default (generateNodeId nodes) id ∉ objectPrototypeNames →
  match addNode classType ins id meta nodes with
  | Some (nodeId, nodes2) =>
      ∃ nodes1,
        Js.addNode classType ins id meta nodes = Returns (nodeId, nodes1)
        ∧ nodes1 ≡ₚ nodes2
        ∧ ∀ k, obj_get nodes1 k = obj_get nodes2 k
  | None => Js.addNode classType ins id meta nodes = Throws
  end.
Proof.
  intros Hplain. unfold addNode, Js.addNode.
  set (nodeId := default (generateNodeId nodes) id) in *.
  rewrite js_get_plain by (by right).
  destruct (obj_get nodes nodeId) eqn:Hget; simpl; [done|].
  apply obj_get_None in Hget. eexists. split_and!; [done| |].
  - rewrite js_set_fresh by done.
    assert (∀ (o : ComfyWorkflowJson) k v, k ∉ obj_keys o → obj_set k v o = o ++ [(k, v)])
      as Hsnoc.
    { clear. intros o k v. induction o as [|[k0 v0] o IH]; [done|].
      unfold obj_keys. rewrite fmap_cons, not_elem_of_cons. simpl. intros [? ?].
      rewrite decide_False by done. by rewrite IH. }
    rewrite Hsnoc by done. by rewrite Permutation_app_comm.
  - intros k. by rewrite obj_get_js_set, obj_get_set.
Qed.

Lemma js_getInput_plain (nodes : ComfyWorkflowJson) (nodeId name : string) :
  nodeId ∈ obj_keys nodes ∨ nodeId ∉ objectPrototypeNames →
  name ∉ objectPrototypeNames →
  Js.getInput nodeId name nodes = Returns (Js.ofOption (getInput nodeId name nodes)).
Proof.
  intros Hid Hname. unfold Js.getInput, getInput. rewrite js_get_plain by done.
  destruct (obj_get nodes nodeId) as [node|]; simpl; [|done].
  by rewrite js_get_plain by (by right).
Qed.
